(** * @flapili/form: the form controllers [useForm] and [useFormComponent]

    A shallow embedding of [src/index.ts].  The file has two controllers over
    a Zod schema: [useForm] (it clones the caller's [initialData] and
    validates synchronously) and [useFormComponent] (it works on the caller's
    live [input] object, validates asynchronously in a watcher and keeps a
    three-valued [status]).

    What belongs to the JavaScript run time and to the libraries the source
    calls is modelled here as far as the code depends on it:
    - the object store: objects and arrays live in a heap and are referred to
      by location, so that aliasing between the caller's objects, the
      controller's clone and the snapshot used by [reset] is visible;
    - [JSON.stringify] / [JSON.parse], which [deepClone] is made of;
    - [Object.assign], which the asynchronous [reset] is made of;
    - Vue's [ref] cells (a field of the controller state each), the watcher
      with its queued job, and the promise of [safeParseAsync] (a list of
      validations in flight);
    - Zod's [safeParse] / [safeParseAsync], as functions of the data;
    - of the component that [useFormComponent] returns, its [setup]: the
      object given to [provide] and the one the render function gives to the
      default slot (the virtual DOM is not modelled). *)

From stdpp Require Import base option numbers list strings.
From Stdlib Require Import ZArith Lia.
From Stdlib Require PrimFloat.

Open Scope string_scope.
Open Scope list_scope.

(** ** The validator's results (Zod) *)

Module Zod.

(** A JavaScript number: a double. *)
Abbreviation number := PrimFloat.float.

(** A path segment is a [string | number]. *)
Inductive seg : Type :=
  | SegStr (s : string)
  | SegNum (n : number).

Record ZodIssue : Type := mkIssue {
  code : string;
  path : list seg;
  message : string
}.

Record ZodError : Type := mkError {
  issues : list ZodIssue
}.

(** [ZodError.errors] is a getter that returns [issues]. *)
Definition errors (e : ZodError) : list ZodIssue := issues e.

Inductive SafeParseReturnType (Output : Type) : Type :=
  | SafeParseSuccess (data : Output)
  | SafeParseError (error : ZodError).
Arguments SafeParseSuccess {Output} data.
Arguments SafeParseError {Output} error.

Definition success {Output} (r : SafeParseReturnType Output) : bool :=
  match r with
  | SafeParseSuccess _ => true
  | SafeParseError _ => false
  end.

Section join.

(** The string the run time gives for a number (["0"], ["1.5"], ["1e+21"],
    ["NaN"], ...).  The code reaches it through [join] only, and nothing here
    depends on what it returns. *)
Variable Number_toString : number -> string.

(** What [Array.prototype.join] writes for an element of a path. *)
Definition seg_to_string (x : seg) : string :=
  match x with
  | SegStr s => s
  | SegNum n => Number_toString n
  end.

Fixpoint join_strings (sep : string) (l : list string) : string :=
  match l with
  | [] => ""
  | [x] => x
  | x :: l' => (x ++ sep ++ join_strings sep l')%string
  end.

Definition join (p : list seg) (sep : string) : string :=
  join_strings sep (map seg_to_string p).

(** In the words of the specification of [getErrors]: the issues whose
    path, joined with ['.'], equals the queried path joined with ['.'], in
    their original order. *)
Definition issues_matching (queried : list seg) (l : list ZodIssue) : list ZodIssue :=
  filter (fun i => join (path i) "." = join queried ".") l.

End join.

End Zod.

(** ** Completions of JavaScript code *)

Module JS.

(** The values the file throws or lets escape: the two errors of the JSON
    built-ins, the validator's error object (thrown by the asynchronous
    [submit]), and whatever the caller's callback throws. *)
Inductive exn : Type :=
  | TypeError (why : string)
  | SyntaxError (why : string)
  | Thrown (e : Zod.ZodError)
  | CallbackError (why : string).

(** A call either returns, or throws, or leaves the model ([Stuck]: a
    dangling location, exhausted fuel, or an operation on a shape of object
    that is not modelled). *)
Inductive completion (A : Type) : Type :=
  | Normal (a : A)
  | Throw (e : exn)
  | Stuck.
Arguments Normal {A} a.
Arguments Throw {A} e.
Arguments Stuck {A}.

Definition bind {A B} (c : completion A) (k : A -> completion B) : completion B :=
  match c with
  | Normal a => k a
  | Throw e => Throw e
  | Stuck => Stuck
  end.

Fixpoint mapM {A B} (f : A -> completion B) (l : list A) : completion (list B) :=
  match l with
  | [] => Normal []
  | x :: l' => bind (f x) (fun y => bind (mapM f l') (fun ys => Normal (y :: ys)))
  end.

(** ** Values and the object store *)

Abbreviation loc := nat.

(** The data of a form: plain objects and arrays of primitives.  Numbers are
    the integers; [VNaN] stands for the non-finite numbers.  A [Date] is kept
    as an immutable value carrying its ISO string, which is all
    [JSON.stringify] reads of it.  BigInt, symbol and function values (and so
    objects with a [toJSON] of their own) are not among them. *)
Inductive val : Type :=
  | VUndefined
  | VNull
  | VBool (b : bool)
  | VNum (n : Z)
  | VNaN
  | VStr (s : string)
  | VDate (iso : string)
  | VRef (l : loc).

(** A plain object keeps its properties in insertion order; an array keeps
    its elements. *)
Inductive obj : Type :=
  | Obj (props : list (string * val))
  | Arr (elems : list val).

Abbreviation heap := (list obj).

Inductive key : Type :=
  | KStr (s : string)
  | KIdx (i : nat).

#[global] Instance val_eq_dec : EqDecision val.
Proof. solve_decision. Defined.
#[global] Instance obj_eq_dec : EqDecision obj.
Proof. solve_decision. Defined.
#[global] Instance key_eq_dec : EqDecision key.
Proof. solve_decision. Defined.

(** [o[k]] and [o[k] = v] on the properties of a plain object. *)
Fixpoint get_prop (k : string) (ps : list (string * val)) : option val :=
  match ps with
  | [] => None
  | (k', v) :: ps' => if String.eqb k k' then Some v else get_prop k ps'
  end.

Fixpoint set_prop (k : string) (v : val) (ps : list (string * val)) : list (string * val) :=
  match ps with
  | [] => [(k, v)]
  | (k', v') :: ps' =>
      if String.eqb k k' then (k, v) :: ps' else (k', v') :: set_prop k v ps'
  end.

Definition obj_get (o : obj) (k : key) : option val :=
  match o, k with
  | Obj ps, KStr s => get_prop s ps
  | Arr vs, KIdx i => vs !! i
  | _, _ => None
  end.

(** Writing a property.  An array takes an index below its length
    (replacement) or equal to it (append).  Index keys on plain objects
    (JavaScript stores them as strings: use [KStr]), named properties on
    arrays and sparse arrays are outside the model. *)
Definition obj_set (o : obj) (k : key) (v : val) : option obj :=
  match o, k with
  | Obj ps, KStr s => Some (Obj (set_prop s v ps))
  | Arr vs, KIdx i =>
      if decide (i < length vs) then Some (Arr (<[i:=v]> vs))
      else if decide (i = length vs) then Some (Arr (vs ++ [v]))
      else None
  | _, _ => None
  end.

(** The own enumerable properties, in the order [Object.assign] and
    [JSON.stringify] visit them. *)
Definition entries (o : obj) : list (key * val) :=
  match o with
  | Obj ps => map (fun kv => (KStr (fst kv), snd kv)) ps
  | Arr vs => imap (fun i v => (KIdx i, v)) vs
  end.

Definition obj_vals (o : obj) : list val :=
  match o with
  | Obj ps => map snd ps
  | Arr vs => vs
  end.

(** ** The tree a value unfolds to *)

#[local] Unset Elimination Schemes.
Inductive tree : Type :=
  | TUndefined
  | TNull
  | TBool (b : bool)
  | TNum (n : Z)
  | TNaN
  | TStr (s : string)
  | TDate (iso : string)
  | TObj (props : list (string * tree))
  | TArr (elems : list tree).
#[local] Set Elimination Schemes.

Definition prim_tree (v : val) : tree :=
  match v with
  | VUndefined => TUndefined
  | VNull => TNull
  | VBool b => TBool b
  | VNum n => TNum n
  | VNaN => TNaN
  | VStr s => TStr s
  | VDate iso => TDate iso
  | VRef _ => TUndefined
  end.

(** The walk of [JSON.stringify] over the object graph below [v].  [stack]
    holds the objects being serialised; meeting one of them again is the
    "cyclic object value" [TypeError].  The walk is bounded by [fuel]; the
    number of objects in the heap plus one is always enough (see
    [unfold_total]). *)
Fixpoint unfold (fuel : nat) (h : heap) (stack : list loc) (v : val) : completion tree :=
  match v with
  | VRef l =>
      if decide (l ∈ stack) then Throw (TypeError "cyclic object value")
      else
        match fuel with
        | O => Stuck
        | S fuel' =>
            match h !! l with
            | None => Stuck
            | Some (Obj ps) =>
                bind (mapM (fun kv => bind (unfold fuel' h (l :: stack) (snd kv))
                                          (fun t => Normal (fst kv, t))) ps)
                     (fun props => Normal (TObj props))
            | Some (Arr vs) =>
                bind (mapM (unfold fuel' h (l :: stack)) vs)
                     (fun ts => Normal (TArr ts))
            end
        end
  | _ => Normal (prim_tree v)
  end.

(** The value of [v] in [h], as a tree. *)
Definition value_of (h : heap) (v : val) : completion tree :=
  unfold (S (length h)) h [] v.

(** What [JSON.stringify] writes for a tree; [None] is JavaScript's
    [undefined] (nothing is written).  A property whose value is [undefined]
    is left out, an [undefined] array element becomes [null], a non-finite
    number becomes [null], a date becomes its ISO string. *)
Fixpoint to_json (t : tree) : option tree :=
  match t with
  | TUndefined => None
  | TNaN => Some TNull
  | TDate iso => Some (TStr iso)
  | TObj ps =>
      Some (TObj (flat_map (fun kt => match to_json (snd kt) with
                                      | Some j => [(fst kt, j)]
                                      | None => []
                                      end) ps))
  | TArr ts =>
      Some (TArr (map (fun t' => match to_json t' with
                                 | Some j => j
                                 | None => TNull
                                 end) ts))
  | _ => Some t
  end.

Definition JSON_stringify (h : heap) (v : val) : completion (option tree) :=
  bind (value_of h v) (fun t => Normal (to_json t)).

Definition prim_val (t : tree) : val :=
  match t with
  | TNull => VNull
  | TBool b => VBool b
  | TNum n => VNum n
  | TNaN => VNaN
  | TStr s => VStr s
  | TDate iso => VDate iso
  | _ => VUndefined
  end.

(** [JSON.parse]: the objects of the text are created in the heap, children
    first; a repeated key keeps its last value. *)
Fixpoint alloc (t : tree) (h : heap) {struct t} : heap * val :=
  match t with
  | TObj ps =>
      let '(h1, props) :=
        (fix go (ps : list (string * tree)) (h : heap) (acc : list (string * val)) :=
           match ps with
           | [] => (h, acc)
           | kt :: ps' =>
               let '(h', v) := alloc (snd kt) h in go ps' h' (set_prop (fst kt) v acc)
           end) ps h [] in
      (h1 ++ [Obj props], VRef (length h1))
  | TArr ts =>
      let '(h1, vs) :=
        (fix go (ts : list tree) (h : heap) (acc : list val) :=
           match ts with
           | [] => (h, acc)
           | t' :: ts' => let '(h', v) := alloc t' h in go ts' h' (acc ++ [v])
           end) ts h [] in
      (h1 ++ [Arr vs], VRef (length h1))
  | _ => (h, prim_val t)
  end.

Definition JSON_parse (text : option tree) (h : heap) : completion (heap * val) :=
  match text with
  | None => Throw (SyntaxError "undefined is not valid JSON")
  | Some j => Normal (alloc j h)
  end.

(** [Object.assign(target, source)]: every own property of [source] is
    written to [target], in order.  The flag tells whether a write changed
    [target] (a new key or a different value): that is what triggers a
    watcher of a reactive [target]. *)
Fixpoint assign_entries (o : obj) (es : list (key * val)) : option (obj * bool) :=
  match es with
  | [] => Some (o, false)
  | (k, v) :: es' =>
      match obj_set o k v with
      | None => None
      | Some o' =>
          match assign_entries o' es' with
          | None => None
          | Some (o'', changed) =>
              Some (o'', bool_decide (obj_get o k ≠ Some v) || changed)
          end
      end
  end.

Definition Object_assign (h : heap) (target : loc) (source : val) : option (heap * bool) :=
  match source with
  | VRef s =>
      match h !! target, h !! s with
      | Some o, Some src =>
          match assign_entries o (entries src) with
          | Some (o', changed) => Some (<[target:=o']> h, changed)
          | None => None
          end
      | _, _ => None
      end
  | _ => Some (h, false)
  end.

(** A heap of JavaScript objects: the property names of an object are
    distinct and every reference leads to an object. *)
Definition val_ok (n : nat) (v : val) : bool :=
  match v with
  | VRef l => bool_decide (l < n)
  | _ => true
  end.

Definition obj_ok (n : nat) (o : obj) : bool :=
  match o with
  | Obj ps => bool_decide (NoDup (map fst ps)) && forallb (val_ok n) (map snd ps)
  | Arr vs => forallb (val_ok n) vs
  end.

Definition wf_heap (h : heap) : bool := forallb (obj_ok (length h)) h.

(** ** Predicates of the proofs *)

(** The two loops of [alloc], by name. *)
Definition alloc_props
  : list (string * tree) -> heap -> list (string * val) -> heap * list (string * val) :=
  fix go (ps : list (string * tree)) (h : heap) (acc : list (string * val)) :=
    match ps with
    | [] => (h, acc)
    | kt :: ps' =>
        let '(h', v) := alloc (snd kt) h in go ps' h' (set_prop (fst kt) v acc)
    end.

Definition alloc_elems : list tree -> heap -> list val -> heap * list val :=
  fix go (ts : list tree) (h : heap) (acc : list val) :=
    match ts with
    | [] => (h, acc)
    | t' :: ts' => let '(h', v) := alloc t' h in go ts' h' (acc ++ [v])
    end.

(** The nesting depth of a tree: the fuel its walk needs. *)
Fixpoint depth (t : tree) : nat :=
  match t with
  | TObj ps => S (list_max (map (fun kt => depth (snd kt)) ps))
  | TArr ts => S (list_max (map depth ts))
  | _ => 0
  end.

(** No object of the tree repeats a property name. *)
Fixpoint distinct_keys (t : tree) : bool :=
  match t with
  | TObj ps => bool_decide (NoDup (map fst ps)) && forallb (fun kt => distinct_keys (snd kt)) ps
  | TArr ts => forallb distinct_keys ts
  | _ => true
  end.

(** [v] is a primitive or a reference into the locations [lo .. hi-1]. *)
Definition val_in (lo hi : nat) (v : val) : Prop :=
  match v with
  | VRef l => lo <= l < hi
  | _ => True
  end.

Definition obj_in (lo hi : nat) (o : obj) : Prop :=
  match o with
  | Obj ps => NoDup (map fst ps) /\ Forall (val_in lo hi) (map snd ps)
  | Arr vs => Forall (val_in lo hi) vs
  end.

(** What [alloc t h] returns: the heap grows at its end, every new object
    refers to objects created before it and after [h], and there are at
    least as many new objects as the tree is deep. *)
Definition alloc_post (t : tree) (h h' : heap) (v : val) : Prop :=
  exists ext, h' = h ++ ext /\ val_in (length h) (length h') v /\
    (forall i o, ext !! i = Some o -> obj_in (length h) (length h + i) o) /\
    depth t <= length ext.

(** Every object of [h] is in [h'], unchanged. *)
Definition sub_heap (h h' : heap) : Prop := forall l o, h !! l = Some o -> h' !! l = Some o.

(** The value [alloc t h] returns reads back as [t], in any heap that
    keeps the new objects. *)
Definition alloc_reads (t : tree) (h h' : heap) (v : val) : Prop :=
  forall fuel stack h'',
    depth t <= fuel ->
    (forall l, l ∈ stack -> l < length h \/ length h' <= l) ->
    sub_heap h' h'' ->
    unfold fuel h'' stack v = Normal t.

(** A tree that [JSON.stringify] writes as it is. *)
Definition json_safe (t : tree) : Prop := to_json t = Some t.

(** Every object of the heap has distinct property names. *)
Definition heap_distinct (h : heap) : Prop :=
  forall l ps, h !! l = Some (Obj ps) -> NoDup (map fst ps).

(** [v] is a primitive or refers to an object created at or after [n0];
    in [closed_above n0 h] the objects created at or after [n0] hold only
    such values. *)
Definition owned (n0 : nat) (v : val) : Prop :=
  match v with
  | VRef l => n0 <= l
  | _ => True
  end.

Definition closed_above (n0 : nat) (h : heap) : Prop :=
  forall l o, n0 <= l -> h !! l = Some o -> Forall (owned n0) (obj_vals o).

(** Every reference held by an object of the heap leads into the heap. *)
Definition heap_closed (h : heap) : Prop :=
  forall l o, h !! l = Some o -> Forall (val_in 0 (length h)) (obj_vals o).

(** Two objects of the same kind: both plain objects, or both arrays. *)
Definition same_kind (o1 o2 : obj) : bool :=
  match o1, o2 with
  | Obj _, Obj _ => true
  | Arr _, Arr _ => true
  | _, _ => false
  end.

(** The property names of the object are distinct. *)
Definition obj_distinct (o : obj) : Prop :=
  match o with
  | Obj ps => NoDup (map fst ps)
  | Arr _ => True
  end.

(** A plain object unfolds to an object tree, an array to an array tree. *)
Definition tree_kind (o : obj) (t : tree) : bool :=
  match o, t with
  | Obj _, TObj _ => true
  | Arr _, TArr _ => true
  | _, _ => false
  end.

(** The snapshot [initialInput] is an object [so] at the location [s],
    which is not [input]; no object of the heap refers to [s] (only the
    controller holds it); [input] is an object of the same kind as [so]. *)
Record snapshot_ok (input s : loc) (so : obj) (h : heap) (snap : val) : Prop := mkSnapshotOk {
  snap_ref : snap = VRef s;
  snap_ne : s <> input;
  snap_obj : h !! s = Some so;
  snap_distinct : obj_distinct so;
  snap_private : forall l o, h !! l = Some o -> Forall (fun v => v <> VRef s) (obj_vals o);
  snap_input : exists o, h !! input = Some o /\ same_kind o so = true
}.

End JS.

(** ** What the caller can do to the data of a form

    The caller (the template's [v-model]s, event handlers) reaches the data
    through the object the controller hands out.  It assigns to a property of
    an object reachable from there either a literal (a primitive, or a fresh
    object or array literal) or a value it read from the same data. *)

Module Caller.
Import JS.

(** [reach h v l]: the object at [l] is reachable from the value [v]. *)
Inductive reach (h : heap) : val -> loc -> Prop :=
  | reach_here l : reach h (VRef l) l
  | reach_via l0 o v l :
      h !! l0 = Some o -> In v (obj_vals o) -> reach h v l -> reach h (VRef l0) l.

(** The object at [l] is reachable from one of its own property values;
    [cyclic h v]: such an object is reachable from [v]. *)
Definition on_cycle (h : heap) (l : loc) : Prop :=
  exists o v, h !! l = Some o /\ In v (obj_vals o) /\ reach h v l.

Definition cyclic (h : heap) (v : val) : Prop :=
  exists l, reach h v l /\ on_cycle h l.

Inductive rhs : Type :=
  | Lit (t : tree)
  | Existing (v : val).

(** The right-hand side denotes a value the caller can have: any literal, a
    primitive, or an object reachable from [root]. *)
Definition rhs_ok (h : heap) (root : val) (e : rhs) : Prop :=
  match e with
  | Lit _ => True
  | Existing (VRef l) => reach h root l
  | Existing _ => True
  end.

Definition eval_rhs (h : heap) (e : rhs) : heap * val :=
  match e with
  | Lit t => alloc t h
  | Existing v => (h, v)
  end.

(** [o[k] = e] for the object [o] at [l].  The flag tells whether the
    property changed, which is when a reactive object notifies its
    watchers. *)
Definition write (h : heap) (l : loc) (k : key) (e : rhs) : option (heap * bool) :=
  let '(h1, v) := eval_rhs h e in
  match h1 !! l with
  | None => None
  | Some o =>
      match obj_set o k v with
      | None => None
      | Some o' => Some (<[l:=o']> h1, bool_decide (obj_get o k ≠ Some v))
      end
  end.

End Caller.

(** ** The synchronous controller: [useForm] *)

Module UseForm.
Import Zod JS Caller.

(** [deepClone(obj)] is [JSON.parse(JSON.stringify(obj))]. *)
Definition deepClone (h : JS.heap) (obj : val) : completion (JS.heap * val) :=
  bind (JSON_stringify h obj) (fun text => JSON_parse text h).

(** The cells the closure of [useForm] holds: [data], [displayErrors] and
    [changedAt] are [ref]s ([changedAt] holds a [Date], kept as its time
    value, or [null]); [calls] records the invocations of [onSubmit] (it is
    not a variable of the source). *)
Record Form (Output : Type) : Type := mkForm {
  heap : JS.heap;
  data : val;
  displayErrors : bool;
  changedAt : option Z;
  calls : list Output
}.
Arguments mkForm {Output}.
Arguments heap {Output}.
Arguments data {Output}.
Arguments displayErrors {Output}.
Arguments changedAt {Output}.
Arguments calls {Output}.

(** Assignments to the cells. *)
Definition set_data {Output} (h : JS.heap) (v : val) (st : Form Output) : Form Output :=
  mkForm h v (displayErrors st) (changedAt st) (calls st).

Definition set_heap {Output} (h : JS.heap) (st : Form Output) : Form Output :=
  mkForm h (data st) (displayErrors st) (changedAt st) (calls st).

Definition set_displayErrors {Output} (b : bool) (st : Form Output) : Form Output :=
  mkForm (heap st) (data st) b (changedAt st) (calls st).

Definition set_changedAt {Output} (d : option Z) (st : Form Output) : Form Output :=
  mkForm (heap st) (data st) (displayErrors st) d (calls st).

Definition called {Output} (out : Output) (st : Form Output) : Form Output :=
  mkForm (heap st) (data st) (displayErrors st) (changedAt st) (calls st ++ [out]).

(** The controller owns its data: the heap the form was made in is a prefix
    of the current heap, unchanged; the objects created since refer only to
    one another; [data.value] is one of them (or a primitive). *)
Record inv {Output} (h0 : JS.heap) (st : Form Output) : Prop := mkInv {
  inv_prefix : exists new, heap st = h0 ++ new;
  inv_closed : closed_above (length h0) (heap st);
  inv_data : owned (length h0) (data st)
}.

Section useForm.
Context {Output : Type}.

(** The run time's conversion of a number to a string, for [join]. *)
Variable Number_toString : number -> string.

(** The options object [{ schema, initialData, onSubmit }].  Of the schema
    the controller calls [safeParse], a function of the data.  The callback
    returns or throws; what it does to the data is an action of the caller
    like any other (see [step]). *)
Variable schema : JS.heap -> val -> SafeParseReturnType Output.
Variable initialData : val.
Variable onSubmit : Output -> completion unit.

Definition useForm (h : JS.heap) : completion (Form Output) :=
  bind (deepClone h initialData) (fun hv =>
    Normal (mkForm (fst hv) (snd hv) false None [])).

(** [computed(() => schema.safeParse(data.value))] *)
Definition parseResult (st : Form Output) : SafeParseReturnType Output :=
  schema (heap st) (data st).

Definition isValid (st : Form Output) : bool := success (parseResult st).

Definition getErrors (st : Form Output) (path : list seg) : list ZodIssue :=
  match parseResult st with
  | SafeParseSuccess _ => []
  | SafeParseError error =>
      List.filter (fun error => String.eqb (join Number_toString (Zod.path error) ".")
                                           (join Number_toString path "."))
                  (errors error)
  end.

Definition hasChanged (st : Form Output) : bool :=
  bool_decide (changedAt st <> None).

Definition submit (st : Form Output) : Form Output * completion unit :=
  match schema (heap st) (data st) with
  | SafeParseSuccess res_data => (called res_data st, onSubmit res_data)
  | SafeParseError _ => (set_displayErrors true st, Normal tt)
  end.

Definition reset (st : Form Output) : Form Output * completion unit :=
  match deepClone (heap st) initialData with
  | Normal hv =>
      (set_displayErrors false (set_changedAt None (set_data (fst hv) (snd hv) st)),
       Normal tt)
  | Throw e => (st, Throw e)
  | Stuck => (st, Stuck)
  end.

Definition toggleDisplayErrors (st : Form Output) : Form Output :=
  set_displayErrors (negb (displayErrors st)) st.

(** The caller's side.  [data] is returned as a [Ref], so the caller can
    assign below [data.value] or replace [data.value]; [displayErrors] and
    [changedAt] are returned as [Ref]s too. *)
Inductive action : Type :=
  | Assign (l : loc) (k : key) (e : rhs)
  | SetData (e : rhs)
  | SetDisplayErrors (b : bool)
  | SetChangedAt (d : option Z)
  | Submit
  | Reset
  | ToggleDisplayErrors.

Inductive step : Form Output -> action -> Form Output -> Prop :=
  | step_assign st l k e h' changed :
      reach (heap st) (data st) l ->
      rhs_ok (heap st) (data st) e ->
      write (heap st) l k e = Some (h', changed) ->
      step st (Assign l k e) (set_heap h' st)
  | step_set_data st e :
      rhs_ok (heap st) (data st) e ->
      step st (SetData e)
           (set_data (fst (eval_rhs (heap st) e)) (snd (eval_rhs (heap st) e)) st)
  | step_set_displayErrors st b :
      step st (SetDisplayErrors b) (set_displayErrors b st)
  | step_set_changedAt st d :
      step st (SetChangedAt d) (set_changedAt d st)
  | step_submit st : step st Submit (fst (submit st))
  | step_reset st : step st Reset (fst (reset st))
  | step_toggle st : step st ToggleDisplayErrors (toggleDisplayErrors st).

(** The states of a form made by [useForm] in the heap [h0], under any
    sequence of actions of the caller. *)
Inductive reachable (h0 : JS.heap) : Form Output -> Prop :=
  | reachable_init st :
      wf_heap h0 = true ->
      val_ok (length h0) initialData = true ->
      useForm h0 = Normal st ->
      reachable h0 st
  | reachable_step st a st' :
      reachable h0 st -> step st a st' -> reachable h0 st'.

End useForm.
End UseForm.

(** ** The asynchronous controller: [useFormComponent] *)

Module UseFormComponent.
Import Zod JS Caller.

Inductive Status : Type := parsing | valid | invalid.

(** [options?: { displayErrors?: Ref<boolean>, mutateDisplayErrorsOnError?: boolean }].
    Of a supplied [displayErrors] cell the model keeps the content. *)
Record Options : Type := mkOptions {
  opt_displayErrors : option bool;
  opt_mutateDisplayErrorsOnError : option bool
}.

(** [options?.mutateDisplayErrorsOnError], as a condition. *)
Definition mutateDisplayErrorsOnError (options : option Options) : bool :=
  match options with
  | Some o =>
      match opt_mutateDisplayErrorsOnError o with
      | Some b => b
      | None => false
      end
  | None => false
  end.

(** The schema, as far as the controller calls it. *)
Record Schema (Output : Type) : Type := mkSchema {
  safeParse : JS.heap -> val -> SafeParseReturnType Output;
  safeParseAsync : JS.heap -> val -> SafeParseReturnType Output
}.
Arguments mkSchema {Output}.
Arguments safeParse {Output}.
Arguments safeParseAsync {Output}.

(** The cells of the closure of [useFormComponent].  [initialInput] is the
    snapshot taken at construction.  Of the run time: [mounted] (the
    watcher is installed by [onMounted]), [queued] (the watcher's job waits
    for the next flush), [inflight] (the results of the [safeParseAsync]
    calls whose [await] has not resumed yet, oldest first); [calls] records
    the invocations of [onSubmit]. *)
Record FormComponent (Output : Type) : Type := mkFormComponent {
  heap : JS.heap;
  initialInput : val;
  status : Status;
  parseResult : option (SafeParseReturnType Output);
  displayErrors : bool;
  changedAt : option Z;
  mounted : bool;
  queued : bool;
  inflight : list (SafeParseReturnType Output);
  calls : list Output
}.
Arguments mkFormComponent {Output}.
Arguments heap {Output}.
Arguments initialInput {Output}.
Arguments status {Output}.
Arguments parseResult {Output}.
Arguments displayErrors {Output}.
Arguments changedAt {Output}.
Arguments mounted {Output}.
Arguments queued {Output}.
Arguments inflight {Output}.
Arguments calls {Output}.

(** Assignments to the cells. *)
Definition set_heap {Output} (h : JS.heap) (st : FormComponent Output) :=
  mkFormComponent h (initialInput st) (status st) (parseResult st) (displayErrors st)
    (changedAt st) (mounted st) (queued st) (inflight st) (calls st).

Definition set_status {Output} (s : Status) (st : FormComponent Output) :=
  mkFormComponent (heap st) (initialInput st) s (parseResult st) (displayErrors st)
    (changedAt st) (mounted st) (queued st) (inflight st) (calls st).

Definition set_parseResult {Output} (r : option (SafeParseReturnType Output))
    (st : FormComponent Output) :=
  mkFormComponent (heap st) (initialInput st) (status st) r (displayErrors st)
    (changedAt st) (mounted st) (queued st) (inflight st) (calls st).

Definition set_displayErrors {Output} (b : bool) (st : FormComponent Output) :=
  mkFormComponent (heap st) (initialInput st) (status st) (parseResult st) b
    (changedAt st) (mounted st) (queued st) (inflight st) (calls st).

Definition set_changedAt {Output} (d : option Z) (st : FormComponent Output) :=
  mkFormComponent (heap st) (initialInput st) (status st) (parseResult st)
    (displayErrors st) d (mounted st) (queued st) (inflight st) (calls st).

Definition set_mounted {Output} (b : bool) (st : FormComponent Output) :=
  mkFormComponent (heap st) (initialInput st) (status st) (parseResult st)
    (displayErrors st) (changedAt st) b (queued st) (inflight st) (calls st).

Definition set_queued {Output} (b : bool) (st : FormComponent Output) :=
  mkFormComponent (heap st) (initialInput st) (status st) (parseResult st)
    (displayErrors st) (changedAt st) (mounted st) b (inflight st) (calls st).

Definition set_inflight {Output} (l : list (SafeParseReturnType Output))
    (st : FormComponent Output) :=
  mkFormComponent (heap st) (initialInput st) (status st) (parseResult st)
    (displayErrors st) (changedAt st) (mounted st) (queued st) l (calls st).

Definition called {Output} (out : Output) (st : FormComponent Output) :=
  mkFormComponent (heap st) (initialInput st) (status st) (parseResult st)
    (displayErrors st) (changedAt st) (mounted st) (queued st) (inflight st)
    (calls st ++ [out]).

(** The cells of [Context], the object given to [provide] and to the
    default slot: [data], [changedAt], [displayErrors], [parseResult],
    [hasChanged] and [status]. *)
Record Context (Output : Type) : Type := mkContext {
  ctx_data : loc;
  ctx_changedAt : option Z;
  ctx_displayErrors : bool;
  ctx_parseResult : option (SafeParseReturnType Output);
  ctx_hasChanged : bool;
  ctx_status : Status
}.
Arguments mkContext {Output}.
Arguments ctx_data {Output}.
Arguments ctx_changedAt {Output}.
Arguments ctx_displayErrors {Output}.
Arguments ctx_parseResult {Output}.
Arguments ctx_hasChanged {Output}.
Arguments ctx_status {Output}.

Section useFormComponent.
Context {Output R : Type}.

(** The run time's conversion of a number to a string, for [join]. *)
Variable Number_toString : number -> string.

Variable schema : Schema Output.
(** [input] is a reactive object: a location of the caller's heap. *)
Variable input : loc.
Variable onSubmit : Output -> completion R.
Variable options : option Options.

(** [options?.displayErrors ?? ref(false)] *)
Definition initial_displayErrors : bool :=
  match options with
  | Some o =>
      match opt_displayErrors o with
      | Some b => b
      | None => false
      end
  | None => false
  end.

Definition useFormComponent (h : JS.heap) : completion (FormComponent Output) :=
  bind (JSON_stringify h (VRef input)) (fun text =>
  bind (JSON_parse text h) (fun hv =>
    Normal (mkFormComponent (fst hv) (snd hv) parsing None initial_displayErrors
              None false false [] []))).

(** The watcher's callback up to its [await]: [status] becomes [parsing]
    and [safeParseAsync] is called on the data as they are now. *)
Definition watcher (st : FormComponent Output) : FormComponent Output :=
  set_inflight (inflight st ++ [safeParseAsync schema (heap st) (VRef input)])
    (set_status parsing st).

(** [onMounted]: the watcher is installed and, being [immediate], run. *)
Definition mount (st : FormComponent Output) : FormComponent Output :=
  watcher (set_mounted true st).

(** A change below [input] queues the watcher's job, once installed. *)
Definition trigger (changed : bool) (st : FormComponent Output) : FormComponent Output :=
  set_queued (queued st || (mounted st && changed)) st.

(** The scheduler runs the queued job. *)
Definition flush (st : FormComponent Output) : FormComponent Output :=
  watcher (set_queued false st).

(** The callback after its [await], for the validation that resolved to
    [r]: the two assignments that follow the [await]. *)
Definition resume (r : SafeParseReturnType Output) (st : FormComponent Output)
  : FormComponent Output :=
  set_status (if success r then valid else invalid) (set_parseResult (Some r) st).

(** The [i]-th validation in flight resolves. *)
Definition resolve (i : nat) (st : FormComponent Output) : option (FormComponent Output) :=
  match inflight st !! i with
  | None => None
  | Some r => Some (resume r (set_inflight (delete i (inflight st)) st))
  end.

Definition getErrors (st : FormComponent Output) (path : list seg) : list ZodIssue :=
  match parseResult st with
  | None => []
  | Some v =>
      match v with
      | SafeParseSuccess _ => []
      | SafeParseError error =>
          List.filter (fun error => String.eqb (join Number_toString (Zod.path error) ".")
                                               (join Number_toString path "."))
                      (errors error)
      end
  end.

Definition hasChanged (st : FormComponent Output) : bool :=
  bool_decide (changedAt st <> None).

Definition submit (st : FormComponent Output) : FormComponent Output * completion R :=
  match safeParse schema (heap st) (VRef input) with
  | SafeParseError error =>
      ((if mutateDisplayErrorsOnError options then set_displayErrors true st else st),
       Throw (Thrown error))
  | SafeParseSuccess res_data => (called res_data st, onSubmit res_data)
  end.

Definition reset (st : FormComponent Output) : FormComponent Output * completion unit :=
  let st1 := set_displayErrors false (set_changedAt None st) in
  match Object_assign (heap st1) input (initialInput st1) with
  | Some (h', changed) => (trigger changed (set_heap h' st1), Normal tt)
  | None => (st1, Stuck)
  end.

Definition toggleDisplayErrors (st : FormComponent Output) : FormComponent Output :=
  set_displayErrors (negb (displayErrors st)) st.

(** [setup] of the component [useFormComponent] returns.  The object given
    to [provide] is built once, from the values the cells hold when [setup]
    runs; the render function that [setup] returns builds the object for the
    default slot from the cells at each rendering.  (Both objects also carry
    [submit], [getErrors], [reset] and [toggleDisplayErrors], the closures
    above.) *)
Definition setup (st0 : FormComponent Output)
  : Context Output * (FormComponent Output -> Context Output) :=
  (mkContext input (changedAt st0) (displayErrors st0) (parseResult st0)
     (hasChanged st0) (status st0),
   fun st => mkContext input (changedAt st) (displayErrors st) (parseResult st)
               (hasChanged st) (status st)).

(** What happens to a form: the component is mounted; the caller assigns
    below [input]; the scheduler flushes; a validation resolves; the slot's
    functions are called; a [displayErrors] cell supplied by the caller is
    written from outside. *)
Inductive action : Type :=
  | Mount
  | Assign (l : loc) (k : key) (e : rhs)
  | Flush
  | Resolve (i : nat)
  | SetDisplayErrors (b : bool)
  | Submit
  | Reset
  | ToggleDisplayErrors.

Inductive step : FormComponent Output -> action -> FormComponent Output -> Prop :=
  | step_mount st : mounted st = false -> step st Mount (mount st)
  | step_assign st l k e h' changed :
      reach (heap st) (VRef input) l ->
      rhs_ok (heap st) (VRef input) e ->
      write (heap st) l k e = Some (h', changed) ->
      step st (Assign l k e) (trigger changed (set_heap h' st))
  | step_flush st : queued st = true -> step st Flush (flush st)
  | step_resolve st i st' : resolve i st = Some st' -> step st (Resolve i) st'
  | step_set_displayErrors st b :
      step st (SetDisplayErrors b) (set_displayErrors b st)
  | step_submit st : step st Submit (fst (submit st))
  | step_reset st : step st Reset (fst (reset st))
  | step_toggle st : step st ToggleDisplayErrors (toggleDisplayErrors st).

Inductive reachable (h0 : JS.heap) : FormComponent Output -> Prop :=
  | reachable_init st :
      wf_heap h0 = true ->
      input < length h0 ->
      useFormComponent h0 = Normal st ->
      reachable h0 st
  | reachable_step st a st' :
      reachable h0 st -> step st a st' -> reachable h0 st'.

(** The watcher runs in [a]. *)
Definition runs_watcher (a : action) : bool :=
  match a with
  | Mount | Flush => true
  | _ => false
  end.

(** The states reached when validations never overlap: the watcher runs
    only when no validation is in flight. *)
Inductive serial (h0 : JS.heap) : FormComponent Output -> Prop :=
  | serial_init st :
      wf_heap h0 = true ->
      input < length h0 ->
      useFormComponent h0 = Normal st ->
      serial h0 st
  | serial_step st a st' :
      serial h0 st -> step st a st' ->
      (runs_watcher a = true -> inflight st = []) ->
      serial h0 st'.

End useFormComponent.
End UseFormComponent.

(** ** A form to run the controllers on

    The schema of the README, reduced to its first rule: [name] is a
    non-empty string ([z.string().min(1, 'Name is required')]); the output is
    the validated object. *)

Module Demo.
Import Zod JS Caller.

Definition name_required : ZodError :=
  mkError [mkIssue "too_small" [SegStr "name"] "Name is required"].

Definition name_missing : ZodError :=
  mkError [mkIssue "invalid_type" [SegStr "name"] "Required"].

Definition not_an_object : ZodError :=
  mkError [mkIssue "invalid_type" [] "Expected object"].

Definition safeParse (h : heap) (v : val) : SafeParseReturnType tree :=
  match v with
  | VRef l =>
      match h !! l with
      | Some (Obj ps) =>
          match get_prop "name" ps with
          | Some (VStr s) =>
              if String.eqb s "" then SafeParseError name_required
              else SafeParseSuccess (TObj [("name", TStr s)])
          | _ => SafeParseError name_missing
          end
      | _ => SafeParseError not_an_object
      end
  | _ => SafeParseError not_an_object
  end.

Definition schema : UseFormComponent.Schema tree :=
  UseFormComponent.mkSchema safeParse safeParse.

(** The callbacks: one that returns nothing, one that returns a string. *)
Definition onSubmit (out : tree) : completion unit := Normal tt.

Definition onSubmitCallback (out : tree) : completion string :=
  Normal "submitted to backend".

(** The caller's heaps: [{ name: '' }], [{ name: 'Bob', nick: undefined }],
    and [{ profile: { name: 'Bob' } }] (the outer object at location 1). *)
Definition empty_name : heap := [Obj [("name", VStr "")]].

Definition bob : heap := [Obj [("name", VStr "Bob"); ("nick", VUndefined)]].

Definition profile : heap := [Obj [("name", VStr "Bob")]; Obj [("profile", VRef 0)]].

(** The form of [useForm] on [{ name: '' }], as constructed, and after the
    caller typed a name. *)
Definition untyped : UseForm.Form tree :=
  UseForm.mkForm (empty_name ++ [Obj [("name", VStr "")]]) (VRef 1) false None [].

Definition typed : UseForm.Form tree :=
  UseForm.mkForm (empty_name ++ [Obj [("name", VStr "Bob")]]) (VRef 1) false None [].


(** The component of [useFormComponent] on [{ name: 'Bob', nick: undefined }],
    as constructed. *)
Definition constructed : UseFormComponent.FormComponent tree :=
  UseFormComponent.mkFormComponent (bob ++ [Obj [("name", VStr "Bob")]]) (VRef 1)
    UseFormComponent.parsing None false None false false [] [].

(** The same after the caller added a key [age]. *)
Definition extended : UseFormComponent.FormComponent tree :=
  UseFormComponent.mkFormComponent
    [Obj [("name", VStr "Bob"); ("nick", VUndefined); ("age", VNum 42)];
     Obj [("name", VStr "Bob")]]
    (VRef 1) UseFormComponent.parsing None false None false false [] [].

(** The same mounted; then the name is cleared and the watcher runs again
    while the first validation is still in flight. *)
Definition overlapping : UseFormComponent.FormComponent tree :=
  UseFormComponent.mkFormComponent
    [Obj [("name", VStr ""); ("nick", VUndefined)]; Obj [("name", VStr "Bob")]]
    (VRef 1) UseFormComponent.parsing None false None true false
    [SafeParseSuccess (TObj [("name", TStr "Bob")]); SafeParseError name_required] [].

(** The component mounted, its first validation resolved. *)
Definition validated : UseFormComponent.FormComponent tree :=
  UseFormComponent.mkFormComponent (bob ++ [Obj [("name", VStr "Bob")]]) (VRef 1)
    UseFormComponent.valid (Some (SafeParseSuccess (TObj [("name", TStr "Bob")])))
    false None true false [] [].

(** The same after both validations resolved, the failure last. *)
Definition resolved_invalid : UseFormComponent.FormComponent tree :=
  UseFormComponent.mkFormComponent
    [Obj [("name", VStr ""); ("nick", VUndefined)]; Obj [("name", VStr "Bob")]]
    (VRef 1) UseFormComponent.invalid (Some (SafeParseError name_required))
    false None true false [] [].

(** The component on [{ profile: { name: 'Bob' } }] as constructed (the
    snapshot is at the locations 2 and 3), and after a [reset] followed by
    [input.profile.name = 'Eve']. *)
Definition nested : UseFormComponent.FormComponent tree :=
  UseFormComponent.mkFormComponent
    (profile ++ [Obj [("name", VStr "Bob")]; Obj [("profile", VRef 2)]]) (VRef 3)
    UseFormComponent.parsing None false None false false [] [].

Definition renamed : UseFormComponent.FormComponent tree :=
  UseFormComponent.mkFormComponent
    [Obj [("name", VStr "Bob")]; Obj [("profile", VRef 2)];
     Obj [("name", VStr "Eve")]; Obj [("profile", VRef 2)]] (VRef 3)
    UseFormComponent.parsing None false None false false [] [].

(** [const a = {}; a.self = a]: an object that holds itself. *)
Definition selfref : heap := [Obj [("self", VRef 0)]].

(** The rule of [safeParse] as a function of the value of the data. *)
Definition parse_value (c : completion tree) : SafeParseReturnType tree :=
  match c with
  | Normal (TObj props) =>
      match List.find (fun kt => String.eqb (fst kt) "name") props with
      | Some (_, TStr s) =>
          if String.eqb s "" then SafeParseError name_required
          else SafeParseSuccess (TObj [("name", TStr s)])
      | _ => SafeParseError name_missing
      end
  | _ => SafeParseError not_an_object
  end.

Definition safeParse_value (h : heap) (v : val) : SafeParseReturnType tree :=
  parse_value (value_of h v).

End Demo.

(** * Facts about the object store and the JSON built-ins *)

Module JSFacts.
Import JS Caller.

(** ** Induction on trees, and the completions *)

Lemma tree_ind' (P : tree -> Prop) :
  P TUndefined -> P TNull -> (forall b, P (TBool b)) -> (forall n, P (TNum n)) ->
  P TNaN -> (forall s, P (TStr s)) -> (forall s, P (TDate s)) ->
  (forall ps, Forall (fun kt => P (snd kt)) ps -> P (TObj ps)) ->
  (forall ts, Forall P ts -> P (TArr ts)) ->
  forall t, P t.
Proof.
  intros H1 H2 H3 H4 H5 H6 H7 HO HA.
  fix IH 1. intros [| |b|n| |s|s|ps|ts];
    [exact H1 | exact H2 | apply H3 | apply H4 | exact H5 | apply H6 | apply H7 | | ].
  - apply HO. induction ps as [|[k t] ps IHps]; constructor; [apply IH | exact IHps].
  - apply HA. induction ts as [|t ts IHts]; constructor; [apply IH | exact IHts].
Qed.

Lemma bind_Normal {A B} (c : completion A) (k : A -> completion B) b :
  bind c k = Normal b <-> exists a, c = Normal a /\ k a = Normal b.
Proof.
  destruct c; simpl; split; try (intros (? & ? & ?)); try discriminate; eauto.
  congruence.
Qed.

Lemma bind_ret_Throw {A B} (c : completion A) (f : A -> B) e :
  bind c (fun a => Normal (f a)) = Throw e <-> c = Throw e.
Proof. destruct c; simpl; split; congruence. Qed.

Lemma bind_ret_Normal {A B} (c : completion A) (f : A -> B) :
  (exists b, bind c (fun a => Normal (f a)) = Normal b) <-> exists a, c = Normal a.
Proof. destruct c; simpl; split; intros [? ?]; eauto; congruence. Qed.

Lemma mapM_Normal {A B} (f : A -> completion B) l ys :
  mapM f l = Normal ys <-> Forall2 (fun x y => f x = Normal y) l ys.
Proof.
  revert ys. induction l as [|x l IH]; intros ys; simpl.
  - split; [intros [= <-]; constructor | inversion 1; reflexivity].
  - rewrite bind_Normal. split.
    + intros (y & Hy & H). apply bind_Normal in H as (ys' & Hys & [= <-]).
      constructor; [done | by apply IH].
    + inversion 1 as [|? y ? ys' Hy Hys]; subst. exists y. split; [done|].
      apply bind_Normal. exists ys'. split; [by apply IH | done].
Qed.

(** ** The walk: more fuel and a larger heap keep its result *)

Lemma unfold_prim fuel h stack v :
  (forall l, v <> VRef l) -> unfold fuel h stack v = Normal (prim_tree v).
Proof. intros Hv. destruct fuel, v; try reflexivity; by destruct (Hv l). Qed.

Lemma unfold_ref fuel h stack l :
  unfold fuel h stack (VRef l) =
  if decide (l ∈ stack) then Throw (TypeError "cyclic object value")
  else match fuel with
       | O => Stuck
       | S fuel' =>
           match h !! l with
           | None => Stuck
           | Some (Obj ps) =>
               bind (mapM (fun kv => bind (unfold fuel' h (l :: stack) (snd kv))
                                         (fun t => Normal (fst kv, t))) ps)
                    (fun props => Normal (TObj props))
           | Some (Arr vs) =>
               bind (mapM (unfold fuel' h (l :: stack)) vs)
                    (fun ts => Normal (TArr ts))
           end
       end.
Proof. destruct fuel; reflexivity. Qed.

Lemma unfold_weaken fuel : forall fuel' h h' stack v t,
  unfold fuel h stack v = Normal t ->
  fuel <= fuel' ->
  (forall l o, h !! l = Some o -> h' !! l = Some o) ->
  unfold fuel' h' stack v = Normal t.
Proof.
  induction fuel as [|fuel IH]; intros fuel' h h' stack v t Hu Hle Hh.
  - destruct v; try (rewrite unfold_prim in Hu |- * by congruence; done).
    rewrite unfold_ref in Hu. by destruct (decide _).
  - destruct v; try (rewrite unfold_prim in Hu |- * by congruence; done).
    rewrite unfold_ref in Hu. rewrite unfold_ref.
    destruct (decide (l ∈ stack)); [done|].
    destruct fuel' as [|fuel']; [lia|].
    destruct (h !! l) as [o|] eqn:Hl; [|done].
    rewrite (Hh _ _ Hl). destruct o as [ps|vs].
    + apply bind_Normal in Hu as (props & Hm & Hr). apply bind_Normal.
      exists props. split; [|done]. apply mapM_Normal. apply mapM_Normal in Hm.
      eapply Forall2_impl; [exact Hm|]. intros kv kt Hk. cbv beta in *.
      apply bind_Normal in Hk as (t' & Ht' & Hr'). apply bind_Normal.
      exists t'. split; [|done]. eapply IH; eauto. lia.
    + apply bind_Normal in Hu as (ts & Hm & Hr). apply bind_Normal.
      exists ts. split; [|done]. apply mapM_Normal. apply mapM_Normal in Hm.
      eapply Forall2_impl; [exact Hm|]. intros x y Hk. cbv beta in *.
      eapply IH; eauto. lia.
Qed.

(** ** [alloc]: what it adds to the heap *)

Lemma alloc_TObj ps h :
  alloc (TObj ps) h =
  let '(h1, props) := alloc_props ps h [] in (h1 ++ [Obj props], VRef (length h1)).
Proof. reflexivity. Qed.

Lemma alloc_TArr ts h :
  alloc (TArr ts) h =
  let '(h1, vs) := alloc_elems ts h [] in (h1 ++ [Arr vs], VRef (length h1)).
Proof. reflexivity. Qed.

Lemma val_in_mono lo hi lo' hi' v :
  val_in lo hi v -> lo' <= lo -> hi <= hi' -> val_in lo' hi' v.
Proof. destruct v; simpl; auto. lia. Qed.

Lemma obj_in_mono lo hi lo' hi' o :
  obj_in lo hi o -> lo' <= lo -> hi <= hi' -> obj_in lo' hi' o.
Proof.
  intros Ho ? ?. destruct o; simpl in *.
  - destruct Ho as [? Ho]. split; [done|]. eapply Forall_impl; [exact Ho|].
    intros; by eapply val_in_mono.
  - eapply Forall_impl; [exact Ho|]. intros; by eapply val_in_mono.
Qed.

Lemma set_prop_keys k v ps :
  map fst (set_prop k v ps) =
  if decide (k ∈ map fst ps) then map fst ps else map fst ps ++ [k].
Proof.
  induction ps as [|[k' v'] ps IH]; simpl; [done|].
  destruct (String.eqb_spec k k') as [->|Hne]; simpl.
  - rewrite decide_True by (apply elem_of_cons; by left). done.
  - rewrite IH. destruct (decide (k ∈ map fst ps)).
    + rewrite decide_True by (apply elem_of_cons; by right). done.
    + rewrite decide_False; [done|]. rewrite elem_of_cons. intros [?|?]; done.
Qed.

Lemma set_prop_NoDup k v ps : NoDup (map fst ps) -> NoDup (map fst (set_prop k v ps)).
Proof.
  intros Hnd. rewrite set_prop_keys. destruct (decide _); [done|].
  apply NoDup_app. split; [done|]. split; [|apply NoDup_singleton].
  intros x Hx Hk. apply list_elem_of_singleton in Hk. by subst.
Qed.

Lemma set_prop_vals (P : val -> Prop) k v ps :
  P v -> Forall P (map snd ps) -> Forall P (map snd (set_prop k v ps)).
Proof.
  intros Hv. induction ps as [|[k' v'] ps IH]; simpl; intros Hps.
  - by constructor.
  - inversion Hps; subst. destruct (String.eqb k k'); simpl; constructor; auto.
Qed.

Lemma set_prop_fresh k v ps :
  k ∉ map fst ps -> set_prop k v ps = ps ++ [(k, v)].
Proof.
  induction ps as [|[k' v'] ps IH]; simpl; intros Hk; [done|].
  apply not_elem_of_cons in Hk as [Hne Hk].
  destruct (String.eqb_spec k k') as [->|_]; [done|].
  by rewrite IH.
Qed.

Lemma alloc_props_ext ps :
  Forall (fun kt => forall h h' v, alloc (snd kt) h = (h', v) -> alloc_post (snd kt) h h' v) ps ->
  forall h acc h1 props, alloc_props ps h acc = (h1, props) ->
  exists ext, h1 = h ++ ext /\
    (forall i o, ext !! i = Some o -> obj_in (length h) (length h + i) o) /\
    (NoDup (map fst acc) -> NoDup (map fst props)) /\
    (forall lo, lo <= length h -> Forall (val_in lo (length h)) (map snd acc) ->
                Forall (val_in lo (length h1)) (map snd props)) /\
    list_max (map (fun kt => depth (snd kt)) ps) <= length ext.
Proof.
  induction 1 as [|[k t] ps Ht _ IH]; intros h acc h1 props Ha; simpl in Ha.
  - injection Ha as <- <-. exists []. rewrite app_nil_r. simpl.
    split_and!; auto with lia. intros i o Hi. by rewrite lookup_nil in Hi.
  - destruct (alloc t h) as [h' v] eqn:Hat. simpl in Ht.
    destruct (Ht _ _ _ Hat) as (ext1 & -> & Hv & Hext1 & Hd1).
    destruct (IH _ _ _ _ Ha) as (ext2 & -> & Hext2 & Hnd & Hvals & Hd2).
    exists (ext1 ++ ext2). rewrite !length_app in *. split_and!.
    + by rewrite app_assoc.
    + intros i o Hi. apply lookup_app_Some in Hi as [Hi|[Hle Hi]]; [by apply Hext1|].
      eapply obj_in_mono; [apply (Hext2 _ _ Hi)|lia|lia].
    + intros Hacc. apply Hnd. by apply set_prop_NoDup.
    + intros lo Hlo Hacc.
      apply Hvals; [lia|].
      apply set_prop_vals; [eapply val_in_mono; [exact Hv|lia|lia]|].
      eapply Forall_impl; [exact Hacc|]. intros x Hx. eapply val_in_mono; [exact Hx|lia|lia].
    + simpl. lia.
Qed.

Lemma alloc_elems_ext ts :
  Forall (fun t => forall h h' v, alloc t h = (h', v) -> alloc_post t h h' v) ts ->
  forall h acc h1 vs, alloc_elems ts h acc = (h1, vs) ->
  exists ext, h1 = h ++ ext /\
    (forall i o, ext !! i = Some o -> obj_in (length h) (length h + i) o) /\
    (forall lo, lo <= length h -> Forall (val_in lo (length h)) acc ->
                Forall (val_in lo (length h1)) vs) /\
    list_max (map depth ts) <= length ext.
Proof.
  induction 1 as [|t ts Ht _ IH]; intros h acc h1 vs Ha; simpl in Ha.
  - injection Ha as <- <-. exists []. rewrite app_nil_r. simpl.
    split_and!; auto with lia. intros i o Hi. by rewrite lookup_nil in Hi.
  - destruct (alloc t h) as [h' v] eqn:Hat.
    destruct (Ht _ _ _ Hat) as (ext1 & -> & Hv & Hext1 & Hd1).
    destruct (IH _ _ _ _ Ha) as (ext2 & -> & Hext2 & Hvals & Hd2).
    exists (ext1 ++ ext2). rewrite !length_app in *. split_and!.
    + by rewrite app_assoc.
    + intros i o Hi. apply lookup_app_Some in Hi as [Hi|[Hle Hi]]; [by apply Hext1|].
      eapply obj_in_mono; [apply (Hext2 _ _ Hi)|lia|lia].
    + intros lo Hlo Hacc.
      apply Hvals; [lia|].
      apply Forall_app. split.
      * eapply Forall_impl; [exact Hacc|]. intros x Hx. eapply val_in_mono; [exact Hx|lia|lia].
      * constructor; [|constructor]. eapply val_in_mono; [exact Hv|lia|lia].
    + simpl. lia.
Qed.

Lemma alloc_ext t : forall h h' v, alloc t h = (h', v) -> alloc_post t h h' v.
Proof.
  induction t as [| | | | | | |ps IH|ts IH] using tree_ind'; intros h h' v Ha;
    try (injection Ha as <- <-; exists []; rewrite app_nil_r; simpl;
         split_and!; auto with lia; intros i o Hi; by rewrite lookup_nil in Hi).
  - rewrite alloc_TObj in Ha. destruct (alloc_props ps h []) as [h1 props] eqn:Hp.
    injection Ha as <- <-.
    destruct (alloc_props_ext ps IH _ _ _ _ Hp) as (ext & -> & Hext & Hnd & Hvals & Hd).
    exists (ext ++ [Obj props]). rewrite !length_app. simpl.
    split; [|split; [|split]].
    + by rewrite app_assoc.
    + lia.
    + intros i o Hi. apply lookup_app_Some in Hi as [Hi|[Hle Hi]]; [by apply Hext|].
      apply list_lookup_singleton_Some in Hi as [Hi <-]. simpl. split.
      * apply Hnd. constructor.
      * eapply Forall_impl; [apply (Hvals (length h)); [lia|constructor]|].
        intros x Hx. rewrite length_app in Hx. eapply val_in_mono; [exact Hx|lia|lia].
    + lia.
  - rewrite alloc_TArr in Ha. destruct (alloc_elems ts h []) as [h1 vs] eqn:Hp.
    injection Ha as <- <-.
    destruct (alloc_elems_ext ts IH _ _ _ _ Hp) as (ext & -> & Hext & Hvals & Hd).
    exists (ext ++ [Arr vs]). rewrite !length_app. simpl.
    split; [|split; [|split]].
    + by rewrite app_assoc.
    + lia.
    + intros i o Hi. apply lookup_app_Some in Hi as [Hi|[Hle Hi]]; [by apply Hext|].
      apply list_lookup_singleton_Some in Hi as [Hi <-]. simpl.
      eapply Forall_impl; [apply (Hvals (length h)); [lia|constructor]|].
      intros x Hx. rewrite length_app in Hx. eapply val_in_mono; [exact Hx|lia|lia].
    + lia.
Qed.

(** ** [alloc], then the walk: the tree is read back *)

Lemma sub_heap_app h ext : sub_heap h (h ++ ext).
Proof. intros l o Hl. by apply lookup_app_l_Some. Qed.

Lemma sub_heap_trans h1 h2 h3 : sub_heap h1 h2 -> sub_heap h2 h3 -> sub_heap h1 h3.
Proof. intros H1 H2 l o Hl. auto. Qed.

Lemma alloc_props_app ps h acc h1 props :
  alloc_props ps h acc = (h1, props) -> exists ext, h1 = h ++ ext.
Proof.
  intros Ha. destruct (alloc_props_ext ps) with (2 := Ha) as (ext & ? & _); [|eauto].
  apply Forall_forall. intros kt _ h0 h' v. apply alloc_ext.
Qed.

Lemma alloc_elems_app ts h acc h1 vs :
  alloc_elems ts h acc = (h1, vs) -> exists ext, h1 = h ++ ext.
Proof.
  intros Ha. destruct (alloc_elems_ext ts) with (2 := Ha) as (ext & ? & _); [|eauto].
  apply Forall_forall. intros kt _ h0 h' v. apply alloc_ext.
Qed.

Lemma alloc_props_unfold ps :
  Forall (fun kt => forall h h' v, distinct_keys (snd kt) = true ->
                     alloc (snd kt) h = (h', v) -> alloc_reads (snd kt) h h' v) ps ->
  forall h acc h1 props,
    NoDup (map fst acc ++ map fst ps) ->
    forallb (fun kt => distinct_keys (snd kt)) ps = true ->
    alloc_props ps h acc = (h1, props) ->
    exists kvs, props = acc ++ kvs /\
      Forall2 (fun kv kt => fst kv = fst kt /\ alloc_reads (snd kt) h h1 (snd kv)) kvs ps.
Proof.
  induction 1 as [|[k t] ps Ht _ IH]; intros h acc h1 props Hnd Hdk Ha; simpl in Ha.
  - injection Ha as <- <-. exists []. rewrite app_nil_r. split; [done|constructor].
  - destruct (alloc t h) as [h' v] eqn:Hat. simpl in *.
    apply andb_true_iff in Hdk as [Hdt Hdk].
    destruct (alloc_ext _ _ _ _ Hat) as (ext1 & -> & _).
    assert (Hk : k ∉ map fst acc).
    { apply NoDup_app in Hnd as (_ & Hnd & _). intros Hk. apply (Hnd k Hk). left. }
    rewrite set_prop_fresh in Ha by done.
    destruct (alloc_props_app _ _ _ _ _ Ha) as [ext2 Hh1].
    destruct (IH (h ++ ext1) (acc ++ [(k, v)]) h1 props) as (kvs & -> & Hkvs).
    { rewrite map_app. simpl. by rewrite <- app_assoc. }
    { done. }
    { done. }
    exists ((k, v) :: kvs). split; [by rewrite <- app_assoc|].
    constructor.
    + split; [done|]. simpl. intros fuel stack h'' Hf Hst Hsub.
      eapply (Ht _ _ _ Hdt Hat); [done| |].
      * intros l Hl. destruct (Hst l Hl) as [?|?]; [by left|right].
        subst h1. rewrite !length_app in *. lia.
      * subst h1. eapply sub_heap_trans; [apply sub_heap_app|done].
    + eapply Forall2_impl; [exact Hkvs|]. intros kv kt [? Hr]. split; [done|].
      intros fuel stack h'' Hf Hst Hsub. apply Hr; [done| |done].
      intros l Hl. destruct (Hst l Hl) as [?|?]; [left|by right].
      rewrite length_app. lia.
Qed.

Lemma alloc_elems_unfold ts :
  Forall (fun t => forall h h' v, distinct_keys t = true ->
                    alloc t h = (h', v) -> alloc_reads t h h' v) ts ->
  forall h acc h1 vs,
    forallb distinct_keys ts = true ->
    alloc_elems ts h acc = (h1, vs) ->
    exists ws, vs = acc ++ ws /\
      Forall2 (fun w t => alloc_reads t h h1 w) ws ts.
Proof.
  induction 1 as [|t ts Ht _ IH]; intros h acc h1 vs Hdk Ha; simpl in Ha.
  - injection Ha as <- <-. exists []. rewrite app_nil_r. split; [done|constructor].
  - destruct (alloc t h) as [h' v] eqn:Hat. simpl in *.
    apply andb_true_iff in Hdk as [Hdt Hdk].
    destruct (alloc_ext _ _ _ _ Hat) as (ext1 & -> & _).
    destruct (alloc_elems_app _ _ _ _ _ Ha) as [ext2 Hh1].
    destruct (IH (h ++ ext1) (acc ++ [v]) h1 vs) as (ws & -> & Hws); [done|done|].
    exists (v :: ws). split; [by rewrite <- app_assoc|].
    constructor.
    + intros fuel stack h'' Hf Hst Hsub.
      eapply (Ht _ _ _ Hdt Hat); [done| |].
      * intros l Hl. destruct (Hst l Hl) as [?|?]; [by left|right].
        subst h1. rewrite !length_app in *. lia.
      * subst h1. eapply sub_heap_trans; [apply sub_heap_app|done].
    + eapply Forall2_impl; [exact Hws|]. intros w t' Hr.
      intros fuel stack h'' Hf Hst Hsub. apply Hr; [done| |done].
      intros l Hl. destruct (Hst l Hl) as [?|?]; [left|by right].
      rewrite length_app. lia.
Qed.

Lemma list_max_elem (l : list nat) x : x ∈ l -> x <= list_max l.
Proof.
  intros Hx. assert (H := proj1 (list_max_le l (list_max l)) (le_n _)).
  rewrite List.Forall_forall in H. apply H. by apply list_elem_of_In.
Qed.

Lemma Forall2_with_r {A B} (P : A -> B -> Prop) (Q : B -> Prop) l k :
  Forall2 P l k -> Forall Q k -> Forall2 (fun x y => P x y /\ Q y) l k.
Proof.
  induction 1; intros HQ; inversion HQ; subst; constructor; auto.
Qed.

Lemma depth_children_le (f : nat) (ds : list nat) :
  S (list_max ds) <= S f -> Forall (fun d => d <= f) ds.
Proof. intros H. apply list_max_le. lia. Qed.

Lemma alloc_unfold t :
  forall h h' v, distinct_keys t = true -> alloc t h = (h', v) -> alloc_reads t h h' v.
Proof.
  induction t as [| | | | | | |ps IH|ts IH] using tree_ind'; intros h h' v Hdk Ha;
    try (injection Ha as <- <-; intros fuel stack h'' _ _ _; by destruct fuel).
  - rewrite alloc_TObj in Ha. destruct (alloc_props ps h []) as [h1 props] eqn:Hp.
    injection Ha as <- <-. simpl in Hdk. apply andb_true_iff in Hdk as [Hnd Hdk].
    apply bool_decide_eq_true in Hnd.
    destruct (alloc_props_unfold ps IH h [] h1 props Hnd Hdk Hp) as (kvs & -> & Hkvs).
    destruct (alloc_props_app _ _ _ _ _ Hp) as [ext ->].
    intros fuel stack h'' Hf Hst Hsub. rewrite unfold_ref.
    rewrite decide_False.
    2:{ intros Hl. destruct (Hst _ Hl) as [?|?]; rewrite !length_app in *; simpl in *; lia. }
    destruct fuel as [|fuel]; [simpl in Hf; lia|].
    rewrite (Hsub (length (h ++ ext)) (Obj ([] ++ kvs))).
    2:{ by rewrite lookup_app_r, Nat.sub_diag. }
    simpl. apply bind_Normal. exists ps. split; [|done]. apply mapM_Normal.
    simpl in Hf. apply depth_children_le in Hf. rewrite Forall_map in Hf.
    eapply Forall2_impl; [exact (Forall2_with_r _ _ _ _ Hkvs Hf)|].
    intros kv kt [[Hk Hr] Hd]. cbv beta in *.
    apply bind_Normal. exists (snd kt). split.
    + apply Hr; [done| |].
      * intros l Hl. apply elem_of_cons in Hl as [->|Hl]; [right; lia|].
        destruct (Hst _ Hl) as [?|?]; [by left|right]. rewrite !length_app in *. lia.
      * eapply sub_heap_trans; [apply sub_heap_app|done].
    + rewrite Hk. by destruct kt.
  - rewrite alloc_TArr in Ha. destruct (alloc_elems ts h []) as [h1 vs] eqn:Hp.
    injection Ha as <- <-. simpl in Hdk.
    destruct (alloc_elems_unfold ts IH h [] h1 vs Hdk Hp) as (ws & -> & Hws).
    destruct (alloc_elems_app _ _ _ _ _ Hp) as [ext ->].
    intros fuel stack h'' Hf Hst Hsub. rewrite unfold_ref.
    rewrite decide_False.
    2:{ intros Hl. destruct (Hst _ Hl) as [?|?]; rewrite !length_app in *; simpl in *; lia. }
    destruct fuel as [|fuel]; [simpl in Hf; lia|].
    rewrite (Hsub (length (h ++ ext)) (Arr ([] ++ ws))).
    2:{ by rewrite lookup_app_r, Nat.sub_diag. }
    simpl. apply bind_Normal. exists ts. split; [|done]. apply mapM_Normal.
    simpl in Hf. apply depth_children_le in Hf. rewrite Forall_map in Hf.
    eapply Forall2_impl; [exact (Forall2_with_r _ _ _ _ Hws Hf)|].
    intros w t [Hr Hd]. cbv beta in *.
    apply Hr; [done| |].
    + intros l Hl. apply elem_of_cons in Hl as [->|Hl]; [right; lia|].
      destruct (Hst _ Hl) as [?|?]; [by left|right]. rewrite !length_app in *. lia.
    + eapply sub_heap_trans; [apply sub_heap_app|done].
Qed.

(** ** Distinct property names, and [deepClone] *)

Lemma Forall2_fst_eq {A B C} (l : list (A * B)) (k : list (A * C)) :
  Forall2 (fun x y => fst x = fst y) l k -> map fst l = map fst k.
Proof. induction 1; simpl; congruence. Qed.

Lemma Forall2_in_r {A B} (P : A -> B -> Prop) l k y :
  Forall2 P l k -> y ∈ k -> exists x, x ∈ l /\ P x y.
Proof.
  induction 1 as [|x y' l k Hxy _ IH]; intros Hy.
  - by apply elem_of_nil in Hy.
  - apply elem_of_cons in Hy as [->|Hy].
    + exists x. split; [apply elem_of_cons; by left|done].
    + destruct (IH Hy) as (x' & ? & ?). exists x'. split; [apply elem_of_cons; by right|done].
Qed.

Lemma unfold_distinct_keys fuel : forall h stack v t,
  heap_distinct h -> unfold fuel h stack v = Normal t -> distinct_keys t = true.
Proof.
  induction fuel as [|fuel IH]; intros h stack v t Hh Hu.
  - destruct v; try (rewrite unfold_prim in Hu by congruence; by injection Hu as <-).
    rewrite unfold_ref in Hu. by destruct (decide _).
  - destruct v; try (rewrite unfold_prim in Hu by congruence; by injection Hu as <-).
    rewrite unfold_ref in Hu. destruct (decide _); [done|].
    destruct (h !! l) as [[ps|vs]|] eqn:Hl; [| |done].
    + apply bind_Normal in Hu as (props & Hm & [= <-]). apply mapM_Normal in Hm.
      simpl. apply andb_true_iff. split.
      * apply bool_decide_eq_true. rewrite <- (Forall2_fst_eq ps props); [by eapply Hh|].
        eapply Forall2_impl; [exact Hm|]. intros kv kt Hk. cbv beta in Hk.
        apply bind_Normal in Hk as (t' & _ & [= <-]). done.
      * apply forallb_forall. intros kt Hin. apply list_elem_of_In in Hin.
        destruct (Forall2_in_r _ _ _ _ Hm Hin) as (kv & _ & Hk). cbv beta in Hk.
        apply bind_Normal in Hk as (t' & Ht' & [= <-]). simpl. by eapply IH.
    + apply bind_Normal in Hu as (ts & Hm & [= <-]). apply mapM_Normal in Hm.
      simpl. apply forallb_forall. intros t' Hin. apply list_elem_of_In in Hin.
      destruct (Forall2_in_r _ _ _ _ Hm Hin) as (v' & _ & Hk). by eapply IH.
Qed.

Lemma flat_map_keys_NoDup {A B} (f : A -> option B) (ps : list (string * A)) :
  NoDup (map fst ps) ->
  NoDup (map fst (flat_map (fun kt => match f (snd kt) with
                                      | Some j => [(fst kt, j)]
                                      | None => []
                                      end) ps)).
Proof.
  induction ps as [|[k a] ps IH]; simpl; [done|]. intros Hnd.
  apply NoDup_cons in Hnd as [Hk Hnd'].
  destruct (f a); simpl; [|by apply IH]. apply NoDup_cons. split; [|by apply IH].
  intros Hin. apply Hk. clear -Hin. induction ps as [|[k' a'] ps IH]; simpl in *; [done|].
  apply elem_of_cons. destruct (f a'); simpl in *; [|by right; apply IH].
  apply elem_of_cons in Hin as [?|?]; [by left|right; by apply IH].
Qed.

Lemma to_json_distinct_keys t :
  forall j, distinct_keys t = true -> to_json t = Some j -> distinct_keys j = true.
Proof.
  induction t as [| | | | | | |ps IH|ts IH] using tree_ind'; intros j Hd Hj;
    simpl in Hj; try (injection Hj as <-; done); try done.
  - injection Hj as <-. simpl in *. apply andb_true_iff in Hd as [Hnd Hd].
    apply bool_decide_eq_true in Hnd. apply andb_true_iff. split.
    + apply bool_decide_eq_true. by apply flat_map_keys_NoDup.
    + apply forallb_forall. intros [k j] Hin. apply in_flat_map in Hin as ([k' t] & Hin & Hj).
      simpl in *. destruct (to_json t) as [j'|] eqn:Ht; [|done].
      destruct Hj as [[= <- <-]|[]].
      rewrite List.Forall_forall in IH. apply (IH _ Hin); [|done].
      rewrite forallb_forall in Hd. apply (Hd _ Hin).
  - injection Hj as <-. simpl in *. apply forallb_forall. intros j Hin.
    apply in_map_iff in Hin as (t & Hj & Hin).
    rewrite List.Forall_forall in IH. rewrite forallb_forall in Hd.
    destruct (to_json t) as [j'|] eqn:Ht; subst; [|done].
    apply (IH _ Hin); [by apply Hd|done].
Qed.

Lemma wf_heap_distinct h : wf_heap h = true -> heap_distinct h.
Proof.
  intros Hwf l ps Hl. unfold wf_heap in Hwf. rewrite forallb_forall in Hwf.
  apply list_elem_of_lookup_2, list_elem_of_In in Hl. apply Hwf in Hl. simpl in Hl.
  apply andb_true_iff in Hl as [Hl _]. by apply bool_decide_eq_true in Hl.
Qed.

(** [deepClone] of a value that reads as [t] and serialises to [j]. *)
Lemma deepClone_spec h v t j :
  distinct_keys t = true -> value_of h v = Normal t -> to_json t = Some j ->
  exists h' v', UseForm.deepClone h v = Normal (h', v') /\ alloc j h = (h', v') /\
    alloc_post j h h' v' /\ value_of h' v' = Normal j.
Proof.
  intros Hh Hv Hj. destruct (alloc j h) as [h' v'] eqn:Ha. exists h', v'.
  assert (Hpost := alloc_ext _ _ _ _ Ha).
  split; [|split; [done|split; [done|]]].
  - unfold UseForm.deepClone, JSON_stringify. rewrite Hv. simpl. rewrite Hj. simpl. by rewrite Ha.
  - unfold value_of. eapply alloc_unfold; [| exact Ha | | | ].
    + by eapply to_json_distinct_keys.
    + destruct Hpost as (ext & -> & _ & _ & Hd). rewrite length_app. lia.
    + intros l Hl. by apply elem_of_nil in Hl.
    + by intros l o.
Qed.

(** ** Ownership: what the caller's assignments can reach *)

Lemma reach_owned n0 h v l :
  closed_above n0 h -> owned n0 v -> reach h v l -> n0 <= l.
Proof.
  intros Hc Hv Hr. induction Hr as [l|l0 o v l Hl Hin _ IH]; [done|].
  apply IH. specialize (Hc _ _ Hv Hl). rewrite List.Forall_forall in Hc. by apply Hc.
Qed.

Lemma obj_set_vals (P : val -> Prop) o k v o' :
  obj_set o k v = Some o' -> Forall P (obj_vals o) -> P v -> Forall P (obj_vals o').
Proof.
  destruct o as [ps|vs], k as [s|i]; simpl; try done.
  - intros [= <-] Hps Hv. simpl. by apply set_prop_vals.
  - intros Hs Hvs Hv. repeat case_decide; try done; injection Hs as <-; simpl.
    + by apply Forall_insert.
    + apply Forall_app. split; [done|]. by constructor.
Qed.

Lemma val_in_owned n0 lo hi v : val_in lo hi v -> n0 <= lo -> owned n0 v.
Proof. destruct v; simpl; auto. lia. Qed.

Lemma alloc_closed n0 t h h' v :
  alloc t h = (h', v) -> n0 <= length h -> closed_above n0 h ->
  (exists ext, h' = h ++ ext) /\ closed_above n0 h' /\ owned n0 v.
Proof.
  intros Ha Hn Hc. destruct (alloc_ext _ _ _ _ Ha) as (ext & -> & Hv & Hext & _).
  split; [eauto|]. split; [|by eapply val_in_owned].
  intros l o Hl Ho. apply lookup_app_Some in Ho as [Ho|[Hle Ho]]; [by eapply Hc|].
  specialize (Hext _ _ Ho). destruct o as [ps|vs]; simpl in *.
  - destruct Hext as [_ Hext]. eapply Forall_impl; [exact Hext|].
    intros x Hx. by eapply val_in_owned.
  - eapply Forall_impl; [exact Hext|]. intros x Hx. by eapply val_in_owned.
Qed.

Lemma eval_rhs_closed n0 h root e h' v :
  eval_rhs h e = (h', v) -> n0 <= length h -> closed_above n0 h -> owned n0 root ->
  rhs_ok h root e ->
  (exists ext, h' = h ++ ext) /\ closed_above n0 h' /\ owned n0 v.
Proof.
  intros He Hn Hc Hroot Hok. destruct e as [t|v0]; simpl in He.
  - by eapply alloc_closed.
  - injection He as <- <-. split; [exists []; by rewrite app_nil_r|]. split; [done|].
    destruct v0; simpl in *; auto. exact (reach_owned _ _ _ _ Hc Hroot Hok).
Qed.

Lemma reach_app h ext v l : reach h v l -> reach (h ++ ext) v l.
Proof.
  induction 1 as [l|l0 o v l Hl Hin _ IH]; [constructor|].
  econstructor; [by apply lookup_app_l_Some|done|done].
Qed.

Lemma write_closed n0 h root l k e h' changed :
  write h l k e = Some (h', changed) -> n0 <= length h -> closed_above n0 h ->
  owned n0 root -> reach h root l -> rhs_ok h root e ->
  (forall h0 new, h = h0 ++ new -> length h0 = n0 -> exists new', h' = h0 ++ new') /\
  closed_above n0 h'.
Proof.
  unfold write. intros Hw Hn Hc Hroot Hr Hok.
  destruct (eval_rhs h e) as [h1 v] eqn:He.
  destruct (eval_rhs_closed _ _ _ _ _ _ He Hn Hc Hroot Hok) as ([ext ->] & Hc1 & Hv).
  assert (Hl : n0 <= l) by exact (reach_owned _ _ _ _ Hc Hroot Hr).
  destruct ((h ++ ext) !! l) as [o|] eqn:Ho; [|done].
  destruct (obj_set o k v) as [o'|] eqn:Hs; [|done]. injection Hw as <- <-.
  split.
  - intros h0 new -> Hlen. rewrite <- app_assoc.
    rewrite insert_app_r_alt by lia. eauto.
  - intros l' o'' Hl' Ho''. apply list_lookup_insert_Some in Ho'' as [(-> & -> & _)|[Hne Ho'']].
    + eapply obj_set_vals; [exact Hs| |done]. by eapply Hc1.
    + by eapply Hc1.
Qed.

Lemma deepClone_inv h v hv :
  UseForm.deepClone h v = Normal hv ->
  exists t j, value_of h v = Normal t /\ to_json t = Some j /\ alloc j h = hv.
Proof.
  unfold UseForm.deepClone, JSON_stringify. intros H.
  apply bind_Normal in H as (text & H1 & H2).
  apply bind_Normal in H1 as (t & Ht & [= <-]).
  destruct (to_json t) as [j|] eqn:Hj; [|done]. simpl in H2. injection H2 as <-.
  by exists t, j.
Qed.

Lemma value_of_app h ext v t : value_of h v = Normal t -> value_of (h ++ ext) v = Normal t.
Proof.
  unfold value_of. intros H. eapply unfold_weaken; [exact H| |apply sub_heap_app].
  rewrite length_app. lia.
Qed.

(** ** Reading and writing properties; [Object.assign] *)

Lemma get_set_prop_eq k v ps : get_prop k (set_prop k v ps) = Some v.
Proof.
  induction ps as [|[k' v'] ps IH]; simpl.
  - by rewrite String.eqb_refl.
  - destruct (String.eqb_spec k k') as [->|Hne]; simpl.
    + by rewrite String.eqb_refl.
    + by destruct (String.eqb_spec k k').
Qed.

Lemma get_set_prop_ne k k' v ps : k' <> k -> get_prop k' (set_prop k v ps) = get_prop k' ps.
Proof.
  intros Hne. induction ps as [|[k'' v''] ps IH]; simpl.
  - by destruct (String.eqb_spec k' k).
  - destruct (String.eqb_spec k k'') as [->|Hne']; simpl.
    + destruct (String.eqb_spec k' k''); [done|done].
    + by rewrite IH.
Qed.

Lemma set_prop_id k v ps : get_prop k ps = Some v -> set_prop k v ps = ps.
Proof.
  induction ps as [|[k' v'] ps IH]; simpl; [done|].
  destruct (String.eqb_spec k k') as [->|Hne]; [by intros [= ->]|].
  intros H. by rewrite IH.
Qed.

Lemma get_prop_None k ps : get_prop k ps = None <-> k ∉ map fst ps.
Proof.
  induction ps as [|[k' v'] ps IH]; simpl.
  - split; [intros _ H; by apply elem_of_nil in H|done].
  - rewrite not_elem_of_cons. destruct (String.eqb_spec k k') as [->|Hne].
    + split; [done|]. by intros [? _].
    + rewrite IH. tauto.
Qed.

Lemma get_prop_elem k v ps : NoDup (map fst ps) -> (k, v) ∈ ps -> get_prop k ps = Some v.
Proof.
  induction ps as [|[k' v'] ps IH]; simpl; intros Hnd Hin.
  - by apply elem_of_nil in Hin.
  - apply NoDup_cons in Hnd as [Hk Hnd]. apply elem_of_cons in Hin as [[= <- <-]|Hin].
    + by rewrite String.eqb_refl.
    + destruct (String.eqb_spec k k') as [->|Hne]; [|by apply IH].
      destruct Hk. apply list_elem_of_In, in_map_iff. exists (k', v). split; [done|].
      by apply list_elem_of_In.
Qed.

Lemma obj_set_get_eq o k v o' : obj_set o k v = Some o' -> obj_get o' k = Some v.
Proof.
  destruct o as [ps|vs], k as [s|i]; simpl; try done.
  - intros [= <-]. simpl. apply get_set_prop_eq.
  - intros H. repeat case_decide; try done; injection H as <-; simpl.
    + by apply list_lookup_insert_eq.
    + subst. by rewrite lookup_app_r, Nat.sub_diag.
Qed.

Lemma obj_set_get_ne o k v o' k' :
  obj_set o k v = Some o' -> k' <> k -> obj_get o' k' = obj_get o k'.
Proof.
  destruct o as [ps|vs], k as [s|i]; simpl; try done.
  - intros [= <-] Hne. destruct k' as [s'|i']; simpl; [|done].
    apply get_set_prop_ne. congruence.
  - intros H Hne. destruct k' as [s'|i']; simpl.
    + repeat case_decide; try done; by injection H as <-.
    + repeat case_decide; try done; injection H as <-; simpl.
      * apply list_lookup_insert_ne. congruence.
      * subst. destruct (decide (i' < length vs)).
        -- by rewrite lookup_app_l.
        -- rewrite lookup_ge_None_2 by (rewrite length_app; simpl; 
              assert (i' <> length vs) by congruence; lia).
           symmetry. apply lookup_ge_None_2. lia.
Qed.

Lemma obj_set_id o k v : obj_get o k = Some v -> obj_set o k v = Some o.
Proof.
  destruct o as [ps|vs], k as [s|i]; simpl; try done.
  - intros H. by rewrite set_prop_id.
  - intros H. rewrite decide_True by (by eapply lookup_lt_Some).
    by rewrite list_insert_id.
Qed.

Lemma assign_entries_get_ne es : forall o o' c k,
  assign_entries o es = Some (o', c) -> k ∉ map fst es -> obj_get o' k = obj_get o k.
Proof.
  induction es as [|[k0 v0] es IH]; simpl; intros o o' c k Ha Hk.
  - by injection Ha as <- <-.
  - apply not_elem_of_cons in Hk as [Hne Hk].
    destruct (obj_set o k0 v0) as [o1|] eqn:Hs; [|done].
    destruct (assign_entries o1 es) as [[o2 c2]|] eqn:Ha2; [|done].
    injection Ha as <- <-. rewrite (IH _ _ _ _ Ha2 Hk). by eapply obj_set_get_ne.
Qed.

Lemma assign_entries_get es : forall o o' c k v,
  NoDup (map fst es) -> assign_entries o es = Some (o', c) -> (k, v) ∈ es ->
  obj_get o' k = Some v.
Proof.
  induction es as [|[k0 v0] es IH]; simpl; intros o o' c k v Hnd Ha Hin.
  - by apply elem_of_nil in Hin.
  - apply NoDup_cons in Hnd as [Hk0 Hnd].
    destruct (obj_set o k0 v0) as [o1|] eqn:Hs; [|done].
    destruct (assign_entries o1 es) as [[o2 c2]|] eqn:Ha2; [|done].
    injection Ha as <- <-. apply elem_of_cons in Hin as [[= -> ->]|Hin].
    + rewrite (assign_entries_get_ne _ _ _ _ _ Ha2 Hk0). by eapply obj_set_get_eq.
    + by eapply IH.
Qed.

Lemma assign_entries_id es : forall o,
  (forall k v, (k, v) ∈ es -> obj_get o k = Some v) ->
  assign_entries o es = Some (o, false).
Proof.
  induction es as [|[k0 v0] es IH]; simpl; intros o H; [done|].
  assert (Hg : obj_get o k0 = Some v0) by (apply H, elem_of_cons; by left).
  rewrite (obj_set_id _ _ _ Hg). rewrite IH.
  - rewrite bool_decide_eq_false_2; [done|]. by intros [].
  - intros k v Hin. apply H, elem_of_cons. by right.
Qed.

Lemma assign_entries_vals (P : val -> Prop) es : forall o o' c,
  assign_entries o es = Some (o', c) -> Forall P (obj_vals o) -> Forall P (map snd es) ->
  Forall P (obj_vals o').
Proof.
  induction es as [|[k0 v0] es IH]; simpl; intros o o' c Ha Ho Hes.
  - by injection Ha as <- <-.
  - destruct (obj_set o k0 v0) as [o1|] eqn:Hs; [|done].
    destruct (assign_entries o1 es) as [[o2 c2]|] eqn:Ha2; [|done].
    injection Ha as <- <-. inversion Hes; subst.
    eapply IH; [exact Ha2| |done]. by eapply obj_set_vals.
Qed.

Lemma obj_set_kind o k v o' : obj_set o k v = Some o' -> same_kind o' o = true.
Proof.
  destruct o, k; simpl; try done.
  - by intros [= <-].
  - intros H. repeat case_decide; try done; by injection H as <-.
Qed.

Lemma same_kind_trans o1 o2 o3 :
  same_kind o1 o2 = true -> same_kind o2 o3 = true -> same_kind o1 o3 = true.
Proof. by destruct o1, o2, o3. Qed.

Lemma same_kind_sym o1 o2 : same_kind o1 o2 = same_kind o2 o1.
Proof. by destruct o1, o2. Qed.

Lemma assign_entries_kind es : forall o o' c,
  assign_entries o es = Some (o', c) -> same_kind o' o = true.
Proof.
  induction es as [|[k0 v0] es IH]; simpl; intros o o' c Ha.
  - injection Ha as <- <-. by destruct o.
  - destruct (obj_set o k0 v0) as [o1|] eqn:Hs; [|done].
    destruct (assign_entries o1 es) as [[o2 c2]|] eqn:Ha2; [|done].
    injection Ha as <- <-. eapply same_kind_trans; [by eapply IH|by eapply obj_set_kind].
Qed.

Lemma assign_props_Some qs : forall ps,
  is_Some (assign_entries (Obj ps) (map (fun kv => (KStr (fst kv), snd kv)) qs)).
Proof.
  induction qs as [|[k v] qs IH]; simpl; intros ps; [done|].
  destruct (IH (set_prop k v ps)) as [[o c] ->]. done.
Qed.

Lemma assign_elems_Some ws : forall n vs, n <= length vs ->
  is_Some (assign_entries (Arr vs) (imap (fun i v => (KIdx (n + i), v)) ws)).
Proof.
  induction ws as [|w ws IH]; intros n vs Hn; [done|].
  rewrite imap_cons. simpl. rewrite Nat.add_0_r.
  assert (Hext : imap ((fun i v => (KIdx (n + i), v)) ∘ S) ws
                 = imap (fun i v => (KIdx (S n + i), v)) ws).
  { apply imap_ext. intros i x _. simpl. f_equal. f_equal. lia. }
  rewrite Hext. case_decide.
  - destruct (IH (S n) (<[n:=w]> vs)) as [[o c] ->]; [rewrite length_insert; lia|done].
  - rewrite decide_True by lia.
    destruct (IH (S n) (vs ++ [w])) as [[o c] ->]; [rewrite length_app; simpl; lia|done].
Qed.

Lemma assign_entries_Some o src :
  same_kind o src = true -> is_Some (assign_entries o (entries src)).
Proof.
  destruct o as [ps|vs], src as [qs|ws]; simpl; try done; intros _.
  - apply assign_props_Some.
  - apply (assign_elems_Some ws 0 vs). lia.
Qed.

Lemma entries_vals o : map snd (entries o) = obj_vals o.
Proof.
  destruct o as [ps|vs]; simpl.
  - rewrite map_map. done.
  - assert (H : forall n, map snd (imap (fun i v => (KIdx (n + i), v)) vs) = vs).
    { induction vs as [|v vs IH]; intros n; [done|]. rewrite imap_cons. simpl. f_equal.
      rewrite <- (IH (S n)) at 2. f_equal. apply imap_ext. intros i x _. simpl.
      f_equal. f_equal. lia. }
    apply (H 0).
Qed.

Lemma entries_elem o k v : (k, v) ∈ entries o -> obj_distinct o -> obj_get o k = Some v.
Proof.
  destruct o as [ps|vs]; simpl; intros Hin Hnd.
  - apply list_elem_of_In, in_map_iff in Hin as ([k' v'] & [= <- <-] & Hin).
    simpl. apply get_prop_elem; [done|by apply list_elem_of_In].
  - apply list_elem_of_lookup in Hin as [i Hi]. rewrite list_lookup_imap in Hi.
    destruct (vs !! i) as [x|] eqn:Hx; [|done]. simpl in Hi. by injection Hi as <- <-.
Qed.

Lemma entries_keys o k : k ∈ map fst (entries o) -> is_Some (obj_get o k).
Proof.
  destruct o as [ps|vs]; simpl; intros Hin.
  - apply list_elem_of_In, in_map_iff in Hin as ([k' v'] & <- & Hin). simpl in *.
    apply in_map_iff in Hin as ([k v] & [= <- <-] & Hin). simpl.
    destruct (get_prop k ps) eqn:Hg; [done|]. apply get_prop_None in Hg. destruct Hg.
    apply list_elem_of_In, in_map_iff. by exists (k, v).
  - apply list_elem_of_In, in_map_iff in Hin as ([k' v'] & <- & Hin). simpl in *.
    apply list_elem_of_In, list_elem_of_lookup in Hin as [i Hi]. rewrite list_lookup_imap in Hi.
    destruct (vs !! i) as [x|] eqn:Hx; [|done]. simpl in Hi. injection Hi as <- <-.
    simpl. by rewrite Hx.
Qed.

Lemma NoDup_map_inj {A B} (f : A -> B) (l : list A) :
  (forall x y, f x = f y -> x = y) -> NoDup l -> NoDup (map f l).
Proof.
  intros Hf. induction 1 as [|x l Hx _ IH]; simpl; constructor; [|done].
  intros Hin. apply Hx. apply list_elem_of_In, in_map_iff in Hin as (y & Hy & Hin).
  apply Hf in Hy as ->. by apply list_elem_of_In.
Qed.

Lemma entries_NoDup o : obj_distinct o -> NoDup (map fst (entries o)).
Proof.
  destruct o as [ps|vs]; simpl; intros Hnd.
  - rewrite map_map. simpl. 
    assert (H : map (fun x : string * val => KStr (fst x)) ps = map KStr (map fst ps))
      by (by rewrite map_map).
    rewrite H. apply NoDup_map_inj; [|done]. by intros ? ? [=].
  - assert (H : forall n, map fst (imap (fun i v => (KIdx (n + i), v)) vs)
                          = map KIdx (seq n (length vs))).
    { induction vs as [|v vs IH]; intros n; [done|]. rewrite imap_cons. simpl.
      rewrite Nat.add_0_r. f_equal. rewrite <- (IH (S n)). f_equal. apply imap_ext.
      intros i x _. simpl. f_equal. f_equal. lia. }
    specialize (H 0). simpl in H. rewrite H.
    apply NoDup_map_inj; [by intros ? ? [=]|]. apply NoDup_ListNoDup, List.seq_NoDup.
Qed.

Lemma Object_assign_idem h target s src h1 c :
  target <> s -> h !! s = Some src -> obj_distinct src ->
  Object_assign h target (VRef s) = Some (h1, c) ->
  Object_assign h1 target (VRef s) = Some (h1, false).
Proof.
  intros Hne Hs Hnd Ha. unfold Object_assign in *. rewrite Hs in Ha.
  destruct (h !! target) as [o|] eqn:Ho; [|done].
  destruct (assign_entries o (entries src)) as [[o' c']|] eqn:Hae; [|done].
  injection Ha as <- <-.
  rewrite list_lookup_insert_eq by (by eapply lookup_lt_Some).
  rewrite list_lookup_insert_ne by done. rewrite Hs.
  rewrite (assign_entries_id (entries src) o').
  - by rewrite list_insert_insert_eq.
  - intros k v Hin. eapply assign_entries_get; [|exact Hae|done]. by apply entries_NoDup.
Qed.

(** ** The snapshot of [useFormComponent] stays private *)

(** After [Object.assign(target, source)] every property of the source has
    the source's value in the target; the source is as it was. *)
Lemma Object_assign_copies h target snap s src o h' c :
  snap = VRef s -> target <> s -> h !! target = Some o -> h !! s = Some src ->
  obj_distinct src -> Object_assign h target snap = Some (h', c) ->
  h' !! s = Some src /\
  exists o', h' !! target = Some o' /\
    forall k v, obj_get src k = Some v -> obj_get o' k = Some v.
Proof.
  intros -> Hne Ho Hs Hd Ha. unfold Object_assign in Ha. rewrite Ho, Hs in Ha.
  destruct (assign_entries o (entries src)) as [[o' c']|] eqn:He; [|done].
  injection Ha as <- <-. split; [by rewrite list_lookup_insert_ne|].
  exists o'. split; [rewrite list_lookup_insert_eq; [done|by eapply lookup_lt_Some]|].
  intros k v Hk. eapply assign_entries_get; [by apply entries_NoDup|exact He|].
  clear -Hk. destruct src as [ps|vs], k as [x|i]; simpl in *; try done.
  - induction ps as [|[k' v'] ps IH]; simpl in *; [done|].
    destruct (String.eqb x k') eqn:E.
    + apply String.eqb_eq in E as ->. injection Hk as ->. by apply elem_of_cons; left.
    + apply elem_of_cons; right. by apply IH.
  - apply list_elem_of_lookup. exists i. by rewrite list_lookup_imap, Hk.
Qed.

Lemma reach_private s h v l :
  (forall l o, h !! l = Some o -> Forall (fun v => v <> VRef s) (obj_vals o)) ->
  v <> VRef s -> reach h v l -> l <> s.
Proof.
  intros Hp Hv Hr. induction Hr as [l|l0 o v l Hl Hin _ IH]; [congruence|].
  apply IH. specialize (Hp _ _ Hl). rewrite List.Forall_forall in Hp. by apply Hp.
Qed.

Lemma alloc_private s t h h' v :
  alloc t h = (h', v) -> s < length h ->
  (forall l o, h !! l = Some o -> Forall (fun v => v <> VRef s) (obj_vals o)) ->
  (exists ext, h' = h ++ ext) /\ v <> VRef s /\
  (forall l o, h' !! l = Some o -> Forall (fun v => v <> VRef s) (obj_vals o)).
Proof.
  intros Ha Hs Hp. destruct (alloc_ext _ _ _ _ Ha) as (ext & -> & Hv & Hext & _).
  assert (Hin : forall lo hi x, val_in lo hi x -> length h <= lo -> x <> VRef s).
  { intros lo hi [] Hx Hlo; try done. simpl in Hx. intros [= ->]. lia. }
  split; [eauto|]. split; [by eapply Hin|].
  intros l o Ho. apply lookup_app_Some in Ho as [Ho|[Hle Ho]]; [by eapply Hp|].
  specialize (Hext _ _ Ho). destruct o as [ps|vs]; simpl in *.
  - destruct Hext as [_ Hext]. eapply Forall_impl; [exact Hext|].
    intros x Hx. by eapply Hin.
  - eapply Forall_impl; [exact Hext|]. intros x Hx. by eapply Hin.
Qed.

Lemma write_snapshot_ok input s so h snap l k e h' changed :
  snapshot_ok input s so h snap ->
  reach h (VRef input) l -> rhs_ok h (VRef input) e ->
  write h l k e = Some (h', changed) ->
  snapshot_ok input s so h' snap.
Proof.
  intros [Hsnap Hne Hso Hnd Hp [oi [Hoi Hk]]] Hr Hok Hw. unfold write in Hw.
  assert (Hl : l <> s) by (eapply reach_private; [exact Hp| |exact Hr]; congruence).
  destruct (eval_rhs h e) as [h1 v] eqn:He.
  assert (H1 : (exists ext, h1 = h ++ ext) /\ v <> VRef s /\
    (forall l o, h1 !! l = Some o -> Forall (fun v => v <> VRef s) (obj_vals o))).
  { destruct e as [t|v0]; simpl in He.
    - eapply alloc_private; [exact He| |done]. by eapply lookup_lt_Some.
    - injection He as <- <-. split; [exists []; by rewrite app_nil_r|]. split; [|done].
      destruct v0; try done. simpl in Hok. intros [= ->].
      eapply (reach_private s h (VRef input) s Hp); [congruence|exact Hok|done]. }
  destruct H1 as ([ext ->] & Hv & Hp1).
  destruct ((h ++ ext) !! l) as [o|] eqn:Ho; [|done].
  destruct (obj_set o k v) as [o'|] eqn:Hs; [|done]. injection Hw as <- <-.
  constructor; try done.
  - rewrite list_lookup_insert_ne by done. by apply lookup_app_l_Some.
  - intros l' o'' Ho''. apply list_lookup_insert_Some in Ho'' as [(-> & -> & _)|[Hne' Ho'']].
    + eapply obj_set_vals; [exact Hs| |done]. by eapply Hp1.
    + by eapply Hp1.
  - destruct (decide (l = input)) as [->|Hli].
    + exists o'. split; [apply list_lookup_insert_eq; by eapply lookup_lt_Some|].
      rewrite (lookup_app_l_Some _ _ _ _ Hoi) in Ho. injection Ho as <-.
      eapply same_kind_trans; [by eapply obj_set_kind|done].
    + exists oi. split; [|done]. rewrite list_lookup_insert_ne by done.
      by apply lookup_app_l_Some.
Qed.

Lemma Object_assign_snapshot_ok input s so h snap :
  snapshot_ok input s so h snap ->
  exists h' changed, Object_assign h input snap = Some (h', changed) /\
    snapshot_ok input s so h' snap /\
    (forall o o', h !! input = Some o -> h' !! input = Some o' ->
       forall k, obj_get so k = None -> obj_get o' k = obj_get o k) /\
    (forall l, l <> input -> h' !! l = h !! l) /\
    Object_assign h' input snap = Some (h', false).
Proof.
  intros Hok. destruct Hok as [Hsnap Hne Hso Hnd Hp [oi [Hoi Hk]]].
  destruct (assign_entries_Some oi so Hk) as [[o' c] Hae].
  assert (Ha : Object_assign h input snap = Some (<[input:=o']> h, c)).
  { subst snap. unfold Object_assign. by rewrite Hoi, Hso, Hae. }
  exists (<[input:=o']> h), c. split; [done|]. split; [|split; [|split]].
  - constructor; try done.
    + by rewrite list_lookup_insert_ne.
    + intros l o Ho. apply list_lookup_insert_Some in Ho as [(-> & -> & _)|[Hne' Ho]].
      * eapply assign_entries_vals; [exact Hae|by eapply Hp|].
        rewrite entries_vals. by eapply Hp.
      * by eapply Hp.
    + exists o'. split; [apply list_lookup_insert_eq; by eapply lookup_lt_Some|].
      eapply same_kind_trans; [by eapply assign_entries_kind|done].
  - intros o o'' Ho Ho'' k Hkn. rewrite Hoi in Ho. injection Ho as <-.
    rewrite list_lookup_insert_eq in Ho'' by (by eapply lookup_lt_Some). injection Ho'' as <-.
    eapply assign_entries_get_ne; [exact Hae|].
    intros Hin. apply entries_keys in Hin as [v Hv]. congruence.
  - intros l Hl. by rewrite list_lookup_insert_ne.
  - subst snap. eapply Object_assign_idem; [done|exact Hso|done|exact Ha].
Qed.

Lemma alloc_object t h h' v o0 :
  tree_kind o0 t = true -> alloc t h = (h', v) ->
  exists ext so, h' = h ++ ext ++ [so] /\ v = VRef (length h + length ext) /\
    same_kind o0 so = true /\ obj_distinct so /\
    (forall l o, h' !! l = Some o -> length h <= l ->
       Forall (fun x => x <> VRef (length h + length ext)) (obj_vals o)).
Proof.
  intros Hk Ha. destruct (alloc_ext _ _ _ _ Ha) as (ext0 & Hh' & _ & Hext & Hd).
  assert (Hd1 : 1 <= length ext0).
  { destruct t; try (by destruct o0); simpl in Hd; lia. }
  assert (Hshape : exists h1 so, h' = h1 ++ [so] /\ v = VRef (length h1) /\ same_kind o0 so = true).
  { destruct t; try (by destruct o0).
    - rewrite alloc_TObj in Ha. destruct (alloc_props _ _ _) as [h1 ps]. injection Ha as <- <-.
      exists h1, (Obj ps). by destruct o0.
    - rewrite alloc_TArr in Ha. destruct (alloc_elems _ _ _) as [h1 vs]. injection Ha as <- <-.
      exists h1, (Arr vs). by destruct o0. }
  destruct Hshape as (h1 & so & -> & -> & Hsk).
  assert (Hlen : length h1 + 1 = length h + length ext0).
  { apply (f_equal length) in Hh'. by rewrite !length_app in Hh'. }
  assert (Hh1 : h1 = h ++ take (length ext0 - 1) ext0 /\ ext0 !! (length ext0 - 1) = Some so).
  { assert (H0 : ext0 <> []) by (intros ->; simpl in Hd1; lia).
    destruct (exists_last H0) as (ext1 & so' & ->).
    rewrite app_assoc in Hh'. apply app_inj_tail in Hh' as [-> ->].
    rewrite length_app. simpl. replace (length ext1 + 1 - 1) with (length ext1) by lia.
    rewrite take_app_length. split; [done|]. by rewrite lookup_app_r, Nat.sub_diag. }
  destruct Hh1 as [-> Hso]. set (ext1 := take (length ext0 - 1) ext0) in *.
  assert (Hl1 : length ext1 = length ext0 - 1).
  { unfold ext1. rewrite length_take. lia. }
  exists ext1, so. split; [by rewrite app_assoc|]. split; [by rewrite length_app|].
  split; [done|]. split.
  - specialize (Hext _ _ Hso). by destruct so as [ps|vs]; [destruct Hext|].
  - intros l o Ho Hl. rewrite Hh' in Ho. rewrite lookup_app_r in Ho by done.
    assert (Hi : l - length h < length ext0) by (by eapply lookup_lt_Some).
    specialize (Hext _ _ Ho).
    assert (Hin : forall x, val_in (length h) (length h + (l - length h)) x ->
                            x <> VRef (length h + length ext1)).
    { intros [] Hx; try done. simpl in Hx. intros [= ->]. lia. }
    destruct o as [ps|vs]; simpl in *.
    + destruct Hext as [_ Hext]. eapply Forall_impl; [exact Hext|]. done.
    + eapply Forall_impl; [exact Hext|]. done.
Qed.

Lemma unfold_object fuel h stack l o t :
  h !! l = Some o -> unfold fuel h stack (VRef l) = Normal t -> tree_kind o t = true.
Proof.
  intros Hl Hu. rewrite unfold_ref in Hu. destruct (decide _); [done|].
  destruct fuel; [done|]. rewrite Hl in Hu. destruct o.
  - by apply bind_Normal in Hu as (? & _ & [= <-]).
  - by apply bind_Normal in Hu as (? & _ & [= <-]).
Qed.

Lemma to_json_kind o t j : tree_kind o t = true -> to_json t = Some j -> tree_kind o j = true.
Proof. destruct o, t; simpl; try done; by intros _ [= <-]. Qed.

Lemma wf_heap_val_ok h l o :
  wf_heap h = true -> h !! l = Some o ->
  Forall (fun v => val_ok (length h) v = true) (obj_vals o).
Proof.
  intros Hwf Hl. unfold wf_heap in Hwf. rewrite forallb_forall in Hwf.
  apply list_elem_of_lookup_2, list_elem_of_In in Hl. apply Hwf in Hl.
  apply List.Forall_forall. destruct o as [ps|vs]; simpl in *.
  - apply andb_true_iff in Hl as [_ Hl]. by rewrite forallb_forall in Hl.
  - by rewrite forallb_forall in Hl.
Qed.

(** The snapshot made by [JSON.parse(JSON.stringify(input))]. *)
Lemma snapshot_initial h0 input hv :
  wf_heap h0 = true -> input < length h0 ->
  UseForm.deepClone h0 (VRef input) = Normal hv ->
  exists s so, snapshot_ok input s so (fst hv) (snd hv).
Proof.
  intros Hwf Hin Hd. apply deepClone_inv in Hd as (t & j & Ht & Hj & Ha).
  destruct hv as [h' snap]. simpl.
  destruct (lookup_lt_is_Some_2 h0 input Hin) as [oi Hoi].
  assert (Hk : tree_kind oi j = true).
  { eapply to_json_kind; [|exact Hj]. by eapply unfold_object. }
  destruct (alloc_object _ _ _ _ _ Hk Ha) as (ext & so & -> & -> & Hsk & Hnd & Hp).
  exists (length h0 + length ext), so. constructor; try done.
  - lia.
  - by rewrite app_assoc, lookup_app_r, length_app, Nat.sub_diag by (rewrite length_app; lia).
  - intros l o Ho. destruct (decide (length h0 <= l)); [by eapply Hp|].
    rewrite lookup_app_l in Ho by lia.
    eapply Forall_impl; [by eapply wf_heap_val_ok|]. intros [] Hx; try done.
    simpl in Hx. apply bool_decide_eq_true in Hx. intros [= ->]. lia.
  - exists oi. split; [by apply lookup_app_l_Some|done].
Qed.

(** ** The walk always ends *)

Lemma mapM_not_Stuck {A B} (f : A -> completion B) l :
  Forall (fun x => f x <> Stuck) l -> mapM f l <> Stuck.
Proof.
  induction 1 as [|x l Hx _ IH]; simpl; [done|].
  destruct (f x); simpl; [|done|done]. by destruct (mapM f l).
Qed.

Lemma bounded_NoDup_length (l : list nat) n :
  NoDup l -> (forall x, x ∈ l -> x < n) -> length l <= n.
Proof.
  intros Hnd Hlt. rewrite <- (List.length_seq n 0).
  apply List.NoDup_incl_length; [by apply NoDup_ListNoDup|].
  intros x Hx. apply List.in_seq. apply list_elem_of_In, Hlt in Hx. lia.
Qed.

(** The fuel [value_of] gives the walk is enough: on a well-formed heap the
    walk returns a tree or throws the [TypeError], it does not get stuck. *)
Lemma unfold_total fuel : forall h stack v,
  wf_heap h = true -> val_ok (length h) v = true ->
  NoDup stack -> (forall l, l ∈ stack -> l < length h) ->
  length h < fuel + length stack ->
  unfold fuel h stack v <> Stuck.
Proof.
  induction fuel as [|fuel IH]; intros h stack v Hwf Hv Hnd Hst Hf.
  - destruct v; try (by rewrite unfold_prim by congruence).
    rewrite unfold_ref. destruct (decide _); [done|].
    simpl in Hv. apply bool_decide_eq_true in Hv.
    assert (length (l :: stack) <= length h); [|simpl in *; lia].
    apply bounded_NoDup_length; [by constructor|].
    intros x Hx. apply elem_of_cons in Hx as [->|Hx]; auto.
  - destruct v; try (by rewrite unfold_prim by congruence).
    rewrite unfold_ref. destruct (decide _) as [|Hl]; [done|].
    simpl in Hv. apply bool_decide_eq_true in Hv.
    destruct (lookup_lt_is_Some_2 h l Hv) as [o Ho]. rewrite Ho.
    assert (Hvals := wf_heap_val_ok _ _ _ Hwf Ho).
    assert (Hnd' : NoDup (l :: stack)) by (by constructor).
    assert (Hst' : forall x, x ∈ l :: stack -> x < length h).
    { intros x Hx. apply elem_of_cons in Hx as [->|Hx]; auto. }
    destruct o as [ps|vs]; simpl in Hvals.
    + match goal with |- bind ?m _ <> _ => assert (Hm : m <> Stuck) end.
      { apply mapM_not_Stuck. apply List.Forall_forall. intros [k x] Hin.
        rewrite List.Forall_forall in Hvals.
        assert (Hx : val_ok (length h) x = true).
        { apply Hvals. apply in_map_iff. by exists (k, x). }
        simpl. specialize (IH h (l :: stack) x Hwf Hx Hnd' Hst').
        destruct (unfold fuel h (l :: stack) x); simpl; [done|done|].
        intros _. apply IH; [simpl; lia|done]. }
      by destruct (mapM _ ps).
    + match goal with |- bind ?m _ <> _ => assert (Hm : m <> Stuck) end.
      { apply mapM_not_Stuck. eapply Forall_impl; [exact Hvals|]. intros x Hx.
        apply IH; try done. simpl. lia. }
      by destruct (mapM _ vs).
Qed.

Lemma value_of_total h v :
  wf_heap h = true -> val_ok (length h) v = true -> value_of h v <> Stuck.
Proof.
  intros Hwf Hv. apply unfold_total; try done.
  - constructor.
  - intros l Hl. by apply elem_of_nil in Hl.
  - simpl. lia.
Qed.

(** [deepClone] returns or throws. *)
Lemma deepClone_total h v :
  wf_heap h = true -> val_ok (length h) v = true -> UseForm.deepClone h v <> Stuck.
Proof.
  intros Hwf Hv. unfold UseForm.deepClone, JSON_stringify.
  assert (H := value_of_total h v Hwf Hv).
  destruct (value_of h v) as [t| |]; simpl; [|done|done].
  by destruct (to_json t).
Qed.

(** ** Cycles and the walk of [JSON.stringify] *)

Lemma mapM_Throw {A B} (f : A -> completion B) l e :
  mapM f l = Throw e -> exists x, In x l /\ f x = Throw e.
Proof.
  induction l as [|x l IH]; simpl; [done|].
  destruct (f x) as [y|e'|] eqn:Hx; simpl; [|intros [= ->]; eauto|done].
  destruct (mapM f l) as [ys|e'|]; simpl; [done| |done].
  intros [= ->]. destruct IH as (x' & ? & ?); eauto.
Qed.

Lemma unfold_ref_Normal fuel h stack l t :
  unfold fuel h stack (VRef l) = Normal t ->
  (l ∉ stack) /\ exists f o, fuel = S f /\ h !! l = Some o /\
    forall v, In v (obj_vals o) -> exists t', unfold f h (l :: stack) v = Normal t'.
Proof.
  rewrite unfold_ref. destruct (decide (l ∈ stack)); [done|].
  destruct fuel as [|f]; [done|]. destruct (h !! l) as [[ps|vs]|]; [| |done].
  - intros H. apply bind_Normal in H as (props & H & _). apply mapM_Normal in H.
    split; [done|]. exists f, (Obj ps). split; [done|]. split; [done|].
    simpl. intros v Hv. apply in_map_iff in Hv as (kv & <- & Hkv).
    apply list_elem_of_In, list_elem_of_lookup in Hkv as [i Hi].
    destruct (Forall2_lookup_l _ _ _ _ _ H Hi) as (y & _ & Hy).
    apply bind_Normal in Hy as (t' & Ht' & _). eauto.
  - intros H. apply bind_Normal in H as (ts & H & _). apply mapM_Normal in H.
    split; [done|]. exists f, (Arr vs). split; [done|]. split; [done|].
    simpl. intros v Hv.
    apply list_elem_of_In, list_elem_of_lookup in Hv as [i Hi].
    destruct (Forall2_lookup_l _ _ _ _ _ H Hi) as (y & _ & Hy). eauto.
Qed.

Lemma unfold_ref_Throw fuel h stack l e :
  unfold fuel h stack (VRef l) = Throw e ->
  ((l ∈ stack) /\ e = TypeError "cyclic object value") \/
  ((l ∉ stack) /\ exists f o v, fuel = S f /\ h !! l = Some o /\ In v (obj_vals o) /\
     unfold f h (l :: stack) v = Throw e).
Proof.
  rewrite unfold_ref. destruct (decide (l ∈ stack)); [intros [= <-]; by left|].
  destruct fuel as [|f]; [done|]. destruct (h !! l) as [[ps|vs]|] eqn:Hl; [| |done].
  - intros H. right. split; [done|].
    destruct (mapM _ ps) as [props|e'|] eqn:Hm; simpl in H; [done| |done].
    injection H as ->. apply mapM_Throw in Hm as (kv & Hkv & Hx).
    exists f, (Obj ps), (snd kv). split; [done|]. split; [done|].
    split; [simpl; by apply in_map|].
    destruct (unfold f h (l :: stack) (snd kv)); simpl in Hx; congruence.
  - intros H. right. split; [done|].
    destruct (mapM _ vs) as [ts|e'|] eqn:Hm; simpl in H; [done| |done].
    injection H as ->. apply mapM_Throw in Hm as (v & Hv & Hx).
    exists f, (Arr vs), v. done.
Qed.

(** A walk that returns met no object of its stack. *)
Lemma unfold_Normal_reach h v l :
  reach h v l -> forall fuel stack t, unfold fuel h stack v = Normal t -> l ∉ stack.
Proof.
  induction 1 as [l|l0 o v l Ho Hv Hr IH]; intros fuel stack t Hu.
  - by apply unfold_ref_Normal in Hu as [? _].
  - apply unfold_ref_Normal in Hu as (Hn & f & o' & -> & Ho' & Hc).
    rewrite Ho in Ho'. injection Ho' as <-.
    destruct (Hc v Hv) as [t' Ht']. apply IH in Ht'.
    intros Hin. apply Ht'. by apply elem_of_cons; right.
Qed.

Lemma unfold_Normal_sub h v l :
  reach h v l -> forall fuel stack t, unfold fuel h stack v = Normal t ->
  exists fuel' stack' t', unfold fuel' h stack' (VRef l) = Normal t'.
Proof.
  induction 1 as [l|l0 o v l Ho Hv Hr IH]; intros fuel stack t Hu; [eauto|].
  apply unfold_ref_Normal in Hu as (Hn & f & o' & -> & Ho' & Hc).
  rewrite Ho in Ho'. injection Ho' as <-.
  destruct (Hc v Hv) as [t' Ht']. by eapply IH.
Qed.

Lemma unfold_Normal_acyclic fuel h stack v t :
  unfold fuel h stack v = Normal t -> ~ cyclic h v.
Proof.
  intros Hu (l & Hr & o & v' & Ho & Hv' & Hr').
  destruct (unfold_Normal_sub _ _ _ Hr _ _ _ Hu) as (f' & s' & t' & Hl).
  apply unfold_ref_Normal in Hl as (_ & f & o' & _ & Ho' & Hc).
  rewrite Ho in Ho'. injection Ho' as <-.
  destruct (Hc v' Hv') as [t'' Ht''].
  apply (unfold_Normal_reach _ _ _ Hr' _ _ _ Ht''). by apply elem_of_cons; left.
Qed.

Lemma unfold_Throw_cyclic fuel : forall h stack v e,
  unfold fuel h stack v = Throw e ->
  e = TypeError "cyclic object value" /\
  ((exists l, reach h v l /\ l ∈ stack) \/ cyclic h v).
Proof.
  induction fuel as [|f IH]; intros h stack v e Hu.
  - destruct v; try done. apply unfold_ref_Throw in Hu as [[Hl ->]|(_ & f & ? & ? & ? & _)]; [|done].
    split; [done|]. left. exists l. split; [constructor|done].
  - destruct v; try done.
    apply unfold_ref_Throw in Hu as [[Hl ->]|(Hn & f' & o & v & [= <-] & Ho & Hv & Hu)].
    { split; [done|]. left. exists l. split; [constructor|done]. }
    apply IH in Hu as [-> [(l' & Hr & Hin)|(l' & Hr & Hc)]]; (split; [done|]).
    + apply elem_of_cons in Hin as [->|Hin].
      * right. exists l. split; [constructor|]. by exists o, v.
      * left. exists l'. split; [by eapply reach_via|done].
    + right. exists l'. split; [by eapply reach_via|done].
Qed.

(** The walk of [JSON.stringify] from [v] throws exactly when a cycle is
    reachable from [v]. *)
Lemma value_of_cyclic h v :
  wf_heap h = true -> val_ok (length h) v = true ->
  (cyclic h v <-> value_of h v = Throw (TypeError "cyclic object value")) /\
  (~ cyclic h v <-> exists t, value_of h v = Normal t).
Proof.
  intros Hwf Hv. assert (Ht := value_of_total h v Hwf Hv).
  assert (Hthrow : forall e, value_of h v = Throw e ->
            e = TypeError "cyclic object value" /\ cyclic h v).
  { intros e He. apply unfold_Throw_cyclic in He as [-> [(l & _ & Hl)|Hc]]; [|done].
    by apply elem_of_nil in Hl. }
  split; split.
  - intros Hc. destruct (value_of h v) as [t|e|] eqn:Hu; [|by destruct (Hthrow e) as [-> _]|done].
    by destruct (unfold_Normal_acyclic _ _ _ _ _ Hu).
  - intros He. by destruct (Hthrow _ He).
  - intros Hc. destruct (value_of h v) as [t|e|] eqn:Hu; [eauto| |done].
    by destruct (Hthrow e) as [_ ?].
  - intros [t Hu]. by eapply unfold_Normal_acyclic.
Qed.

Lemma to_json_None t : to_json t = None <-> t = TUndefined.
Proof. by destruct t. Qed.

Lemma value_of_undefined h v :
  value_of h v = Normal TUndefined <-> v = VUndefined.
Proof.
  split; [|by intros ->]. destruct v; try done.
  intros Hu. unfold value_of in Hu. rewrite unfold_ref in Hu.
  destruct (decide _); [done|]. destruct (h !! l) as [[ps|vs]|]; [| |done].
  - apply bind_Normal in Hu as (? & _ & ?). done.
  - apply bind_Normal in Hu as (? & _ & ?). done.
Qed.

Lemma to_json_idem t : forall j, to_json t = Some j -> to_json j = Some j.
Proof.
  induction t as [| | | | | | |ps IH|ts IH] using tree_ind'; simpl; intros j [= <-]; try done.
  - simpl. f_equal. f_equal. induction IH as [|[k t] ps Ht _ IH']; [done|]. simpl in *.
    destruct (to_json t) as [j|]; [|done]. simpl. rewrite (Ht j eq_refl). simpl. by f_equal.
  - simpl. f_equal. f_equal. induction IH as [|t ts Ht _ IH']; [done|]. simpl.
    f_equal; [|done]. destruct (to_json t) as [j|]; [|done]. by rewrite (Ht j eq_refl).
Qed.

(** ** What [deepClone] throws *)

Lemma deepClone_cases (h : heap) (v : val) :
  wf_heap h = true -> val_ok (length h) v = true ->
  (cyclic h v /\ v <> VUndefined /\
   UseForm.deepClone h v = Throw (TypeError "cyclic object value")) \/
  (~ cyclic h v /\ v = VUndefined /\
   UseForm.deepClone h v = Throw (SyntaxError "undefined is not valid JSON")) \/
  (~ cyclic h v /\ v <> VUndefined /\ exists hv, UseForm.deepClone h v = Normal hv).
Proof.
  intros Hwf Hv. destruct (value_of_cyclic h v Hwf Hv) as [Hc Hn].
  assert (Ht := value_of_total h v Hwf Hv).
  unfold UseForm.deepClone, JSON_stringify.
  destruct (value_of h v) as [t|e|] eqn:Hu; [| |done]; simpl.
  - right. assert (Hnc : ~ cyclic h v) by (apply Hn; eauto).
    destruct (to_json t) as [j|] eqn:Hj; simpl.
    + right. split; [done|]. split; [|eauto].
      intros ->. unfold value_of in Hu. simpl in Hu. by injection Hu as <-.
    + left. apply to_json_None in Hj as ->. by apply value_of_undefined in Hu as ->.
  - left. apply unfold_Throw_cyclic in Hu as Hu'. destruct Hu' as [-> _].
    assert (Hcy : cyclic h v) by (by apply Hc).
    split; [done|]. split; [|done].
    intros ->. destruct Hcy as (l & Hr & _). inversion Hr.
Qed.

(** ** The clone is made of new objects *)

Lemma deepClone_fresh h v h' v' :
  UseForm.deepClone h v = Normal (h', v') ->
  (exists ext, h' = h ++ ext) /\ closed_above (length h) h' /\ owned (length h) v'.
Proof.
  intros Hd. apply deepClone_inv in Hd as (t & j & _ & _ & Ha).
  apply (alloc_closed (length h) _ _ _ _ Ha); [done|].
  intros l o Hl Ho. apply lookup_lt_Some in Ho. lia.
Qed.

(** A walk that returns visited objects of the heap only. *)
Lemma unfold_Normal_in_heap fuel h stack v t l :
  unfold fuel h stack v = Normal t -> reach h v l -> l < length h.
Proof.
  intros Hu Hr. destruct (unfold_Normal_sub _ _ _ Hr _ _ _ Hu) as (f' & s' & t' & Hl).
  apply unfold_ref_Normal in Hl as (_ & f & o & _ & Ho & _). by eapply lookup_lt_Some.
Qed.

Lemma obj_get_entries o k v : obj_get o k = Some v -> (k, v) ∈ entries o.
Proof.
  destruct o as [ps|vs], k as [s|i]; simpl; try done.
  - induction ps as [|[k' v'] ps IH]; simpl; [done|].
    destruct (String.eqb s k') eqn:E.
    + apply String.eqb_eq in E as ->. intros [= ->]. by apply elem_of_cons; left.
    + intros H. apply elem_of_cons; right. by apply IH.
  - intros Hi. apply list_elem_of_lookup. exists i. rewrite list_lookup_imap, Hi. done.
Qed.

Lemma obj_get_vals o k v : obj_get o k = Some v -> In v (obj_vals o).
Proof.
  intros H. apply obj_get_entries in H. rewrite <- entries_vals.
  apply in_map_iff. exists (k, v). split; [done|]. by apply list_elem_of_In.
Qed.

(** ** References stay within the heap *)

Lemma wf_heap_closed h : wf_heap h = true -> heap_closed h.
Proof.
  intros Hwf l o Ho. eapply Forall_impl; [by eapply wf_heap_val_ok|].
  intros [] Hv; simpl in *; try done. apply bool_decide_eq_true in Hv. lia.
Qed.

Lemma reach_closed h v l :
  heap_closed h -> val_in 0 (length h) v -> reach h v l -> l < length h.
Proof.
  intros Hc Hv Hr. induction Hr as [l|l0 o v l Ho Hin _ IH]; [simpl in Hv; lia|].
  apply IH. specialize (Hc _ _ Ho). rewrite List.Forall_forall in Hc. by apply Hc.
Qed.

Lemma obj_in_vals lo hi o : obj_in lo hi o -> Forall (val_in lo hi) (obj_vals o).
Proof. destruct o; simpl; [by intros [_ ?]|done]. Qed.

Lemma alloc_heap_closed t h h' v :
  alloc t h = (h', v) -> heap_closed h ->
  heap_closed h' /\ val_in (length h) (length h') v /\ exists ext, h' = h ++ ext.
Proof.
  intros Ha Hc. destruct (alloc_ext _ _ _ _ Ha) as (ext & -> & Hv & Hnew & _).
  split; [|split; [done|by exists ext]].
  intros l o Ho. rewrite length_app. destruct (decide (l < length h)) as [Hl|Hl].
  - rewrite lookup_app_l in Ho by done.
    eapply Forall_impl; [exact (Hc _ _ Ho)|]. intros x Hx. eapply val_in_mono; [done|lia|lia].
  - rewrite lookup_app_r in Ho by lia. assert (Hi := lookup_lt_Some _ _ _ Ho).
    eapply Forall_impl; [exact (obj_in_vals _ _ _ (Hnew _ _ Ho))|].
    intros x Hx. eapply val_in_mono; [done|lia|lia].
Qed.

(** A primitive is parsed without creating an object. *)
Lemma alloc_prim t h h' v : alloc t h = (h', v) -> (forall l, v <> VRef l) -> h' = h.
Proof.
  destruct t; try by (simpl; intros [= <- _]).
  - rewrite alloc_TObj. destruct (alloc_props _ _ _). intros [= _ <-] H. by destruct (H (length l)).
  - rewrite alloc_TArr. destruct (alloc_elems _ _ _). intros [= _ <-] H. by destruct (H (length l)).
Qed.

(** A write keeps the heap closed; a write that did not change the property
    left the heap as it was. *)
Lemma write_heap_closed h root l k e h' changed :
  heap_closed h -> val_in 0 (length h) root -> reach h root l -> rhs_ok h root e ->
  write h l k e = Some (h', changed) ->
  heap_closed h' /\ (changed = false -> h' = h).
Proof.
  intros Hc Hroot Hl He Hw. unfold write in Hw.
  assert (Hlt := reach_closed _ _ _ Hc Hroot Hl).
  destruct (eval_rhs h e) as [h1 v] eqn:Hev.
  assert (H1 : heap_closed h1 /\ val_in 0 (length h1) v /\ (exists ext, h1 = h ++ ext) /\
               ((forall n, v = VRef n -> n < length h) -> h1 = h)).
  { destruct e as [t|w]; simpl in Hev.
    - destruct (alloc_heap_closed _ _ _ _ Hev Hc) as (Hc1 & Hv1 & Hext).
      split; [done|]. split; [eapply val_in_mono; [done|lia|lia]|]. split; [done|].
      intros Hn. eapply alloc_prim; [done|]. intros n ->. specialize (Hn n eq_refl).
      simpl in Hv1. lia.
    - injection Hev as <- <-. split; [done|]. split; [|split; [by exists []; rewrite app_nil_r|done]].
      destruct w; simpl in *; try done. split; [lia|]. by eapply reach_closed. }
  destruct H1 as (Hc1 & Hv1 & [ext ->] & Hsame).
  destruct ((h ++ ext) !! l) as [o|] eqn:Ho; [|done].
  destruct (obj_set o k v) as [o'|] eqn:Hs; [|done]. injection Hw as <- <-.
  split.
  - intros l' o'' Ho''. rewrite length_insert.
    destruct (decide (l' = l)) as [->|Hne].
    + rewrite list_lookup_insert_eq in Ho'' by (by eapply lookup_lt_Some).
      injection Ho'' as <-. eapply obj_set_vals; [done|by eapply Hc1|done].
    + rewrite list_lookup_insert_ne in Ho'' by done. by eapply Hc1.
  - intros Hch. apply bool_decide_eq_false in Hch. apply dec_stable in Hch.
    rewrite (obj_set_id _ _ _ Hch) in Hs. injection Hs as <-.
    rewrite list_insert_id by done. apply Hsame. intros n ->.
    rewrite lookup_app_l in Ho by done. apply obj_get_vals in Hch.
    specialize (Hc _ _ Ho). rewrite List.Forall_forall in Hc. apply Hc in Hch.
    simpl in Hch. lia.
Qed.

Lemma assign_entries_unchanged es : forall o o',
  assign_entries o es = Some (o', false) -> o' = o.
Proof.
  induction es as [|[k v] es IH]; simpl; intros o o'; [by intros [= <-]|].
  destruct (obj_set o k v) as [o1|] eqn:Hs; [|done].
  destruct (assign_entries o1 es) as [[o2 c]|] eqn:Ha; [|done].
  intros [= <- Hc]. apply orb_false_iff in Hc as [Hk ->].
  apply bool_decide_eq_false in Hk. apply dec_stable in Hk.
  rewrite (obj_set_id _ _ _ Hk) in Hs. injection Hs as <-. by apply IH.
Qed.

Lemma Object_assign_heap_closed h target source h' changed :
  heap_closed h -> Object_assign h target source = Some (h', changed) ->
  heap_closed h' /\ (changed = false -> h' = h).
Proof.
  intros Hc Ha. unfold Object_assign in Ha.
  destruct source; try (injection Ha as <- <-; done).
  destruct (h !! target) as [o|] eqn:Ho; [|done].
  destruct (h !! l) as [src|] eqn:Hsrc; [|done].
  destruct (assign_entries o (entries src)) as [[o' c]|] eqn:He; [|done].
  injection Ha as <- <-. split.
  - intros l' o'' Ho''. rewrite length_insert.
    destruct (decide (l' = target)) as [->|Hne].
    + rewrite list_lookup_insert_eq in Ho'' by (by eapply lookup_lt_Some).
      injection Ho'' as <-.
      eapply assign_entries_vals; [done|by eapply Hc|]. rewrite entries_vals. by eapply Hc.
    + rewrite list_lookup_insert_ne in Ho'' by done. by eapply Hc.
  - intros ->. apply assign_entries_unchanged in He as ->. by apply list_insert_id.
Qed.

End JSFacts.

(** * Facts about [useForm] *)

Module UseFormFacts.
Import Zod JS Caller JSFacts UseForm.

Section sync.
Context {Output : Type}.
Variable schema : JS.heap -> val -> SafeParseReturnType Output.
Variable initialData : val.
Variable onSubmit : Output -> completion unit.

Abbreviation reachable := (reachable schema initialData onSubmit).
Abbreviation step := (step schema initialData onSubmit).

Lemma useForm_inv h0 (st : Form Output) :
  useForm initialData h0 = Normal st -> inv h0 st.
Proof.
  unfold useForm. intros H. apply bind_Normal in H as ([h' v'] & Hd & [= <-]).
  apply deepClone_inv in Hd as (t & j & _ & _ & Ha).
  destruct (alloc_closed (length h0) _ _ _ _ Ha) as (Hext & Hc & Hv); [done| |].
  { intros l o Hl Ho. apply lookup_lt_Some in Ho. lia. }
  by constructor.
Qed.

Lemma reset_inv h0 (st : Form Output) : inv h0 st -> inv h0 (fst (reset initialData st)).
Proof.
  intros [[new Hnew] Hc Hd]. unfold reset.
  destruct (deepClone _ _) as [[h' v']| |] eqn:Hdc; simpl; try by constructor; eauto.
  apply deepClone_inv in Hdc as (t & j & _ & _ & Ha).
  destruct (alloc_closed (length h0) _ _ _ _ Ha) as ([ext Hext] & Hc' & Hv); [|done|].
  { rewrite Hnew, length_app. lia. }
  constructor; simpl; [|done|done]. exists (new ++ ext). by rewrite Hext, Hnew, app_assoc.
Qed.

Lemma step_inv h0 st a st' : inv h0 st -> step st a st' -> inv h0 st'.
Proof.
  intros Hinv Hs. destruct Hs.
  - destruct Hinv as [[new Hnew] Hc Hd].
    assert (Hn : length h0 <= length (heap st)) by (rewrite Hnew, length_app; lia).
    match goal with Hw : write _ _ _ _ = _ |- _ =>
      destruct (write_closed _ _ _ _ _ _ _ _ Hw Hn Hc Hd ltac:(done) ltac:(done)) as [Hp Hc'] end.
    constructor; simpl; [by eapply Hp|done|done].
  - destruct Hinv as [[new Hnew] Hc Hd].
    assert (Hn : length h0 <= length (heap st)) by (rewrite Hnew, length_app; lia).
    destruct (eval_rhs (heap st) e) as [h1 v] eqn:He.
    destruct (eval_rhs_closed _ _ _ _ _ _ He Hn Hc Hd ltac:(done)) as ([ext ->] & Hc' & Hv).
    constructor; simpl; [|done|done]. exists (new ++ ext). by rewrite Hnew, app_assoc.
  - destruct Hinv. by constructor.
  - destruct Hinv. by constructor.
  - destruct Hinv. unfold submit. destruct (schema _ _); by constructor.
  - by apply reset_inv.
  - destruct Hinv. by constructor.
Qed.

Lemma reachable_inv h0 st : reachable h0 st -> inv h0 st.
Proof.
  induction 1; [by apply useForm_inv|by eapply step_inv].
Qed.

Lemma reachable_initial h0 st :
  reachable h0 st ->
  wf_heap h0 = true /\
  exists t j, value_of h0 initialData = Normal t /\ to_json t = Some j.
Proof.
  induction 1 as [st Hwf _ Hu|]; [|done]. split; [done|].
  unfold useForm in Hu. apply bind_Normal in Hu as (hv & Hd & _).
  apply deepClone_inv in Hd as (t & j & ? & ? & _). eauto.
Qed.

(** From a reachable state [reset] clones [initialData] again, and the clone
    reads as what [JSON.stringify] wrote for [initialData] at construction. *)
Lemma reset_clones_again h0 st t j :
  reachable h0 st -> value_of h0 initialData = Normal t -> to_json t = Some j ->
  exists h' v', reset initialData st
                = (mkForm h' v' false None (calls st), Normal tt) /\
    value_of h' v' = Normal j.
Proof.
  intros Hr Ht Hj. destruct (reachable_initial _ _ Hr) as [Hwf _].
  destruct (reachable_inv _ _ Hr) as [[new Hnew] _ _].
  assert (Hdk : distinct_keys t = true).
  { eapply unfold_distinct_keys; [by apply wf_heap_distinct|exact Ht]. }
  destruct (deepClone_spec (heap st) initialData t j Hdk) as (h' & v' & Hdc & _ & _ & Hv);
    [rewrite Hnew; by apply value_of_app|done|].
  exists h', v'. split; [|done]. unfold reset. by rewrite Hdc.
Qed.

(** The controller never gives [changedAt] a date: after an action other
    than the caller's own assignment to the cell, [changedAt] is what it was,
    or [null]. *)
Lemma changedAt_not_dated st a st' :
  step st a st' -> (forall d, a <> SetChangedAt d) ->
  changedAt st' = changedAt st \/ changedAt st' = None.
Proof.
  intros Hs Ha. destruct Hs; simpl; auto.
  - by destruct (Ha d).
  - unfold submit. destruct (schema _ _); auto.
  - unfold reset. destruct (deepClone _ _); auto.
Qed.

End sync.

End UseFormFacts.

(** * Facts about [useFormComponent] *)

Module UseFormComponentFacts.
Import Zod JS Caller JSFacts UseFormComponent.

Section async.
Context {Output R : Type}.
Variable schema : Schema Output.
Variable input : loc.
Variable onSubmit : Output -> completion R.
Variable options : option Options.

Abbreviation reachable := (UseFormComponent.reachable schema input onSubmit options).
Abbreviation serial := (UseFormComponent.serial schema input onSubmit options).
Abbreviation step := (UseFormComponent.step schema input onSubmit options).
Abbreviation useFormComponent := (UseFormComponent.useFormComponent (Output:=Output) input options).
Abbreviation reset := (UseFormComponent.reset (Output:=Output) input).
Abbreviation submit := (UseFormComponent.submit schema input onSubmit options).

Lemma useFormComponent_inv h0 st :
  useFormComponent h0 = Normal st ->
  exists hv, UseForm.deepClone h0 (VRef input) = Normal hv /\
    st = mkFormComponent (fst hv) (snd hv) parsing None (initial_displayErrors options)
           None false false [] [].
Proof.
  unfold UseFormComponent.useFormComponent, UseForm.deepClone. intros H.
  apply bind_Normal in H as (text & H1 & H2). apply bind_Normal in H2 as (hv & H2 & [= <-]).
  exists hv. split; [|done]. by rewrite H1.
Qed.

(** Construction is [deepClone] of [input], then the cells. *)
Lemma useFormComponent_deepClone h0 :
  useFormComponent h0 =
  bind (UseForm.deepClone h0 (VRef input)) (fun hv =>
    Normal (mkFormComponent (fst hv) (snd hv) parsing None (initial_displayErrors options)
              None false false [] [])).
Proof.
  unfold UseFormComponent.useFormComponent, UseForm.deepClone.
  by destruct (JSON_stringify h0 (VRef input)).
Qed.

Lemma step_snapshot_ok s so st a st' :
  snapshot_ok input s so (heap st) (initialInput st) -> step st a st' ->
  snapshot_ok input s so (heap st') (initialInput st').
Proof.
  intros Hok Hs. destruct Hs; try done.
  - simpl. by eapply write_snapshot_ok.
  - unfold resolve in *. destruct (inflight st !! i); [|done].
    match goal with H : Some _ = Some _ |- _ => injection H as <- end. done.
  - unfold UseFormComponent.submit. destruct (safeParse _ _ _); simpl; [done|].
    by destruct (mutateDisplayErrorsOnError options).
  - unfold UseFormComponent.reset. simpl.
    destruct (Object_assign_snapshot_ok _ _ _ _ _ Hok) as (h' & c & -> & Hok' & _). done.
Qed.

Lemma reachable_snapshot_ok h0 st :
  reachable h0 st -> exists s so, snapshot_ok input s so (heap st) (initialInput st).
Proof.
  induction 1 as [st Hwf Hin Hu|st a st' _ (s & so & IH) Hs].
  - apply useFormComponent_inv in Hu as (hv & Hd & ->). simpl.
    by eapply snapshot_initial.
  - exists s, so. by eapply step_snapshot_ok.
Qed.

(** [reset] from a reachable state. *)
Lemma reset_assigns_snapshot h0 st :
  reachable h0 st ->
  exists so h' changed,
    snapshot_ok input (match initialInput st with VRef s => s | _ => 0 end) so
      (heap st) (initialInput st) /\
    Object_assign (heap st) input (initialInput st) = Some (h', changed) /\
    reset st = (trigger changed (set_heap h' (set_displayErrors false (set_changedAt None st))),
                Normal tt) /\
    Object_assign h' input (initialInput st) = Some (h', false) /\
    (forall o o', heap st !! input = Some o -> h' !! input = Some o' ->
       forall k, obj_get so k = None -> obj_get o' k = obj_get o k) /\
    (forall l, l <> input -> h' !! l = heap st !! l).
Proof.
  intros Hr. destruct (reachable_snapshot_ok _ _ Hr) as (s & so & Hok).
  destruct (Object_assign_snapshot_ok _ _ _ _ _ Hok) as (h' & c & Ha & _ & Hk & Hl & Hi).
  exists so, h', c. rewrite (snap_ref _ _ _ _ _ Hok) at 1. split; [done|]. split; [done|].
  split; [|done]. unfold UseFormComponent.reset. simpl. by rewrite Ha.
Qed.

Lemma serial_reachable h0 st : serial h0 st -> reachable h0 st.
Proof.
  induction 1; [by apply UseFormComponent.reachable_init|by eapply UseFormComponent.reachable_step].
Qed.

(** While validations do not overlap, at most one is in flight, and then
    [status] is [parsing]. *)
Lemma serial_parsing h0 st :
  serial h0 st ->
  inflight st = [] \/ (status st = parsing /\ length (inflight st) = 1).
Proof.
  induction 1 as [st _ _ Hu|st a st' _ IH Hs Hw].
  - apply useFormComponent_inv in Hu as (hv & _ & ->). by left.
  - destruct Hs; simpl in *; try done.
    + right. by rewrite Hw.
    + right. by rewrite Hw.
    + unfold resolve in *. destruct (inflight st !! i) as [r|] eqn:Hi; [|done].
      match goal with H : Some _ = Some _ |- _ => injection H as <- end. simpl.
      left. destruct IH as [IH|[_ IH]]; [by rewrite IH in Hi|].
      destruct (inflight st) as [|r0 [|r1 l]]; try done.
      destruct i; [done|]. by destruct i.
    + unfold UseFormComponent.submit. destruct (safeParse _ _ _); simpl; [done|].
      by destruct (mutateDisplayErrorsOnError options).
    + unfold UseFormComponent.reset. simpl. by destruct (Object_assign _ _ _) as [[??]|].
Qed.

(** Until the component is mounted nothing is queued or in flight, and
    [status] is [parsing]. *)
Lemma unmounted_parsing h0 st :
  reachable h0 st ->
  mounted st = false -> status st = parsing /\ inflight st = [] /\ queued st = false.
Proof.
  induction 1 as [st Hwf Hin Hu|st b st1 _ IH Hs1].
  - by apply useFormComponent_inv in Hu as (hv & _ & ->).
  - destruct Hs1; simpl in *; try done.
    + intros Hm. destruct (IH Hm) as (? & ? & Hq). rewrite Hq, Hm. done.
    + intros Hm. destruct (IH Hm) as (? & ? & Hq). congruence.
    + unfold resolve in *. destruct (inflight st !! i) eqn:Hi; [|done].
      match goal with H : Some _ = Some _ |- _ => injection H as <- end. simpl.
      intros Hm. destruct (IH Hm) as (_ & Hf & _). by rewrite Hf in Hi.
    + unfold UseFormComponent.submit. destruct (safeParse _ _ _); simpl; [done|].
      by destruct (mutateDisplayErrorsOnError options).
    + unfold UseFormComponent.reset. simpl.
      destruct (Object_assign _ _ _) as [[??]|]; simpl; [|done].
      intros Hm. destruct (IH Hm) as (? & ? & Hq). rewrite Hq, Hm. done.
Qed.

(** [changedAt] is [null] in every state of the component. *)
Lemma changedAt_null h0 st : reachable h0 st -> changedAt st = None.
Proof.
  induction 1 as [st _ _ Hu|st a st' _ IH Hs].
  - by apply useFormComponent_inv in Hu as (hv & _ & ->).
  - destruct Hs; simpl; try done.
    + unfold resolve in *. destruct (inflight st !! i); [|done].
      match goal with H : Some _ = Some _ |- _ => injection H as <- end. done.
    + unfold UseFormComponent.submit. destruct (safeParse _ _ _); simpl; [done|].
      by destruct (mutateDisplayErrorsOnError options).
    + unfold UseFormComponent.reset. simpl. by destruct (Object_assign _ _ _) as [[??]|].
Qed.

(** The snapshot is the object made at construction, in every state. *)
Lemma reachable_snapshot_fixed h0 st :
  reachable h0 st ->
  exists st0 s so,
    useFormComponent h0 = Normal st0 /\ length h0 <= s /\
    snapshot_ok input s so (heap st0) (initialInput st0) /\
    snapshot_ok input s so (heap st) (initialInput st).
Proof.
  induction 1 as [st Hwf Hin Hu|st a st' _ (st0 & s & so & Hu & Hs0 & Hok0 & IH) Hs].
  - destruct (useFormComponent_inv _ _ Hu) as ([h' v'] & Hd & ->).
    destruct (snapshot_initial _ _ _ Hwf Hin Hd) as (s & so & Hok).
    eexists _, s, so. split; [exact Hu|]. split; [|done].
    destruct (deepClone_fresh _ _ _ _ Hd) as (_ & _ & Ho).
    destruct Hok as [Href _ _ _ _ _]. simpl in Href. subst v'. exact Ho.
  - exists st0, s, so. split; [done|]. split; [done|]. split; [done|].
    by eapply step_snapshot_ok.
Qed.

(** Nothing resolves, and [parseResult] stays [null], until the component
    is mounted. *)
Lemma unmounted_unparsed h0 st :
  reachable h0 st -> mounted st = false -> parseResult st = None.
Proof.
  induction 1 as [st Hwf Hin Hu|st b st1 Hr IH Hs1].
  - by apply useFormComponent_inv in Hu as (hv & _ & ->).
  - destruct Hs1; simpl in *; try done.
    + unfold resolve in *. destruct (inflight st !! i) eqn:Hi; [|done].
      match goal with H : Some _ = Some _ |- _ => injection H as <- end. simpl.
      intros Hm. destruct (unmounted_parsing _ _ Hr Hm) as (_ & Hf & _).
      by rewrite Hf in Hi.
    + unfold UseFormComponent.submit. destruct (safeParse _ _ _); simpl; [done|].
      by destruct (mutateDisplayErrorsOnError options).
    + unfold UseFormComponent.reset. simpl.
      by destruct (Object_assign _ _ _) as [[??]|].
Qed.

(** [valid] comes with a successful [parseResult], [invalid] with a failed
    one. *)
Lemma status_verdict h0 st :
  reachable h0 st ->
  match status st with
  | valid => exists out, parseResult st = Some (SafeParseSuccess out)
  | invalid => exists e, parseResult st = Some (SafeParseError e)
  | parsing => True
  end.
Proof.
  induction 1 as [st Hwf Hv Hu|st a st' Hr IH Hs].
  - by apply useFormComponent_inv in Hu as (hv & _ & ->).
  - destruct Hs; simpl; try done.
    + unfold resolve in *. destruct (inflight st !! i) as [r|]; [|done].
      match goal with H : Some _ = Some _ |- _ => injection H as <- end.
      destruct r; simpl; eauto.
    + unfold UseFormComponent.submit. destruct (safeParse _ _ _); simpl; [done|].
      by destruct (mutateDisplayErrorsOnError options).
    + unfold UseFormComponent.reset. simpl. by destruct (Object_assign _ _ _) as [[??]|].
Qed.

(** The heap of a component stays closed, and [input] stays in it. *)
Lemma reachable_heap_closed h0 st :
  reachable h0 st -> heap_closed (heap st) /\ input < length (heap st).
Proof.
  intros Hr. split.
  - induction Hr as [st Hwf Hin Hu|st a st' Hr IH Hs].
    + apply useFormComponent_inv in Hu as ([h' v'] & Hd & ->). simpl.
      apply deepClone_inv in Hd as (t & j & _ & _ & Ha).
      by destruct (alloc_heap_closed _ _ _ _ Ha (wf_heap_closed _ Hwf)).
    + destruct (reachable_snapshot_ok _ _ Hr) as (s & so & [_ _ _ _ _ [o [Ho _]]]).
      apply lookup_lt_Some in Ho.
      destruct Hs; simpl; try done.
      * eapply write_heap_closed; [exact IH| |done|done|done]. simpl. lia.
      * unfold resolve in *. destruct (inflight st !! i); [|done].
        match goal with H : Some _ = Some _ |- _ => injection H as <- end. done.
      * unfold UseFormComponent.submit. destruct (safeParse _ _ _); simpl; [done|].
        by destruct (mutateDisplayErrorsOnError options).
      * unfold UseFormComponent.reset. simpl.
        destruct (Object_assign _ _ _) as [[h' c]|] eqn:Ha; simpl; [|done].
        by eapply Object_assign_heap_closed.
  - destruct (reachable_snapshot_ok _ _ Hr) as (s & so & [_ _ _ _ _ [o [Ho _]]]).
    by eapply lookup_lt_Some.
Qed.

(** While validations do not overlap and no run of the watcher is queued,
    the validation in flight, or else [parseResult], is that of the data as
    they are. *)
Lemma serial_current h0 st :
  serial h0 st -> mounted st = true -> queued st = false ->
  match inflight st with
  | [] => parseResult st = Some (safeParseAsync schema (heap st) (VRef input)) /\
          status st = (if success (safeParseAsync schema (heap st) (VRef input))
                       then valid else invalid)
  | r :: _ => r = safeParseAsync schema (heap st) (VRef input)
  end.
Proof.
  induction 1 as [st _ _ Hu|st a st' Hser IH Hs Hw].
  - by apply useFormComponent_inv in Hu as (hv & _ & ->).
  - destruct (reachable_heap_closed _ _ (serial_reachable _ _ Hser)) as [Hc Hin].
    destruct Hs as [st Hmnt|st l k e h' changed Hreach Hrhs Hwr|st Hq0|st i st' Hres|st b|st|st|st];
      simpl.
    + intros _ _. by rewrite (Hw eq_refl).
    + intros Hm Hq. rewrite Hm in Hq. apply orb_false_iff in Hq as [Hq Hch].
      simpl in Hch. subst changed.
      destruct (write_heap_closed _ (VRef input) _ _ _ _ _ Hc ltac:(simpl; lia)
                  Hreach Hrhs Hwr) as [_ Hsame].
      rewrite (Hsame eq_refl). by apply IH.
    + intros _ _. by rewrite (Hw eq_refl).
    + unfold resolve in Hres. destruct (inflight st !! i) as [r|] eqn:Hi; [|done].
      injection Hres as <-. simpl.
      intros Hm Hq. specialize (IH Hm Hq).
      destruct (serial_parsing _ _ Hser) as [Hf|[_ Hf]]; [by rewrite Hf in Hi|].
      destruct (inflight st) as [|r0 [|r1 l]]; try done.
      destruct i as [|i]; [|by destruct i]. injection Hi as ->. by subst r.
    + done.
    + unfold UseFormComponent.submit. destruct (safeParse _ _ _); simpl; [done|].
      by destruct (mutateDisplayErrorsOnError options).
    + unfold UseFormComponent.reset. simpl.
      destruct (Object_assign _ _ _) as [[h' c]|] eqn:Ha; simpl; [|done].
      intros Hm Hq. rewrite Hm in Hq. apply orb_false_iff in Hq as [Hq Hch].
      simpl in Hch. subst c.
      destruct (Object_assign_heap_closed _ _ _ _ _ Hc Ha) as [_ Hsame].
      rewrite (Hsame eq_refl). by apply IH.
    + done.
Qed.

End async.
End UseFormComponentFacts.

(** * The demo forms are reachable *)

Module DemoFacts.
Import Zod JS Caller JSFacts.

Lemma untyped_reachable :
  UseForm.reachable Demo.safeParse (VRef 0) Demo.onSubmit Demo.empty_name Demo.untyped.
Proof. apply UseForm.reachable_init; reflexivity. Qed.

Lemma typed_step :
  UseForm.step Demo.safeParse (VRef 0) Demo.onSubmit Demo.untyped
    (UseForm.Assign 1 (KStr "name") (Lit (TStr "Bob"))) Demo.typed.
Proof.
  exact (UseForm.step_assign Demo.safeParse (VRef 0) Demo.onSubmit Demo.untyped
           1 (KStr "name") (Lit (TStr "Bob"))
           (Demo.empty_name ++ [Obj [("name", VStr "Bob")]]) true
           (reach_here _ 1) I eq_refl).
Qed.

Lemma typed_reachable :
  UseForm.reachable Demo.safeParse (VRef 0) Demo.onSubmit Demo.empty_name Demo.typed.
Proof.
  eapply UseForm.reachable_step; [exact untyped_reachable|exact typed_step].
Qed.


Lemma constructed_reachable :
  UseFormComponent.reachable Demo.schema 0 Demo.onSubmitCallback None Demo.bob
    Demo.constructed.
Proof. apply UseFormComponent.reachable_init; [reflexivity|simpl; lia|reflexivity]. Qed.

Lemma mounted_serial :
  UseFormComponent.serial Demo.schema 0 Demo.onSubmitCallback None Demo.bob
    (UseFormComponent.mount Demo.schema 0 Demo.constructed).
Proof.
  eapply UseFormComponent.serial_step.
  - apply UseFormComponent.serial_init with (st := Demo.constructed);
      [reflexivity|simpl; lia|reflexivity].
  - by apply UseFormComponent.step_mount.
  - reflexivity.
Qed.

Lemma mounted_resolves :
  UseFormComponent.step Demo.schema 0 Demo.onSubmitCallback None
    (UseFormComponent.mount Demo.schema 0 Demo.constructed) (UseFormComponent.Resolve 0)
    (UseFormComponent.resume (SafeParseSuccess (TObj [("name", TStr "Bob")]))
       (UseFormComponent.set_inflight []
          (UseFormComponent.mount Demo.schema 0 Demo.constructed))).
Proof. apply UseFormComponent.step_resolve. reflexivity. Qed.

Lemma extended_reachable :
  UseFormComponent.reachable Demo.schema 0 Demo.onSubmitCallback None Demo.bob Demo.extended.
Proof.
  eapply UseFormComponent.reachable_step; [exact constructed_reachable|].
  exact (UseFormComponent.step_assign Demo.schema 0 Demo.onSubmitCallback None
           Demo.constructed 0 (KStr "age") (Lit (TNum 42))
           [Obj [("name", VStr "Bob"); ("nick", VUndefined); ("age", VNum 42)];
            Obj [("name", VStr "Bob")]]
           true (reach_here _ 0) I eq_refl).
Qed.

Lemma overlapping_reachable :
  UseFormComponent.reachable Demo.schema 0 Demo.onSubmitCallback None Demo.bob
    Demo.overlapping.
Proof.
  pose (st1 := UseFormComponent.mount Demo.schema 0 Demo.constructed).
  pose (h2 := [Obj [("name", VStr ""); ("nick", VUndefined)]; Obj [("name", VStr "Bob")]]).
  pose (st2 := UseFormComponent.trigger true (UseFormComponent.set_heap h2 st1)).
  assert (H1 : UseFormComponent.reachable Demo.schema 0 Demo.onSubmitCallback None Demo.bob st1).
  { eapply UseFormComponent.reachable_step; [exact constructed_reachable|].
    by apply UseFormComponent.step_mount. }
  assert (H2 : UseFormComponent.reachable Demo.schema 0 Demo.onSubmitCallback None Demo.bob st2).
  { eapply UseFormComponent.reachable_step; [exact H1|].
    exact (UseFormComponent.step_assign Demo.schema 0 Demo.onSubmitCallback None st1
             0 (KStr "name") (Lit (TStr "")) h2 true (reach_here _ 0) I eq_refl). }
  change Demo.overlapping with (UseFormComponent.flush Demo.schema 0 st2).
  eapply UseFormComponent.reachable_step; [exact H2|].
  by apply UseFormComponent.step_flush.
Qed.

Lemma nested_reachable :
  UseFormComponent.reachable Demo.schema 1 Demo.onSubmitCallback None Demo.profile
    Demo.nested.
Proof. apply UseFormComponent.reachable_init; [reflexivity|simpl; lia|reflexivity]. Qed.

Lemma renamed_reachable :
  UseFormComponent.reachable Demo.schema 1 Demo.onSubmitCallback None Demo.profile
    Demo.renamed.
Proof.
  pose (st1 := fst (UseFormComponent.reset 1 Demo.nested)).
  assert (H1 : UseFormComponent.reachable Demo.schema 1 Demo.onSubmitCallback None
                 Demo.profile st1).
  { eapply UseFormComponent.reachable_step; [exact nested_reachable|].
    apply UseFormComponent.step_reset. }
  eapply UseFormComponent.reachable_step; [exact H1|].
  exact (UseFormComponent.step_assign Demo.schema 1 Demo.onSubmitCallback None st1
           2 (KStr "name") (Lit (TStr "Eve"))
           [Obj [("name", VStr "Bob")]; Obj [("profile", VRef 2)];
            Obj [("name", VStr "Eve")]; Obj [("profile", VRef 2)]]
           true
           (reach_via (UseFormComponent.heap st1) 1 (Obj [("profile", VRef 2)]) (VRef 2) 2
              eq_refl (or_introl eq_refl) (reach_here _ 2))
           I eq_refl).
Qed.

Lemma resolved_invalid_reachable :
  UseFormComponent.reachable Demo.schema 0 Demo.onSubmitCallback None Demo.bob
    Demo.resolved_invalid.
Proof.
  assert (H1 := UseFormComponent.reachable_step _ _ _ _ _ _ _ _
                  overlapping_reachable
                  (UseFormComponent.step_resolve Demo.schema 0 Demo.onSubmitCallback None
                     Demo.overlapping 0 _ eq_refl)).
  eapply UseFormComponent.reachable_step; [exact H1|].
  apply UseFormComponent.step_resolve with (i := 0). reflexivity.
Qed.

Lemma validated_serial :
  UseFormComponent.serial Demo.schema 0 Demo.onSubmitCallback None Demo.bob Demo.validated.
Proof.
  eapply UseFormComponent.serial_step; [exact mounted_serial|exact mounted_resolves|done].
Qed.

End DemoFacts.

(** * The claims *)

Import Zod JS Caller JSFacts.

(** ** [submit] of [useForm] *)

Section claims_sync_submit.
Context {Output : Type}.
Variable schema : heap -> val -> SafeParseReturnType Output.
Variable onSubmit : Output -> completion unit.

(** C1.  Synchronous variant: when [schema.safeParse] of the current data
    fails, [submit] does not invoke [onSubmit] (the record of calls is
    unchanged, whatever the callback is), sets [displayErrors] to [true],
    leaves the data (and every other cell) as they are, returns nothing and
    throws nothing. *)
Theorem C1_sync_submit_invalid (st : UseForm.Form Output) (error : ZodError) :
  schema (UseForm.heap st) (UseForm.data st) = SafeParseError error ->
  UseForm.submit schema onSubmit st = (UseForm.set_displayErrors true st, Normal tt) /\
  UseForm.calls (fst (UseForm.submit schema onSubmit st)) = UseForm.calls st /\
  UseForm.displayErrors (fst (UseForm.submit schema onSubmit st)) = true /\
  UseForm.heap (fst (UseForm.submit schema onSubmit st)) = UseForm.heap st /\
  UseForm.data (fst (UseForm.submit schema onSubmit st)) = UseForm.data st /\
  snd (UseForm.submit schema onSubmit st) = Normal tt.
Proof.
  intros Hfail. unfold UseForm.submit. rewrite Hfail. simpl. repeat split.
Qed.

(** C10.  Synchronous variant: the schema being a function of the data
    (the purity the claim assumes), the parse [submit] runs is the computed
    [parseResult]; so [submit] invokes [onSubmit] exactly when [isValid]
    holds, and on [parseResult]'s data. *)
Theorem C10_sync_submit_iff_isValid (st : UseForm.Form Output) :
  schema (UseForm.heap st) (UseForm.data st) = UseForm.parseResult schema st /\
  (UseForm.isValid schema st = true <->
   exists out,
     UseForm.calls (fst (UseForm.submit schema onSubmit st)) = UseForm.calls st ++ [out]) /\
  (forall out,
     UseForm.calls (fst (UseForm.submit schema onSubmit st)) = UseForm.calls st ++ [out] ->
     UseForm.parseResult schema st = SafeParseSuccess out /\
     snd (UseForm.submit schema onSubmit st) = onSubmit out) /\
  (UseForm.isValid schema st = false ->
   UseForm.calls (fst (UseForm.submit schema onSubmit st)) = UseForm.calls st).
Proof.
  unfold UseForm.isValid, UseForm.parseResult, UseForm.submit.
  destruct (schema (UseForm.heap st) (UseForm.data st)) as [out|error]; simpl.
  - split; [done|]. split; [split; [eauto|done]|]. split; [|done].
    intros out' H. apply app_inv_head in H. by injection H as ->.
  - split; [done|]. split.
    + split; [done|]. intros [out H]. rewrite <- (app_nil_r (UseForm.calls st)) in H at 1.
      by apply app_inv_head in H.
    + split; [|done]. intros out H. rewrite <- (app_nil_r (UseForm.calls st)) in H at 1.
      by apply app_inv_head in H.
Qed.

End claims_sync_submit.

(** C1 on the form made on [{ name: '' }]: the parse fails, [submit] leaves
    the form with [displayErrors] set and nothing else changed. *)
Lemma C1_witness :
  Demo.safeParse (UseForm.heap Demo.untyped) (UseForm.data Demo.untyped)
    = SafeParseError Demo.name_required /\
  UseForm.submit Demo.safeParse Demo.onSubmit Demo.untyped
    = (UseForm.set_displayErrors true Demo.untyped, Normal tt).
Proof.
  split; [reflexivity|].
  exact (proj1 (C1_sync_submit_invalid Demo.safeParse Demo.onSubmit Demo.untyped
                  Demo.name_required eq_refl)).
Defined.

(** C10 on the form in which the caller typed a name: [isValid] holds and
    [submit] calls [onSubmit] once. *)
Lemma C10_witness :
  UseForm.isValid Demo.safeParse Demo.typed = true <->
  exists out,
    UseForm.calls (fst (UseForm.submit Demo.safeParse Demo.onSubmit Demo.typed))
    = UseForm.calls Demo.typed ++ [out].
Proof.
  exact (proj1 (proj2 (C10_sync_submit_iff_isValid Demo.safeParse Demo.onSubmit Demo.typed))).
Defined.

(** ** [submit] of [useFormComponent] *)

Section claims_async_submit.
Context {Output R : Type}.
Variable schema : UseFormComponent.Schema Output.
Variable input : loc.
Variable onSubmit : Output -> completion R.
Variable options : option UseFormComponent.Options.

(** C2.  Asynchronous variant: when [schema.safeParse] of the current data
    fails, [submit] throws the validator's error object and does not invoke
    [onSubmit]; it assigns [true] to [displayErrors] exactly when
    [mutateDisplayErrorsOnError] was enabled at construction (otherwise the
    cell keeps its value), so a [displayErrors] that was [false] is [true]
    afterwards if and only if the option is enabled.  When the parse
    succeeds, [submit] invokes [onSubmit] on the output and returns its
    result. *)
Theorem C2_async_submit (st : UseFormComponent.FormComponent Output) :
  let st' := fst (UseFormComponent.submit schema input onSubmit options st) in
  let result := snd (UseFormComponent.submit schema input onSubmit options st) in
  match UseFormComponent.safeParse schema (UseFormComponent.heap st) (VRef input) with
  | SafeParseError error =>
      result = Throw (Thrown error) /\
      UseFormComponent.calls st' = UseFormComponent.calls st /\
      st' = (if UseFormComponent.mutateDisplayErrorsOnError options
             then UseFormComponent.set_displayErrors true st else st) /\
      UseFormComponent.displayErrors st'
        = (UseFormComponent.mutateDisplayErrorsOnError options
           || UseFormComponent.displayErrors st) /\
      (UseFormComponent.displayErrors st = false ->
       (UseFormComponent.displayErrors st' = true <->
        UseFormComponent.mutateDisplayErrorsOnError options = true))
  | SafeParseSuccess out =>
      result = onSubmit out /\
      st' = UseFormComponent.called out st
  end.
Proof.
  unfold UseFormComponent.submit.
  destruct (UseFormComponent.safeParse schema _ _) as [out|error]; simpl; [done|].
  destruct (UseFormComponent.mutateDisplayErrorsOnError options); simpl.
  - by repeat split.
  - repeat split; try done; congruence.
Qed.

End claims_async_submit.

(** C2 on the component whose name was cleared, with the option enabled:
    [submit] throws the error of the parse and sets [displayErrors]. *)
Lemma C2_witness :
  UseFormComponent.submit Demo.schema 0 Demo.onSubmitCallback
    (Some (UseFormComponent.mkOptions None (Some true))) Demo.overlapping
  = (UseFormComponent.set_displayErrors true Demo.overlapping,
     Throw (Thrown Demo.name_required)).
Proof.
  assert (H := C2_async_submit Demo.schema 0 Demo.onSubmitCallback
                 (Some (UseFormComponent.mkOptions None (Some true))) Demo.overlapping).
  cbv zeta in H.
  change (UseFormComponent.safeParse Demo.schema (UseFormComponent.heap Demo.overlapping)
            (VRef 0)) with (@SafeParseError tree Demo.name_required) in H.
  destruct H as (H1 & _ & H2 & _).
  rewrite (surjective_pairing (UseFormComponent.submit _ _ _ _ _)).
  rewrite H1, H2. reflexivity.
Defined.

(** ** [getErrors] *)

Section claims_getErrors.
Context {Output : Type}.
Variable Number_toString : number -> string.
Variable schema : heap -> val -> SafeParseReturnType Output.

(** The filter of the code is the filter of the specification. *)
Lemma getErrors_filter (queried : list seg) (l : list ZodIssue) :
  List.filter (fun error => String.eqb (join Number_toString (path error) ".") (join Number_toString queried ".")) l
  = issues_matching Number_toString queried l.
Proof.
  unfold issues_matching. induction l as [|i l IH]; simpl; [done|].
  rewrite filter_cons. destruct (String.eqb_spec (join Number_toString (path i) ".") (join Number_toString queried ".")).
  - rewrite decide_True by done. by rewrite IH.
  - rewrite decide_False by done. done.
Qed.

(** C3.  When the parse result is a failure, [getErrors(path)] is exactly
    the subsequence of its issues whose path joined with ['.'] equals the
    queried path joined with ['.'], in the original order, in both variants;
    so two queries with the same joined path get the same answer, as
    [getErrors('a.b')] and [getErrors('a', 'b')] do. *)
Theorem C3_getErrors_exact
    (st : UseForm.Form Output) (ast : UseFormComponent.FormComponent Output)
    (error aerror : ZodError) (queried : list seg) :
  UseForm.parseResult schema st = SafeParseError error ->
  UseFormComponent.parseResult ast = Some (SafeParseError aerror) ->
  (UseForm.getErrors Number_toString schema st queried = issues_matching Number_toString queried (issues error) /\
   UseFormComponent.getErrors Number_toString ast queried = issues_matching Number_toString queried (issues aerror)) /\
  (UseForm.getErrors Number_toString schema st queried `sublist_of` issues error /\
   UseFormComponent.getErrors Number_toString ast queried `sublist_of` issues aerror) /\
  (forall i, i ∈ UseForm.getErrors Number_toString schema st queried <->
             i ∈ issues error /\ join Number_toString (path i) "." = join Number_toString queried ".") /\
  (forall i, i ∈ UseFormComponent.getErrors Number_toString ast queried <->
             i ∈ issues aerror /\ join Number_toString (path i) "." = join Number_toString queried ".") /\
  (forall other, join Number_toString other "." = join Number_toString queried "." ->
     UseForm.getErrors Number_toString schema st other = UseForm.getErrors Number_toString schema st queried /\
     UseFormComponent.getErrors Number_toString ast other = UseFormComponent.getErrors Number_toString ast queried) /\
  (UseForm.getErrors Number_toString schema st [SegStr "a.b"]
     = UseForm.getErrors Number_toString schema st [SegStr "a"; SegStr "b"] /\
   UseFormComponent.getErrors Number_toString ast [SegStr "a.b"]
     = UseFormComponent.getErrors Number_toString ast [SegStr "a"; SegStr "b"]).
Proof.
  intros Hs Ha. unfold UseForm.getErrors, UseFormComponent.getErrors, errors.
  rewrite Hs, Ha.
  assert (Hsame : forall p q l, join Number_toString p "." = join Number_toString q "." ->
    List.filter (fun e => String.eqb (join Number_toString (path e) ".") (join Number_toString p ".")) l
    = List.filter (fun e => String.eqb (join Number_toString (path e) ".") (join Number_toString q ".")) l).
  { intros p q l Ho. by rewrite Ho. }
  split; [by rewrite !getErrors_filter|].
  split; [rewrite !getErrors_filter; split; apply sublist_filter|].
  split; [intros i; rewrite getErrors_filter; unfold issues_matching;
          by rewrite list_elem_of_filter, (comm and)|].
  split; [intros i; rewrite getErrors_filter; unfold issues_matching;
          by rewrite list_elem_of_filter, (comm and)|].
  split; [intros other Ho; by rewrite !(Hsame other queried) by done|].
  by rewrite !(Hsame [SegStr "a.b"] [SegStr "a"; SegStr "b"]) by reflexivity.
Qed.

(** C4.  [getErrors(path)] is empty for every path when the parse result is
    a success, in both variants, and in the asynchronous variant also while
    no validation has resolved ([parseResult] is [null]). *)
Theorem C4_getErrors_empty
    (st : UseForm.Form Output) (ast : UseFormComponent.FormComponent Output)
    (queried : list seg) :
  UseForm.isValid schema st = true ->
  (UseFormComponent.parseResult ast = None \/
   exists out, UseFormComponent.parseResult ast = Some (SafeParseSuccess out)) ->
  UseForm.getErrors Number_toString schema st queried = [] /\
  UseFormComponent.getErrors Number_toString ast queried = [].
Proof.
  unfold UseForm.isValid, UseForm.getErrors, UseFormComponent.getErrors.
  intros Hs Ha. split.
  - by destruct (UseForm.parseResult schema st).
  - by destruct Ha as [->|[out ->]].
Qed.

End claims_getErrors.

(** C3 on the form made on [{ name: '' }] and on the component whose last
    validation failed: [getErrors('name')] is the issue on [name]. *)
Lemma C3_witness :
  UseForm.parseResult Demo.safeParse Demo.untyped = SafeParseError Demo.name_required /\
  UseFormComponent.parseResult Demo.resolved_invalid
    = Some (SafeParseError Demo.name_required) /\
  forall Number_toString,
    UseForm.getErrors Number_toString Demo.safeParse Demo.untyped [SegStr "name"]
      = issues_matching Number_toString [SegStr "name"] (issues Demo.name_required) /\
    UseFormComponent.getErrors Number_toString Demo.resolved_invalid [SegStr "name"]
      = issues_matching Number_toString [SegStr "name"] (issues Demo.name_required).
Proof.
  split; [reflexivity|]. split; [reflexivity|]. intros Number_toString.
  exact (proj1 (C3_getErrors_exact Number_toString Demo.safeParse Demo.untyped
                  Demo.resolved_invalid Demo.name_required Demo.name_required
                  [SegStr "name"] eq_refl eq_refl)).
Defined.

(** C4 on the form with a name and on the component before any validation
    resolved. *)
Lemma C4_witness :
  UseForm.isValid Demo.safeParse Demo.typed = true /\
  UseFormComponent.parseResult Demo.constructed = None /\
  forall Number_toString,
    UseForm.getErrors Number_toString Demo.safeParse Demo.typed [SegStr "name"] = [] /\
    UseFormComponent.getErrors Number_toString Demo.constructed [SegStr "name"] = [].
Proof.
  split; [reflexivity|]. split; [reflexivity|]. intros Number_toString.
  exact (C4_getErrors_empty Number_toString Demo.safeParse Demo.typed Demo.constructed
           [SegStr "name"] eq_refl (or_introl eq_refl)).
Defined.

(** ** [reset] *)

(** C5.  [reset] is idempotent, in both variants: from any reachable state
    a second [reset] in succession leaves the data as the first one made
    them (the same value in the synchronous variant, where every [reset]
    makes a new clone; the same heap in the asynchronous one), and after
    each [reset] [displayErrors] is [false] and [changedAt] is [null]. *)
Theorem C5_reset_idempotent {Output Output' R : Type}
    (schema : heap -> val -> SafeParseReturnType Output) (initialData : val)
    (onSubmit : Output -> completion unit)
    (aschema : UseFormComponent.Schema Output') (input : loc)
    (aonSubmit : Output' -> completion R) (options : option UseFormComponent.Options)
    (h0 : heap) (st : UseForm.Form Output)
    (ah0 : heap) (ast : UseFormComponent.FormComponent Output') :
  UseForm.reachable schema initialData onSubmit h0 st ->
  UseFormComponent.reachable aschema input aonSubmit options ah0 ast ->
  (exists st1 st2 j,
     UseForm.reset initialData st = (st1, Normal tt) /\
     UseForm.reset initialData st1 = (st2, Normal tt) /\
     value_of (UseForm.heap st1) (UseForm.data st1) = Normal j /\
     value_of (UseForm.heap st2) (UseForm.data st2) = Normal j /\
     UseForm.displayErrors st1 = false /\ UseForm.changedAt st1 = None /\
     UseForm.displayErrors st2 = false /\ UseForm.changedAt st2 = None) /\
  (exists ast1 ast2,
     UseFormComponent.reset input ast = (ast1, Normal tt) /\
     UseFormComponent.reset input ast1 = (ast2, Normal tt) /\
     UseFormComponent.heap ast2 = UseFormComponent.heap ast1 /\
     UseFormComponent.displayErrors ast1 = false /\ UseFormComponent.changedAt ast1 = None /\
     UseFormComponent.displayErrors ast2 = false /\ UseFormComponent.changedAt ast2 = None).
Proof.
  intros Hr Har. split.
  - destruct (UseFormFacts.reachable_initial _ _ _ _ _ Hr) as (_ & t & j & Ht & Hj).
    destruct (UseFormFacts.reset_clones_again _ _ _ _ _ _ _ Hr Ht Hj) as (h1 & v1 & Hr1 & Hv1).
    assert (Hr' : UseForm.reachable schema initialData onSubmit h0
                    (fst (UseForm.reset initialData st))).
    { eapply UseForm.reachable_step; [exact Hr|apply UseForm.step_reset]. }
    rewrite Hr1 in Hr'. simpl in Hr'.
    destruct (UseFormFacts.reset_clones_again _ _ _ _ _ _ _ Hr' Ht Hj) as (h2 & v2 & Hr2 & Hv2).
    eexists _, _, j. split; [exact Hr1|]. split; [exact Hr2|]. by repeat split.
  - destruct (UseFormComponentFacts.reset_assigns_snapshot _ _ _ _ _ _ Har)
      as (so & h1 & c & _ & _ & Hr1 & Hidem & _).
    eexists _, _. split; [exact Hr1|].
    split; [unfold UseFormComponent.reset; simpl; rewrite Hidem; reflexivity|].
    by repeat split.
Qed.

(** C5 on the form in which the caller typed a name and on the component
    with two validations in flight. *)
Lemma C5_witness :
  UseForm.reachable Demo.safeParse (VRef 0) Demo.onSubmit Demo.empty_name Demo.typed /\
  UseFormComponent.reachable Demo.schema 0 Demo.onSubmitCallback None Demo.bob
    Demo.overlapping /\
  (exists st1 st2 j,
     UseForm.reset (VRef 0) Demo.typed = (st1, Normal tt) /\
     UseForm.reset (VRef 0) st1 = (st2, Normal tt) /\
     value_of (UseForm.heap st1) (UseForm.data st1) = Normal j /\
     value_of (UseForm.heap st2) (UseForm.data st2) = Normal j /\
     UseForm.displayErrors st1 = false /\ UseForm.changedAt st1 = None /\
     UseForm.displayErrors st2 = false /\ UseForm.changedAt st2 = None) /\
  (exists ast1 ast2,
     UseFormComponent.reset 0 Demo.overlapping = (ast1, Normal tt) /\
     UseFormComponent.reset 0 ast1 = (ast2, Normal tt) /\
     UseFormComponent.heap ast2 = UseFormComponent.heap ast1 /\
     UseFormComponent.displayErrors ast1 = false /\ UseFormComponent.changedAt ast1 = None /\
     UseFormComponent.displayErrors ast2 = false /\ UseFormComponent.changedAt ast2 = None).
Proof.
  split; [exact DemoFacts.typed_reachable|]. split; [exact DemoFacts.overlapping_reachable|].
  exact (C5_reset_idempotent Demo.safeParse (VRef 0) Demo.onSubmit
           Demo.schema 0 Demo.onSubmitCallback None
           Demo.empty_name Demo.typed Demo.bob Demo.overlapping
           DemoFacts.typed_reachable DemoFacts.overlapping_reachable).
Defined.

(** ** The clone of [useForm] *)




(** ** [changedAt] *)

(** C7 at the failing input: after [data.value.name = 'Bob'] on the form
    made on [{ name: '' }], the data have changed and [changedAt] is still
    [null], [hasChanged] still [false]. *)
Example C7_changedAt_not_assigned :
  UseForm.useForm (VRef 0) Demo.empty_name = Normal Demo.untyped /\
  UseForm.step Demo.safeParse (VRef 0) Demo.onSubmit Demo.untyped
    (UseForm.Assign 1 (KStr "name") (Lit (TStr "Bob"))) Demo.typed /\
  value_of (UseForm.heap Demo.untyped) (UseForm.data Demo.untyped)
    = Normal (TObj [("name", TStr "")]) /\
  value_of (UseForm.heap Demo.typed) (UseForm.data Demo.typed)
    = Normal (TObj [("name", TStr "Bob")]) /\
  UseForm.changedAt Demo.typed = None /\
  UseForm.hasChanged Demo.typed = false.
Proof.
  split; [reflexivity|]. split; [exact DemoFacts.typed_step|]. by repeat split.
Qed.

(** ** [status] of [useFormComponent] *)

Section claims_status.
Context {Output R : Type}.
Variable schema : UseFormComponent.Schema Output.
Variable input : loc.
Variable onSubmit : Output -> completion R.
Variable options : option UseFormComponent.Options.

Import UseFormComponent.

(** C8, as the code has it.  Asynchronous variant: [status] is [parsing]
    from construction on, and stays so until the component is mounted.  A
    run of the watcher (the immediate one at mount; the queued one, which a
    change below [input] made after mounting schedules, also the change
    [reset] makes) sets it to [parsing]; the resumption of an awaited
    [safeParseAsync] sets it to [valid] or [invalid] by the result; nothing
    else changes it.  As long as validations do not overlap, every change of
    [status] starts or ends in [parsing]. *)
Theorem C8_status_transitions (h0 : JS.heap) (st st' : FormComponent Output) (a : action) :
  UseFormComponent.reachable schema input onSubmit options h0 st ->
  UseFormComponent.step schema input onSubmit options st a st' ->
  (forall st0, UseFormComponent.useFormComponent input options h0 = Normal st0 ->
     status (Output := Output) st0 = parsing /\ mounted st0 = false) /\
  (mounted st = false -> status st = parsing) /\
  match a with
  | Mount => status st' = parsing /\ mounted st' = true
  | Flush => queued st = true /\ status st' = parsing /\ queued st' = false
  | Resolve i =>
      exists r, inflight st !! i = Some r /\
        status st' = (if success r then valid else invalid) /\
        parseResult st' = Some r
  | Assign l k e =>
      status st' = status st /\
      exists h' changed, write (heap st) l k e = Some (h', changed) /\
        queued st' = (queued st || (mounted st && changed))
  | Reset =>
      status st' = status st /\
      exists h' changed,
        Object_assign (heap st) input (initialInput st) = Some (h', changed) /\
        queued st' = (queued st || (mounted st && changed))
  | _ => status st' = status st
  end /\
  (UseFormComponent.serial schema input onSubmit options h0 st ->
   (runs_watcher a = true -> inflight st = []) ->
   status st' <> status st -> status st = parsing \/ status st' = parsing).
Proof.
  intros Hr Hs. split.
  { intros st0 Hu. by apply UseFormComponentFacts.useFormComponent_inv in Hu as (hv & _ & ->). }
  split; [intros Hm; by apply (UseFormComponentFacts.unmounted_parsing _ _ _ _ _ _ Hr Hm)|].
  destruct Hs; simpl.
  - split; [done|]. intros _ _ _. by right.
  - split; [eauto|]. intros _ _ Hne. done.
  - split; [done|]. intros _ _ _. by right.
  - unfold resolve in *. destruct (inflight st !! i) as [r|] eqn:Hi; [|done].
    match goal with H : Some _ = Some _ |- _ => injection H as <- end. simpl.
    split; [eauto|]. intros Hser _ _. left.
    destruct (UseFormComponentFacts.serial_parsing _ _ _ _ _ _ Hser) as [Hf|[Hp _]]; [|done].
    by rewrite Hf in Hi.
  - split; [done|]. intros _ _ Hne. done.
  - unfold UseFormComponent.submit. destruct (safeParse _ _ _); simpl.
    + split; [done|]. intros _ _ Hne. done.
    + destruct (mutateDisplayErrorsOnError options); simpl; (split; [done|]);
        intros _ _ Hne; done.
  - destruct (UseFormComponentFacts.reset_assigns_snapshot _ _ _ _ _ _ Hr)
      as (so & h1 & c & _ & Ha & Hr1 & _).
    rewrite Hr1. simpl. split; [eauto|]. intros _ _ Hne. done.
  - split; [done|]. intros _ _ Hne. done.
Qed.

End claims_status.

(** C8 as stated fails: on the component with two validations in flight
    the first resolves (a success: [valid]) and then the second (a
    failure): [status] goes from [valid] to [invalid] with no [parsing] in
    between. *)
Lemma C8_counterexample :
  exists st st',
    UseFormComponent.reachable Demo.schema 0 Demo.onSubmitCallback None Demo.bob st /\
    UseFormComponent.step Demo.schema 0 Demo.onSubmitCallback None st
      (UseFormComponent.Resolve 0) st' /\
    UseFormComponent.status st = UseFormComponent.valid /\
    UseFormComponent.status st' = UseFormComponent.invalid /\
    st' = Demo.resolved_invalid.
Proof.
  assert (H1 := UseFormComponent.reachable_step _ _ _ _ _ _ _ _
                  DemoFacts.overlapping_reachable
                  (UseFormComponent.step_resolve Demo.schema 0 Demo.onSubmitCallback None
                     Demo.overlapping 0 _ eq_refl)).
  eexists _, _. split; [exact H1|].
  split; [apply UseFormComponent.step_resolve; reflexivity|].
  split; [reflexivity|]. split; reflexivity.
Qed.

(** C8 on the mounted component, whose only validation in flight resolves:
    [status] goes from [parsing] to [valid]. *)
Lemma C8_witness :
  UseFormComponent.reachable Demo.schema 0 Demo.onSubmitCallback None Demo.bob
    (UseFormComponent.mount Demo.schema 0 Demo.constructed) /\
  UseFormComponent.step Demo.schema 0 Demo.onSubmitCallback None
    (UseFormComponent.mount Demo.schema 0 Demo.constructed) (UseFormComponent.Resolve 0)
    (UseFormComponent.resume (SafeParseSuccess (TObj [("name", TStr "Bob")]))
       (UseFormComponent.set_inflight []
          (UseFormComponent.mount Demo.schema 0 Demo.constructed))) /\
  UseFormComponent.serial Demo.schema 0 Demo.onSubmitCallback None Demo.bob
    (UseFormComponent.mount Demo.schema 0 Demo.constructed) /\
  exists r,
    UseFormComponent.inflight (UseFormComponent.mount Demo.schema 0 Demo.constructed) !! 0
      = Some r /\
    UseFormComponent.status
      (UseFormComponent.resume (SafeParseSuccess (TObj [("name", TStr "Bob")]))
         (UseFormComponent.set_inflight []
            (UseFormComponent.mount Demo.schema 0 Demo.constructed)))
    = (if success r then UseFormComponent.valid else UseFormComponent.invalid) /\
    UseFormComponent.parseResult
      (UseFormComponent.resume (SafeParseSuccess (TObj [("name", TStr "Bob")]))
         (UseFormComponent.set_inflight []
            (UseFormComponent.mount Demo.schema 0 Demo.constructed)))
    = Some r.
Proof.
  assert (Hr := UseFormComponentFacts.serial_reachable _ _ _ _ _ _ DemoFacts.mounted_serial).
  split; [exact Hr|]. split; [exact DemoFacts.mounted_resolves|].
  split; [exact DemoFacts.mounted_serial|].
  exact (proj1 (proj2 (proj2 (C8_status_transitions Demo.schema 0 Demo.onSubmitCallback None
                                Demo.bob _ _ _ Hr DemoFacts.mounted_resolves)))).
Defined.

(** ** [reset] of [useFormComponent] and the keys of the snapshot *)

(** C9.  Asynchronous variant: [reset] copies the properties of the
    snapshot onto the object at [input], which stays where it is: afterwards
    every key of the snapshot has the snapshot's value in that object.  The
    snapshot and every other object are left as they are.  A key the snapshot
    does not have keeps the value it has: a key added after construction
    survives [reset], so the object does not get back the snapshot's state
    for it. *)
Theorem C9_async_reset_keeps_added_keys {Output R : Type}
    (schema : UseFormComponent.Schema Output) (input : loc)
    (onSubmit : Output -> completion R) (options : option UseFormComponent.Options)
    (h0 : heap) (st : UseFormComponent.FormComponent Output) :
  UseFormComponent.reachable schema input onSubmit options h0 st ->
  exists s snapshot o o' st',
    UseFormComponent.initialInput st = VRef s /\
    UseFormComponent.heap st !! s = Some snapshot /\
    UseFormComponent.heap st !! input = Some o /\
    UseFormComponent.reset input st = (st', Normal tt) /\
    UseFormComponent.heap st' !! input = Some o' /\
    (forall k v, obj_get snapshot k = Some v -> obj_get o' k = Some v) /\
    (forall l, l <> input -> UseFormComponent.heap st' !! l = UseFormComponent.heap st !! l) /\
    (forall k, obj_get snapshot k = None -> obj_get o' k = obj_get o k) /\
    (forall k v, obj_get snapshot k = None -> obj_get o k = Some v ->
       obj_get o' k = Some v /\ obj_get o' k <> obj_get snapshot k).
Proof.
  intros Hr.
  destruct (UseFormComponentFacts.reset_assigns_snapshot _ _ _ _ _ _ Hr)
    as (so & h1 & c & Hok & Ha & Hr1 & _ & Hk & Hl).
  destruct Hok as [Hsnap Hne Hso Hd _ [o [Ho _]]].
  destruct (Object_assign_copies _ _ _ _ _ _ _ _ Hsnap (not_eq_sym Hne) Ho Hso Hd Ha)
    as (_ & o' & Ho' & Hcopy).
  eexists _, so, o, o', _. split; [exact Hsnap|]. split; [done|]. split; [done|].
  split; [exact Hr1|]. split; [done|]. split; [done|]. split; [done|].
  split; [intros k Hk0; exact (Hk _ _ Ho Ho' k Hk0)|].
  intros k v Hk0 Hv. rewrite (Hk _ _ Ho Ho' k Hk0), Hv, Hk0. done.
Qed.

(** C9 on the component to which the caller added [age: 42]. *)
Lemma C9_witness :
  UseFormComponent.reachable Demo.schema 0 Demo.onSubmitCallback None Demo.bob
    Demo.extended /\
  exists s snapshot o o' st',
    UseFormComponent.initialInput Demo.extended = VRef s /\
    UseFormComponent.heap Demo.extended !! s = Some snapshot /\
    UseFormComponent.heap Demo.extended !! 0 = Some o /\
    UseFormComponent.reset 0 Demo.extended = (st', Normal tt) /\
    UseFormComponent.heap st' !! 0 = Some o' /\
    (forall k v, obj_get snapshot k = Some v -> obj_get o' k = Some v) /\
    (forall l, l <> 0 ->
       UseFormComponent.heap st' !! l = UseFormComponent.heap Demo.extended !! l) /\
    (forall k, obj_get snapshot k = None -> obj_get o' k = obj_get o k) /\
    (forall k v, obj_get snapshot k = None -> obj_get o k = Some v ->
       obj_get o' k = Some v /\ obj_get o' k <> obj_get snapshot k).
Proof.
  split; [exact DemoFacts.extended_reachable|].
  exact (C9_async_reset_keeps_added_keys Demo.schema 0 Demo.onSubmitCallback None
           Demo.bob Demo.extended DemoFacts.extended_reachable).
Defined.

(** On that component [reset] keeps [age: 42], which the snapshot taken at
    construction does not have: the data are not those of construction. *)
Example reset_keeps_age :
  UseFormComponent.heap (fst (UseFormComponent.reset 0 Demo.extended)) !! 0
  = Some (Obj [("name", VStr "Bob"); ("nick", VUndefined); ("age", VNum 42)]) /\
  snd (UseFormComponent.reset 0 Demo.extended) = Normal tt /\
  value_of (UseFormComponent.heap (fst (UseFormComponent.reset 0 Demo.extended))) (VRef 0)
  <> value_of (UseFormComponent.heap Demo.constructed) (VRef 0).
Proof. split; [reflexivity|]. split; [reflexivity|]. discriminate. Qed.

(** * Further properties *)

(** [deepClone] returns or throws on every value of a well-formed heap: the
    walk of [JSON.stringify] always ends (a cycle ends it with the
    [TypeError]). *)
Theorem deepClone_returns_or_throws (h : heap) (v : val) :
  wf_heap h = true -> val_ok (length h) v = true ->
  (exists hv, UseForm.deepClone h v = Normal hv) \/
  (exists e, UseForm.deepClone h v = Throw e).
Proof.
  intros Hwf Hv. assert (H := deepClone_total h v Hwf Hv).
  destruct (UseForm.deepClone h v) as [hv|e|]; [left; eauto|right; eauto|done].
Qed.

(** On [{ name: 'Bob', nick: undefined }] the clone is returned. *)
Lemma deepClone_returns_witness :
  wf_heap Demo.bob = true /\ val_ok (length Demo.bob) (VRef 0) = true /\
  ((exists hv, UseForm.deepClone Demo.bob (VRef 0) = Normal hv) \/
   (exists e, UseForm.deepClone Demo.bob (VRef 0) = Throw e)).
Proof.
  split; [reflexivity|]. split; [reflexivity|].
  exact (deepClone_returns_or_throws Demo.bob (VRef 0) eq_refl eq_refl).
Defined.

(** Asynchronous variant: [reset] assigns the nested objects of the
    snapshot by reference.  After one [reset] the data share them with the
    snapshot, so [input.profile.name = 'Eve'] changes the snapshot too, and
    the next [reset] leaves ['Eve'] where construction had ['Bob']. *)
Example async_reset_shares_nested_objects :
  UseFormComponent.reachable Demo.schema 1 Demo.onSubmitCallback None Demo.profile
    Demo.renamed /\
  value_of Demo.profile (VRef 1) = Normal (TObj [("profile", TObj [("name", TStr "Bob")])]) /\
  snd (UseFormComponent.reset 1 Demo.renamed) = Normal tt /\
  value_of (UseFormComponent.heap (fst (UseFormComponent.reset 1 Demo.renamed))) (VRef 1)
    = Normal (TObj [("profile", TObj [("name", TStr "Eve")])]) /\
  value_of (UseFormComponent.heap (fst (UseFormComponent.reset 1 Demo.renamed)))
           (UseFormComponent.initialInput Demo.renamed)
    = Normal (TObj [("profile", TObj [("name", TStr "Eve")])]).
Proof.
  split; [exact DemoFacts.renamed_reachable|]. by repeat split.
Qed.

(** ** [deepClone] *)

(** X3.  What [deepClone] does with data [JSON.stringify] cannot write,
    on a value of a well-formed heap: when an object that contains itself
    (directly or through other objects) is reachable from the argument, it
    throws the [TypeError] of [JSON.stringify]; when the argument is
    [undefined], it throws the [SyntaxError] of [JSON.parse]; so a call that
    returns was made on an argument that is neither. *)
Theorem deepClone_throws_on_cycle_or_undefined (h : heap) (v : val) :
  wf_heap h = true -> val_ok (length h) v = true ->
  (cyclic h v -> UseForm.deepClone h v = Throw (TypeError "cyclic object value")) /\
  (v = VUndefined ->
   UseForm.deepClone h v = Throw (SyntaxError "undefined is not valid JSON")) /\
  (forall hv, UseForm.deepClone h v = Normal hv -> ~ cyclic h v /\ v <> VUndefined).
Proof.
  intros Hwf Hv.
  destruct (deepClone_cases h v Hwf Hv)
    as [(Hc & Hu & Hd)|[(Hc & Hu & Hd)|(Hc & Hu & hv & Hd)]]; rewrite Hd.
  - split; [done|]. split; [done|]. by intros hv.
  - split; [done|]. split; [done|]. by intros hv.
  - split; [done|]. split; [done|]. by intros hv' _.
Qed.

(** On the object that holds itself, [deepClone] throws the [TypeError]. *)
Lemma deepClone_throws_witness :
  wf_heap Demo.selfref = true /\ val_ok (length Demo.selfref) (VRef 0) = true /\
  cyclic Demo.selfref (VRef 0) /\
  UseForm.deepClone Demo.selfref (VRef 0) = Throw (TypeError "cyclic object value").
Proof.
  assert (Hc : cyclic Demo.selfref (VRef 0)).
  { exists 0. split; [constructor|].
    exists (Obj [("self", VRef 0)]), (VRef 0).
    split; [reflexivity|]. split; [by left|constructor]. }
  split; [reflexivity|]. split; [reflexivity|]. split; [exact Hc|].
  exact (proj1 (deepClone_throws_on_cycle_or_undefined Demo.selfref (VRef 0)
                  eq_refl eq_refl) Hc).
Defined.

(** X4.  The clone shares nothing with its source: [deepClone] leaves every
    object of the heap as it was, every object reachable from the clone was
    created by the call, every object reachable from the argument existed
    before it, and the argument still reads as the same value. *)
Theorem deepClone_shares_nothing (h : heap) (v : val) (h' : heap) (v' : val) :
  UseForm.deepClone h v = Normal (h', v') ->
  sub_heap h h' /\
  (forall l, reach h' v' l -> length h <= l) /\
  (forall l, reach h v l -> l < length h) /\
  (forall l, reach h' v' l -> ~ reach h v l) /\
  value_of h' v = value_of h v.
Proof.
  intros Hd. destruct (deepClone_fresh _ _ _ _ Hd) as ([ext ->] & Hc & Ho).
  apply deepClone_inv in Hd as (t & j & Ht & _ & _).
  assert (Hold : forall l, reach h v l -> l < length h).
  { intros l Hr. by eapply unfold_Normal_in_heap. }
  split; [apply sub_heap_app|]. split; [intros l Hr; by eapply reach_owned|].
  split; [done|]. split.
  - intros l Hr Hr'. apply Hold in Hr'. eapply reach_owned in Hr; [|done|done]. lia.
  - rewrite Ht. by apply value_of_app.
Qed.

(** The clone of [{ name: 'Bob', nick: undefined }] is the new object at
    location 1. *)
Lemma deepClone_shares_nothing_witness :
  UseForm.deepClone Demo.bob (VRef 0)
  = Normal (Demo.bob ++ [Obj [("name", VStr "Bob")]], VRef 1) /\
  (forall l, reach (Demo.bob ++ [Obj [("name", VStr "Bob")]]) (VRef 1) l ->
             ~ reach Demo.bob (VRef 0) l).
Proof.
  split; [reflexivity|].
  exact (proj1 (proj2 (proj2 (proj2
    (deepClone_shares_nothing Demo.bob (VRef 0) _ (VRef 1) eq_refl))))).
Defined.

(** X5.  The value of the clone: what [JSON.stringify] writes for the value
    of the argument, which is the value of the argument when that is
    JSON-safe.  The clone is JSON-safe, so cloning it again gives a clone of
    the same value: only the first round trip can lose anything. *)
Theorem deepClone_value_idempotent (h : heap) (v : val) (h' : heap) (v' : val) :
  wf_heap h = true ->
  UseForm.deepClone h v = Normal (h', v') ->
  exists t j,
    value_of h v = Normal t /\ to_json t = Some j /\
    value_of h' v' = Normal j /\ json_safe j /\ (json_safe t -> j = t) /\
    exists h'' v'', UseForm.deepClone h' v' = Normal (h'', v'') /\
      value_of h'' v'' = Normal j.
Proof.
  intros Hwf Hd. destruct (deepClone_inv _ _ _ Hd) as (t & j & Ht & Hj & _).
  assert (Hdk : distinct_keys t = true).
  { eapply unfold_distinct_keys; [by apply wf_heap_distinct|exact Ht]. }
  destruct (deepClone_spec h v t j Hdk Ht Hj) as (h1 & v1 & Hd1 & _ & _ & Hv1).
  rewrite Hd in Hd1. injection Hd1 as <- <-.
  assert (Hjj : to_json j = Some j) by (by eapply to_json_idem).
  exists t, j. split; [done|]. split; [done|]. split; [done|]. split; [done|].
  split; [unfold json_safe; congruence|].
  destruct (deepClone_spec h' v' j j) as (h2 & v2 & Hd2 & _ & _ & Hv2);
    [by eapply to_json_distinct_keys|done|done|].
  eauto.
Qed.

(** [{ name: 'Bob', nick: undefined }] loses [nick] in the first clone. *)
Lemma deepClone_value_idempotent_witness :
  wf_heap Demo.bob = true /\
  UseForm.deepClone Demo.bob (VRef 0)
  = Normal (Demo.bob ++ [Obj [("name", VStr "Bob")]], VRef 1) /\
  exists t j,
    value_of Demo.bob (VRef 0) = Normal t /\ to_json t = Some j /\
    value_of (Demo.bob ++ [Obj [("name", VStr "Bob")]]) (VRef 1) = Normal j /\
    json_safe j /\ (json_safe t -> j = t) /\
    exists h'' v'',
      UseForm.deepClone (Demo.bob ++ [Obj [("name", VStr "Bob")]]) (VRef 1)
      = Normal (h'', v'') /\
      value_of h'' v'' = Normal j.
Proof.
  split; [reflexivity|]. split; [reflexivity|].
  exact (deepClone_value_idempotent Demo.bob (VRef 0) _ (VRef 1) eq_refl eq_refl).
Defined.

(** ** [useForm] *)

(** X6.  A form made by [useForm] is validated before anything is
    submitted: for a schema that is a function of the value of the data,
    [parseResult] right after construction, and right after every [reset],
    is the schema's result on what [JSON.stringify] writes for
    [initialData]; when [initialData] is JSON-safe, [isValid] at
    construction is the schema's verdict on [initialData] itself.  The other
    cells start as [false], [null] and no call. *)
Theorem useForm_validates_round_trip {Output : Type}
    (parse : completion tree -> SafeParseReturnType Output)
    (initialData : val) (onSubmit : Output -> completion unit)
    (h0 : heap) (t j : tree) :
  wf_heap h0 = true -> value_of h0 initialData = Normal t -> to_json t = Some j ->
  exists st0, UseForm.useForm initialData h0 = Normal st0 /\
    UseForm.displayErrors st0 = false /\ UseForm.changedAt st0 = None /\
    UseForm.calls st0 = [] /\
    UseForm.parseResult (fun h v => parse (value_of h v)) st0 = parse (Normal j) /\
    (json_safe t ->
     UseForm.isValid (fun h v => parse (value_of h v)) st0
     = success (parse (value_of h0 initialData))) /\
    forall st,
      UseForm.reachable (fun h v => parse (value_of h v)) initialData onSubmit h0 st ->
      exists st', UseForm.reset initialData st = (st', Normal tt) /\
        UseForm.parseResult (fun h v => parse (value_of h v)) st' = parse (Normal j).
Proof.
  intros Hwf Ht Hj.
  assert (Hdk : distinct_keys t = true).
  { eapply unfold_distinct_keys; [by apply wf_heap_distinct|exact Ht]. }
  destruct (deepClone_spec h0 initialData t j Hdk Ht Hj) as (h' & v' & Hd & _ & _ & Hv).
  exists (UseForm.mkForm h' v' false None []).
  split; [unfold UseForm.useForm; by rewrite Hd|].
  split; [done|]. split; [done|]. split; [done|].
  split; [unfold UseForm.parseResult; simpl; by rewrite Hv|].
  split.
  - intros Hs. unfold UseForm.isValid, UseForm.parseResult. simpl. rewrite Hv, Ht.
    unfold json_safe in Hs. congruence.
  - intros st Hr.
    destruct (UseFormFacts.reset_clones_again _ _ _ _ _ _ _ Hr Ht Hj) as (h1 & v1 & -> & Hv1).
    eexists. split; [done|]. unfold UseForm.parseResult. simpl. by rewrite Hv1.
Qed.

(** The form on [{ name: '' }] is invalid from the start. *)
Lemma useForm_validates_witness :
  wf_heap Demo.empty_name = true /\
  value_of Demo.empty_name (VRef 0) = Normal (TObj [("name", TStr "")]) /\
  to_json (TObj [("name", TStr "")]) = Some (TObj [("name", TStr "")]) /\
  exists st0, UseForm.useForm (VRef 0) Demo.empty_name = Normal st0 /\
    UseForm.displayErrors st0 = false /\ UseForm.changedAt st0 = None /\
    UseForm.calls st0 = [] /\
    UseForm.parseResult Demo.safeParse_value st0 = SafeParseError Demo.name_required /\
    (json_safe (TObj [("name", TStr "")]) ->
     UseForm.isValid Demo.safeParse_value st0 = false) /\
    forall st,
      UseForm.reachable Demo.safeParse_value (VRef 0) Demo.onSubmit Demo.empty_name st ->
      exists st', UseForm.reset (VRef 0) st = (st', Normal tt) /\
        UseForm.parseResult Demo.safeParse_value st' = SafeParseError Demo.name_required.
Proof.
  split; [reflexivity|]. split; [reflexivity|]. split; [reflexivity|].
  exact (useForm_validates_round_trip Demo.parse_value (VRef 0) Demo.onSubmit
           Demo.empty_name _ _ eq_refl eq_refl eq_refl).
Defined.

(** X7.  [reset] of [useForm] gives the form new data and leaves the old
    ones alone: from every reachable state it returns, every object of the
    new [data.value] was created by this call, and every object that existed
    before, the previous data among them, is as it was, so a reference the
    caller kept to the previous data still reads the previous value and is
    no longer the data of the form. *)
Theorem sync_reset_detaches {Output : Type}
    (schema : heap -> val -> SafeParseReturnType Output) (initialData : val)
    (onSubmit : Output -> completion unit) (h0 : heap) (st : UseForm.Form Output) :
  UseForm.reachable schema initialData onSubmit h0 st ->
  exists st', UseForm.reset initialData st = (st', Normal tt) /\
    sub_heap (UseForm.heap st) (UseForm.heap st') /\
    (forall l, reach (UseForm.heap st') (UseForm.data st') l ->
               length (UseForm.heap st) <= l) /\
    (forall l, l < length (UseForm.heap st) -> UseForm.data st' <> VRef l) /\
    (forall v t, value_of (UseForm.heap st) v = Normal t ->
                 value_of (UseForm.heap st') v = Normal t).
Proof.
  intros Hr. destruct (UseFormFacts.reachable_initial _ _ _ _ _ Hr) as (_ & t & j & Ht & Hj).
  destruct (UseFormFacts.reset_clones_again _ _ _ _ _ _ _ Hr Ht Hj) as (h' & v' & Hreset & _).
  rewrite Hreset. eexists. split; [done|]. simpl.
  unfold UseForm.reset in Hreset.
  destruct (UseForm.deepClone (UseForm.heap st) initialData) as [[h1 v1]| |] eqn:Hd;
    simpl in Hreset; [|done|done].
  injection Hreset as -> ->.
  destruct (deepClone_fresh _ _ _ _ Hd) as ([ext ->] & Hc & Ho).
  split; [apply sub_heap_app|]. split; [intros l Hl; by eapply reach_owned|].
  split; [intros l Hl ->; simpl in Ho; lia|].
  intros w tw Hw. by apply value_of_app.
Qed.

(** After the caller typed a name, [reset] makes a third object; the typed
    one stays in the heap. *)
Lemma sync_reset_detaches_witness :
  UseForm.reachable Demo.safeParse (VRef 0) Demo.onSubmit Demo.empty_name Demo.typed /\
  exists st', UseForm.reset (VRef 0) Demo.typed = (st', Normal tt) /\
    sub_heap (UseForm.heap Demo.typed) (UseForm.heap st') /\
    (forall l, reach (UseForm.heap st') (UseForm.data st') l ->
               length (UseForm.heap Demo.typed) <= l) /\
    (forall l, l < length (UseForm.heap Demo.typed) -> UseForm.data st' <> VRef l) /\
    (forall v t, value_of (UseForm.heap Demo.typed) v = Normal t ->
                 value_of (UseForm.heap st') v = Normal t).
Proof.
  split; [exact DemoFacts.typed_reachable|].
  exact (sync_reset_detaches Demo.safeParse (VRef 0) Demo.onSubmit Demo.empty_name
           Demo.typed DemoFacts.typed_reachable).
Defined.

(** X8.  [useForm] calls [onSubmit] on validated data only: every call
    recorded in a reachable state was made with the output of a successful
    [safeParse] of the data of a reachable state (the one [submit] was
    called in). *)
Theorem sync_onSubmit_receives_parsed_data {Output : Type}
    (schema : heap -> val -> SafeParseReturnType Output) (initialData : val)
    (onSubmit : Output -> completion unit) (h0 : heap) (st : UseForm.Form Output) :
  UseForm.reachable schema initialData onSubmit h0 st ->
  forall out, In out (UseForm.calls st) ->
    exists st1, UseForm.reachable schema initialData onSubmit h0 st1 /\
      UseForm.parseResult schema st1 = SafeParseSuccess out /\
      UseForm.isValid schema st1 = true.
Proof.
  induction 1 as [st Hwf Hv Hu|st a st' Hr IH Hs]; intros out Hin.
  - unfold UseForm.useForm in Hu. apply bind_Normal in Hu as (hv & _ & [= <-]). done.
  - destruct Hs; simpl in Hin; try by apply IH.
    + unfold UseForm.submit in Hin.
      destruct (schema (UseForm.heap st) (UseForm.data st)) as [res|err] eqn:Hp;
        simpl in Hin; [|by apply IH].
      apply in_app_or in Hin as [Hin|[<-|[]]]; [by apply IH|].
      exists st. split; [done|]. unfold UseForm.isValid, UseForm.parseResult.
      by rewrite Hp.
    + unfold UseForm.reset in Hin.
      destruct (UseForm.deepClone _ _) as [[??]| |]; simpl in Hin; by apply IH.
Qed.

(** The call made by [submit] on the typed form. *)
Lemma sync_onSubmit_witness :
  UseForm.reachable Demo.safeParse (VRef 0) Demo.onSubmit Demo.empty_name
    (fst (UseForm.submit Demo.safeParse Demo.onSubmit Demo.typed)) /\
  In (TObj [("name", TStr "Bob")])
     (UseForm.calls (fst (UseForm.submit Demo.safeParse Demo.onSubmit Demo.typed))) /\
  exists st1, UseForm.reachable Demo.safeParse (VRef 0) Demo.onSubmit Demo.empty_name st1 /\
    UseForm.parseResult Demo.safeParse st1 = SafeParseSuccess (TObj [("name", TStr "Bob")]) /\
    UseForm.isValid Demo.safeParse st1 = true.
Proof.
  assert (Hr : UseForm.reachable Demo.safeParse (VRef 0) Demo.onSubmit Demo.empty_name
                 (fst (UseForm.submit Demo.safeParse Demo.onSubmit Demo.typed))).
  { eapply UseForm.reachable_step; [exact DemoFacts.typed_reachable|].
    apply UseForm.step_submit. }
  split; [exact Hr|]. split; [left; reflexivity|].
  exact (sync_onSubmit_receives_parsed_data Demo.safeParse (VRef 0) Demo.onSubmit
           Demo.empty_name _ Hr (TObj [("name", TStr "Bob")]) (or_introl eq_refl)).
Defined.

(** ** [useFormComponent] *)

Section extras_async.
Context {Output R : Type}.
Variable Number_toString : number -> string.
Variable schema : UseFormComponent.Schema Output.
Variable input : loc.
Variable onSubmit : Output -> completion R.
Variable options : option UseFormComponent.Options.

Import UseFormComponent.

Abbreviation reachable := (UseFormComponent.reachable schema input onSubmit options).

(** X9.  [useFormComponent] calls [onSubmit] on validated data only: every
    call recorded in a reachable state was made with the output of a
    successful [safeParse] of the data ([submit] parses them itself, so this
    holds whatever [status] was). *)
Theorem async_onSubmit_receives_parsed_data (h0 : JS.heap) (st : FormComponent Output) :
  reachable h0 st ->
  forall out, In out (calls st) ->
    exists st1, reachable h0 st1 /\
      safeParse schema (heap st1) (VRef input) = SafeParseSuccess out.
Proof.
  induction 1 as [st Hwf Hv Hu|st a st' Hr IH Hs]; intros out Hin.
  - apply UseFormComponentFacts.useFormComponent_inv in Hu as (hv & _ & ->). done.
  - destruct Hs; simpl in Hin; try by apply IH.
    + unfold resolve in *. destruct (inflight st !! i); [|done].
      match goal with H : Some _ = Some _ |- _ => injection H as <- end. by apply IH.
    + unfold submit in Hin.
      destruct (safeParse schema (heap st) (VRef input)) as [res|err] eqn:Hp; simpl in Hin.
      * apply in_app_or in Hin as [Hin|[<-|[]]]; [by apply IH|]. by exists st.
      * destruct (mutateDisplayErrorsOnError options); by apply IH.
    + unfold reset in Hin. simpl in Hin.
      destruct (Object_assign _ _ _) as [[??]|]; by apply IH.
Qed.

(** X10.  [status] never contradicts [parseResult]: in every reachable
    state, [valid] comes with a successful [parseResult] (so [getErrors] is
    empty for every path), [invalid] with a failed one, and a [null]
    [parseResult] with [parsing]. *)
Theorem status_agrees_with_parseResult (h0 : JS.heap) (st : FormComponent Output) :
  reachable h0 st ->
  (status st = valid -> exists out, parseResult st = Some (SafeParseSuccess out)) /\
  (status st = invalid -> exists e, parseResult st = Some (SafeParseError e)) /\
  (parseResult st = None -> status st = parsing) /\
  (status st = valid -> forall path, getErrors Number_toString st path = []).
Proof.
  intros Hr. assert (H := UseFormComponentFacts.status_verdict _ _ _ _ _ _ Hr).
  split; [intros Hs; by rewrite Hs in H|]. split; [intros Hs; by rewrite Hs in H|].
  split.
  - intros Hn. destruct (status st); [done| |]; destruct H as [? H]; congruence.
  - intros Hs path. rewrite Hs in H. destruct H as [out H]. unfold getErrors. by rewrite H.
Qed.

(** X11.  [status] is [parsing] only for a reason: in a reachable state it
    is [parsing] only if the component is not mounted yet or a validation is
    in flight; and until the component is mounted [parseResult] is [null]
    and [getErrors] is empty for every path, whatever the data are. *)
Theorem parsing_only_while_pending (h0 : JS.heap) (st : FormComponent Output) :
  reachable h0 st ->
  (status st = parsing -> mounted st = false \/ inflight st <> []) /\
  (mounted st = false ->
   parseResult st = None /\ forall path, getErrors Number_toString st path = []).
Proof.
  intros Hr. split.
  - induction Hr as [st Hwf Hv Hu|st a st' Hr IH Hs].
    + apply UseFormComponentFacts.useFormComponent_inv in Hu as (hv & _ & ->). by left.
    + destruct Hs; simpl; try done.
      * intros _. right. by destruct (inflight st).
      * intros _. right. by destruct (inflight st).
      * unfold resolve in *. destruct (inflight st !! i) as [r|]; [|done].
        match goal with H : Some _ = Some _ |- _ => injection H as <- end.
        by destruct r.
      * unfold submit. destruct (safeParse _ _ _); simpl; [done|].
        by destruct (mutateDisplayErrorsOnError options).
      * unfold reset. simpl. by destruct (Object_assign _ _ _) as [[??]|].
  - intros Hm. assert (Hn := UseFormComponentFacts.unmounted_unparsed _ _ _ _ _ _ Hr Hm).
    split; [done|]. intros path. unfold getErrors. by rewrite Hn.
Qed.

(** X12.  Mounting validates the data as they are then: from a reachable
    state of a component that is not mounted, [onMounted]'s immediate run of
    the watcher leaves exactly one validation in flight, that of the current
    data, and when it resolves [parseResult] is its result, [status] its
    verdict, and nothing is in flight. *)
Theorem mount_validates_current_data (h0 : JS.heap) (st : FormComponent Output) :
  reachable h0 st -> mounted st = false ->
  reachable h0 (mount schema input st) /\
  status (mount schema input st) = parsing /\
  inflight (mount schema input st) = [safeParseAsync schema (heap st) (VRef input)] /\
  exists st2,
    resolve 0 (mount schema input st) = Some st2 /\ reachable h0 st2 /\
    parseResult st2 = Some (safeParseAsync schema (heap st) (VRef input)) /\
    status st2 = (if success (safeParseAsync schema (heap st) (VRef input))
                  then valid else invalid) /\
    inflight st2 = [] /\ heap st2 = heap st.
Proof.
  intros Hr Hm.
  destruct (UseFormComponentFacts.unmounted_parsing _ _ _ _ _ _ Hr Hm) as (_ & Hf & _).
  assert (Hr1 : reachable h0 (mount schema input st)).
  { eapply reachable_step; [exact Hr|]. by apply step_mount. }
  split; [done|]. split; [done|]. split; [simpl; by rewrite Hf|].
  assert (Hres : resolve 0 (mount schema input st)
                 = Some (resume (safeParseAsync schema (heap st) (VRef input))
                           (set_inflight [] (mount schema input st)))).
  { unfold resolve. simpl. by rewrite Hf. }
  eexists. split; [exact Hres|]. split; [|done].
  eapply reachable_step; [exact Hr1|]. by apply step_resolve.
Qed.

(** X13.  The snapshot [initialInput] is the object made at construction
    (a new object, not [input]), and that object is never written: it has
    the same properties in every reachable state.  What [reset] copies from
    is the top level of the data as they were at construction. *)
Theorem snapshot_object_never_written (h0 : JS.heap) (st : FormComponent Output) :
  reachable h0 st ->
  exists (st0 : FormComponent Output) s snapshot,
    useFormComponent input options h0 = Normal st0 /\
    initialInput st0 = VRef s /\ initialInput st = VRef s /\
    length h0 <= s /\ s <> input /\
    heap st0 !! s = Some snapshot /\ heap st !! s = Some snapshot.
Proof.
  intros Hr.
  destruct (UseFormComponentFacts.reachable_snapshot_fixed _ _ _ _ _ _ Hr)
    as (st0 & s & so & Hu & Hs & Hok0 & Hok).
  exists st0, s, so. split; [done|].
  destruct Hok0 as [? ? ? _ _ _], Hok as [? ? ? _ _ _]. done.
Qed.

(** X14.  [reset] copies the snapshot's property values as they are
    ([Object.assign] is shallow): from every reachable state it returns,
    every property of the snapshot has the same value in [input] afterwards,
    the very same object when the value is an object, so every object
    reachable from a property of the snapshot is then reachable from the
    data the caller edits. *)
Theorem async_reset_copies_by_reference (h0 : JS.heap) (st : FormComponent Output) :
  reachable h0 st ->
  exists s snapshot o' st',
    initialInput st = VRef s /\ heap st !! s = Some snapshot /\
    reset input st = (st', Normal tt) /\
    heap st' !! input = Some o' /\ heap st' !! s = Some snapshot /\
    (forall k v, obj_get snapshot k = Some v -> obj_get o' k = Some v) /\
    (forall v l, In v (obj_vals snapshot) -> reach (heap st') v l ->
                 reach (heap st') (VRef input) l).
Proof.
  intros Hr.
  destruct (UseFormComponentFacts.reachable_snapshot_ok _ _ _ _ _ _ Hr) as (s & so & Hok).
  destruct Hok as [Hsnap Hne Hso Hd _ [o [Ho Hk]]].
  destruct (assign_entries_Some o so Hk) as [[o' c'] He].
  assert (Hi : input < length (heap st)) by (by eapply lookup_lt_Some).
  assert (Hget : forall k v, obj_get so k = Some v -> obj_get o' k = Some v).
  { intros k v Hv. eapply assign_entries_get; [by apply entries_NoDup|exact He|].
    by apply obj_get_entries. }
  exists s, so, o'. eexists. split; [done|]. split; [done|].
  split.
  { unfold reset. simpl. rewrite Hsnap. unfold Object_assign. rewrite Ho, Hso, He. done. }
  simpl. split; [by rewrite list_lookup_insert_eq|].
  split; [by rewrite list_lookup_insert_ne|]. split; [done|].
  intros v l Hv Hreach. rewrite <- entries_vals in Hv.
  apply in_map_iff in Hv as ([k v'] & <- & Hkv). simpl in *.
  apply list_elem_of_In, entries_elem in Hkv; [|done].
  eapply reach_via; [by rewrite list_lookup_insert_eq| |exact Hreach].
  by eapply obj_get_vals, Hget.
Qed.

(** X15.  When nothing is pending, [status] is about the data as they
    are: as long as validations do not overlap, in a state of the mounted
    component with no run of the watcher queued and no validation in flight,
    [parseResult] is the result of [safeParseAsync] on the current data and
    [status] is its verdict (never [parsing]); so when [safeParse] agrees
    with [safeParseAsync] on these data, [submit] calls [onSubmit] exactly
    when [status] is [valid]. *)
Theorem quiescent_status_is_current (h0 : JS.heap) (st : FormComponent Output) :
  serial schema input onSubmit options h0 st ->
  mounted st = true -> queued st = false -> inflight st = [] ->
  parseResult st = Some (safeParseAsync schema (heap st) (VRef input)) /\
  status st = (if success (safeParseAsync schema (heap st) (VRef input))
               then valid else invalid) /\
  status st <> parsing /\
  (safeParse schema (heap st) (VRef input) = safeParseAsync schema (heap st) (VRef input) ->
   (status st = valid <->
    exists out, submit schema input onSubmit options st = (called out st, onSubmit out))).
Proof.
  intros Hser Hm Hq Hf.
  assert (H := UseFormComponentFacts.serial_current _ _ _ _ _ _ Hser Hm Hq).
  rewrite Hf in H. destruct H as [Hp Hs]. split; [done|]. split; [done|].
  split; [rewrite Hs; by destruct (success _)|].
  intros Heq. unfold submit. rewrite Heq, Hs.
  destruct (safeParseAsync schema (heap st) (VRef input)) as [out|err]; simpl.
  - split; [intros _; by exists out|done].
  - split; [done|]. intros [out H].
    apply (f_equal (fun p => length (calls (fst p)))) in H. simpl in H.
    rewrite length_app in H. destruct (mutateDisplayErrorsOnError options); simpl in H; lia.
Qed.

(** X16.  The object given to [provide] does not follow the form.  When the
    component's [setup] runs before the form is mounted (the component is
    rendered by the one that called [useFormComponent], whose [onMounted]
    comes later), the provided [status] is [parsing], [parseResult] and
    [changedAt] are [null] and [hasChanged] is [false], and they stay so:
    at every later state the object given to the default slot carries the
    current cells, so once [status] has left [parsing] the two differ. *)
Theorem provided_context_is_not_reactive (h0 : JS.heap) (st0 st : FormComponent Output) :
  reachable h0 st0 -> mounted st0 = false -> reachable h0 st ->
  ctx_status (fst (setup input st0)) = parsing /\
  ctx_parseResult (fst (setup input st0)) = None /\
  ctx_changedAt (fst (setup input st0)) = None /\
  ctx_hasChanged (fst (setup input st0)) = false /\
  ctx_status (snd (setup input st0) st) = status st /\
  ctx_parseResult (snd (setup input st0) st) = parseResult st /\
  ctx_displayErrors (snd (setup input st0) st) = displayErrors st /\
  (status st <> parsing ->
   ctx_status (fst (setup input st0)) <> ctx_status (snd (setup input st0) st) /\
   ctx_parseResult (fst (setup input st0)) <> ctx_parseResult (snd (setup input st0) st)).
Proof.
  intros Hr0 Hm Hr. simpl.
  destruct (UseFormComponentFacts.unmounted_parsing _ _ _ _ _ _ Hr0 Hm) as (Hs & _ & _).
  assert (Hp := UseFormComponentFacts.unmounted_unparsed _ _ _ _ _ _ Hr0 Hm).
  assert (Hc := UseFormComponentFacts.changedAt_null _ _ _ _ _ _ Hr0).
  split; [done|]. split; [done|]. split; [done|].
  split; [unfold hasChanged; rewrite Hc; by apply bool_decide_eq_false; intros H|].
  split; [done|]. split; [done|]. split; [done|].
  intros Hne. rewrite Hs, Hp. split; [congruence|].
  assert (H := UseFormComponentFacts.status_verdict _ _ _ _ _ _ Hr).
  destruct (status st); [done| |]; destruct H as [? ->]; done.
Qed.

End extras_async.

(** [submit] on the component as constructed on [{ name: 'Bob', nick: undefined }],
    whose [status] is still [parsing]. *)
Lemma async_onSubmit_witness :
  UseFormComponent.reachable Demo.schema 0 Demo.onSubmitCallback None Demo.bob
    (fst (UseFormComponent.submit Demo.schema 0 Demo.onSubmitCallback None
            Demo.constructed)) /\
  In (TObj [("name", TStr "Bob")])
     (UseFormComponent.calls
        (fst (UseFormComponent.submit Demo.schema 0 Demo.onSubmitCallback None
                Demo.constructed))) /\
  exists st1,
    UseFormComponent.reachable Demo.schema 0 Demo.onSubmitCallback None Demo.bob st1 /\
    Demo.safeParse (UseFormComponent.heap st1) (VRef 0)
    = SafeParseSuccess (TObj [("name", TStr "Bob")]).
Proof.
  assert (Hr : UseFormComponent.reachable Demo.schema 0 Demo.onSubmitCallback None Demo.bob
                 (fst (UseFormComponent.submit Demo.schema 0 Demo.onSubmitCallback None
                         Demo.constructed))).
  { eapply UseFormComponent.reachable_step; [exact DemoFacts.constructed_reachable|].
    apply UseFormComponent.step_submit. }
  split; [exact Hr|]. split; [left; reflexivity|].
  exact (async_onSubmit_receives_parsed_data Demo.schema 0 Demo.onSubmitCallback None
           Demo.bob _ Hr (TObj [("name", TStr "Bob")]) (or_introl eq_refl)).
Defined.

(** The component after both overlapping validations resolved: [invalid],
    with the failed result. *)
Lemma status_agrees_witness :
  UseFormComponent.reachable Demo.schema 0 Demo.onSubmitCallback None Demo.bob
    Demo.resolved_invalid /\
  forall Number_toString,
    (UseFormComponent.status Demo.resolved_invalid = UseFormComponent.valid ->
     exists out,
       UseFormComponent.parseResult Demo.resolved_invalid = Some (SafeParseSuccess out)) /\
    (UseFormComponent.status Demo.resolved_invalid = UseFormComponent.invalid ->
     exists e,
       UseFormComponent.parseResult Demo.resolved_invalid = Some (SafeParseError e)) /\
    (UseFormComponent.parseResult Demo.resolved_invalid = None ->
     UseFormComponent.status Demo.resolved_invalid = UseFormComponent.parsing) /\
    (UseFormComponent.status Demo.resolved_invalid = UseFormComponent.valid ->
     forall path,
       UseFormComponent.getErrors Number_toString Demo.resolved_invalid path = []).
Proof.
  split; [exact DemoFacts.resolved_invalid_reachable|]. intros Number_toString.
  exact (status_agrees_with_parseResult Number_toString Demo.schema 0
           Demo.onSubmitCallback None Demo.bob Demo.resolved_invalid
           DemoFacts.resolved_invalid_reachable).
Defined.

(** The component as constructed: not mounted, [parsing], no errors. *)
Lemma parsing_only_while_pending_witness :
  UseFormComponent.reachable Demo.schema 0 Demo.onSubmitCallback None Demo.bob
    Demo.constructed /\
  forall Number_toString,
    (UseFormComponent.status Demo.constructed = UseFormComponent.parsing ->
     UseFormComponent.mounted Demo.constructed = false \/
     UseFormComponent.inflight Demo.constructed <> []) /\
    (UseFormComponent.mounted Demo.constructed = false ->
     UseFormComponent.parseResult Demo.constructed = None /\
     forall path, UseFormComponent.getErrors Number_toString Demo.constructed path = []).
Proof.
  split; [exact DemoFacts.constructed_reachable|]. intros Number_toString.
  exact (parsing_only_while_pending Number_toString Demo.schema 0 Demo.onSubmitCallback
           None Demo.bob Demo.constructed DemoFacts.constructed_reachable).
Defined.

(** Mounting the component on [{ name: 'Bob', nick: undefined }] ends in
    [valid]. *)
Lemma mount_validates_witness :
  UseFormComponent.reachable Demo.schema 0 Demo.onSubmitCallback None Demo.bob
    Demo.constructed /\
  UseFormComponent.mounted Demo.constructed = false /\
  exists st2,
    UseFormComponent.resolve 0 (UseFormComponent.mount Demo.schema 0 Demo.constructed)
    = Some st2 /\
    UseFormComponent.status st2 = UseFormComponent.valid /\
    UseFormComponent.inflight st2 = [].
Proof.
  split; [exact DemoFacts.constructed_reachable|]. split; [reflexivity|].
  destruct (mount_validates_current_data Demo.schema 0 Demo.onSubmitCallback None
              Demo.bob Demo.constructed DemoFacts.constructed_reachable eq_refl)
    as (_ & _ & _ & st2 & Hres & _ & _ & Hs & Hf & _).
  exists st2. split; [exact Hres|]. split; [exact Hs|exact Hf].
Defined.

(** After a [reset] and [input.profile.name = 'Eve'] the snapshot is still
    the object at location 3, with its property [profile]. *)
Lemma snapshot_object_witness :
  UseFormComponent.reachable Demo.schema 1 Demo.onSubmitCallback None Demo.profile
    Demo.renamed /\
  exists (st0 : UseFormComponent.FormComponent tree) s snapshot,
    UseFormComponent.useFormComponent 1 None Demo.profile = Normal st0 /\
    UseFormComponent.initialInput st0 = VRef s /\
    UseFormComponent.initialInput Demo.renamed = VRef s /\
    length Demo.profile <= s /\ s <> 1 /\
    UseFormComponent.heap st0 !! s = Some snapshot /\
    UseFormComponent.heap Demo.renamed !! s = Some snapshot.
Proof.
  split; [exact DemoFacts.renamed_reachable|].
  exact (snapshot_object_never_written Demo.schema 1 Demo.onSubmitCallback None
           Demo.profile Demo.renamed DemoFacts.renamed_reachable).
Defined.

(** On [{ profile: { name: 'Bob' } }], [reset] makes [input.profile] the
    snapshot's own [profile] object. *)
Lemma async_reset_copies_witness :
  UseFormComponent.reachable Demo.schema 1 Demo.onSubmitCallback None Demo.profile
    Demo.nested /\
  exists s snapshot o' st',
    UseFormComponent.initialInput Demo.nested = VRef s /\
    UseFormComponent.heap Demo.nested !! s = Some snapshot /\
    UseFormComponent.reset 1 Demo.nested = (st', Normal tt) /\
    UseFormComponent.heap st' !! 1 = Some o' /\
    UseFormComponent.heap st' !! s = Some snapshot /\
    (forall k v, obj_get snapshot k = Some v -> obj_get o' k = Some v) /\
    (forall v l, In v (obj_vals snapshot) -> reach (UseFormComponent.heap st') v l ->
                 reach (UseFormComponent.heap st') (VRef 1) l).
Proof.
  split; [exact DemoFacts.nested_reachable|].
  exact (async_reset_copies_by_reference Demo.schema 1 Demo.onSubmitCallback None
           Demo.profile Demo.nested DemoFacts.nested_reachable).
Defined.

(** The mounted component on [{ name: 'Bob', nick: undefined }] after its
    validation resolved: [valid], and [submit] calls [onSubmit]. *)
Lemma quiescent_status_witness :
  UseFormComponent.serial Demo.schema 0 Demo.onSubmitCallback None Demo.bob Demo.validated /\
  UseFormComponent.mounted Demo.validated = true /\
  UseFormComponent.queued Demo.validated = false /\
  UseFormComponent.inflight Demo.validated = [] /\
  UseFormComponent.status Demo.validated = UseFormComponent.valid /\
  exists out,
    UseFormComponent.submit Demo.schema 0 Demo.onSubmitCallback None Demo.validated
    = (UseFormComponent.called out Demo.validated, Demo.onSubmitCallback out).
Proof.
  split; [exact DemoFacts.validated_serial|]. split; [reflexivity|].
  split; [reflexivity|]. split; [reflexivity|]. split; [reflexivity|].
  exact (proj1 (proj2 (proj2 (proj2
           (quiescent_status_is_current Demo.schema 0 Demo.onSubmitCallback None Demo.bob
              Demo.validated DemoFacts.validated_serial eq_refl eq_refl eq_refl)))
           eq_refl) eq_refl).
Defined.

(** The context provided at construction still says [parsing] when the
    form is [valid]. *)
Lemma provided_context_witness :
  UseFormComponent.reachable Demo.schema 0 Demo.onSubmitCallback None Demo.bob
    Demo.constructed /\
  UseFormComponent.mounted Demo.constructed = false /\
  UseFormComponent.reachable Demo.schema 0 Demo.onSubmitCallback None Demo.bob
    Demo.validated /\
  UseFormComponent.ctx_status (fst (UseFormComponent.setup 0 Demo.constructed))
  = UseFormComponent.parsing /\
  UseFormComponent.ctx_status (snd (UseFormComponent.setup 0 Demo.constructed) Demo.validated)
  = UseFormComponent.valid.
Proof.
  assert (Hr := UseFormComponentFacts.serial_reachable _ _ _ _ _ _ DemoFacts.validated_serial).
  split; [exact DemoFacts.constructed_reachable|]. split; [reflexivity|].
  split; [exact Hr|].
  destruct (provided_context_is_not_reactive Demo.schema 0 Demo.onSubmitCallback None
              Demo.bob Demo.constructed Demo.validated
              DemoFacts.constructed_reachable eq_refl Hr)
    as (H1 & _ & _ & _ & H2 & _).
  split; [exact H1|exact H2].
Defined.

(** ** Both controllers *)

(** X17.  Construction fails on data [JSON.stringify] cannot write, and no
    controller is made then: [useForm] throws the [TypeError] when
    [initialData] is cyclic and the [SyntaxError] when [initialData] is
    [undefined]; [useFormComponent] throws the [TypeError] when the object
    [input] is cyclic.  So a form that was made has acyclic initial data. *)
Theorem construction_throws_on_cycle_or_undefined {Output : Type}
    (initialData : val) (input : loc)
    (options : option UseFormComponent.Options) (h0 : heap) :
  wf_heap h0 = true -> val_ok (length h0) initialData = true -> input < length h0 ->
  (cyclic h0 initialData ->
   UseForm.useForm (Output:=Output) initialData h0
   = Throw (TypeError "cyclic object value")) /\
  (initialData = VUndefined ->
   UseForm.useForm (Output:=Output) initialData h0
   = Throw (SyntaxError "undefined is not valid JSON")) /\
  (forall st : UseForm.Form Output, UseForm.useForm initialData h0 = Normal st ->
     ~ cyclic h0 initialData /\ initialData <> VUndefined) /\
  (cyclic h0 (VRef input) ->
   UseFormComponent.useFormComponent (Output:=Output) input options h0
   = Throw (TypeError "cyclic object value")) /\
  (forall st : UseFormComponent.FormComponent Output,
     UseFormComponent.useFormComponent input options h0 = Normal st ->
     ~ cyclic h0 (VRef input)).
Proof.
  intros Hwf Hv Hin.
  assert (Hvi : val_ok (length h0) (VRef input) = true) by (by apply bool_decide_eq_true).
  rewrite (UseFormComponentFacts.useFormComponent_deepClone (Output:=Output)).
  unfold UseForm.useForm.
  destruct (deepClone_cases h0 initialData Hwf Hv)
    as [(Hc & Hu & Hd)|[(Hc & Hu & Hd)|(Hc & Hu & hv & Hd)]]; rewrite Hd; simpl;
    (split; [done|]); (split; [done|]); (split; [by intros st|]);
    (destruct (deepClone_cases h0 (VRef input) Hwf Hvi)
       as [(Hc' & _ & Hd')|[(_ & Hu' & _)|(Hc' & _ & hv' & Hd')]]; [|done|];
     rewrite Hd'; simpl; (split; [done|]); by intros st).
Qed.

(** [useFormComponent] on the object that holds itself throws. *)
Lemma construction_throws_witness :
  wf_heap Demo.selfref = true /\ val_ok (length Demo.selfref) (VRef 0) = true /\
  0 < length Demo.selfref /\
  cyclic Demo.selfref (VRef 0) /\
  UseFormComponent.useFormComponent (Output:=tree) 0 None Demo.selfref
  = Throw (TypeError "cyclic object value").
Proof.
  assert (Hc : cyclic Demo.selfref (VRef 0)).
  { exists 0. split; [constructor|].
    exists (Obj [("self", VRef 0)]), (VRef 0).
    split; [reflexivity|]. split; [by left|constructor]. }
  split; [reflexivity|]. split; [reflexivity|]. split; [simpl; lia|].
  split; [exact Hc|].
  exact (proj1 (proj2 (proj2 (proj2
           (construction_throws_on_cycle_or_undefined (Output:=tree) (VRef 0) 0 None
              Demo.selfref eq_refl eq_refl ltac:(simpl; lia))))) Hc).
Defined.

(** X18.  [toggleDisplayErrors] undoes itself and touches nothing but
    [displayErrors]: called twice it gives the state back, and after one call
    the errors reported by [getErrors] and the outcome of [submit] are what
    they were, in both controllers. *)
Theorem toggleDisplayErrors_involutive {Output R : Type}
    (Number_toString : number -> string)
    (schema : heap -> val -> SafeParseReturnType Output)
    (onSubmit : Output -> completion unit)
    (schema' : UseFormComponent.Schema Output) (input : loc)
    (onSubmit' : Output -> completion R) (options : option UseFormComponent.Options)
    (st : UseForm.Form Output) (st' : UseFormComponent.FormComponent Output) :
  UseForm.toggleDisplayErrors (UseForm.toggleDisplayErrors st) = st /\
  (forall path, UseForm.getErrors Number_toString schema (UseForm.toggleDisplayErrors st) path
                = UseForm.getErrors Number_toString schema st path) /\
  snd (UseForm.submit schema onSubmit (UseForm.toggleDisplayErrors st))
  = snd (UseForm.submit schema onSubmit st) /\
  UseFormComponent.toggleDisplayErrors (UseFormComponent.toggleDisplayErrors st') = st' /\
  (forall path, UseFormComponent.getErrors Number_toString (UseFormComponent.toggleDisplayErrors st') path
                = UseFormComponent.getErrors Number_toString st' path) /\
  snd (UseFormComponent.submit schema' input onSubmit' options
         (UseFormComponent.toggleDisplayErrors st'))
  = snd (UseFormComponent.submit schema' input onSubmit' options st').
Proof.
  split; [destruct st; unfold UseForm.toggleDisplayErrors, UseForm.set_displayErrors;
          simpl; by rewrite negb_involutive|].
  split; [done|]. split.
  { unfold UseForm.submit. simpl. by destruct (schema _ _). }
  split; [destruct st'; unfold UseFormComponent.toggleDisplayErrors,
            UseFormComponent.set_displayErrors; simpl; by rewrite negb_involutive|].
  split; [done|].
  unfold UseFormComponent.submit. simpl. by destruct (UseFormComponent.safeParse _ _ _).
Qed.

(** X19.  [getErrors] loses no issue and sorts each under one joined path:
    when validation failed, every issue of the error is returned for its own
    path, and an issue returned for two queried paths is returned because
    these join to the same string; in both controllers.  The issues of the
    root (empty path) are those of [getErrors()], which are also those of
    [getErrors('')]. *)
Theorem getErrors_finds_every_issue {Output : Type}
    (Number_toString : number -> string)
    (schema : heap -> val -> SafeParseReturnType Output)
    (st : UseForm.Form Output) (st' : UseFormComponent.FormComponent Output)
    (e e' : ZodError) :
  UseForm.parseResult schema st = SafeParseError e ->
  UseFormComponent.parseResult st' = Some (SafeParseError e') ->
  (forall i, In i (errors e) -> In i (UseForm.getErrors Number_toString schema st (path i))) /\
  (forall i, In i (errors e') -> In i (UseFormComponent.getErrors Number_toString st' (path i))) /\
  (forall i p q, In i (UseForm.getErrors Number_toString schema st p) ->
                 In i (UseForm.getErrors Number_toString schema st q) -> join Number_toString p "." = join Number_toString q ".") /\
  (forall i p q, In i (UseFormComponent.getErrors Number_toString st' p) ->
                 In i (UseFormComponent.getErrors Number_toString st' q) -> join Number_toString p "." = join Number_toString q ".") /\
  (forall i, In i (UseForm.getErrors Number_toString schema st []) <-> In i (errors e) /\ join Number_toString (path i) "." = "") /\
  UseForm.getErrors Number_toString schema st [] = UseForm.getErrors Number_toString schema st [SegStr ""] /\
  UseFormComponent.getErrors Number_toString st' [] = UseFormComponent.getErrors Number_toString st' [SegStr ""].
Proof.
  intros Hp Hp'. unfold UseForm.getErrors, UseFormComponent.getErrors. rewrite Hp, Hp'.
  split; [intros i Hi; apply filter_In; split; [done|by apply String.eqb_refl]|].
  split; [intros i Hi; apply filter_In; split; [done|by apply String.eqb_refl]|].
  split.
  { intros i p q [_ H1]%filter_In [_ H2]%filter_In.
    apply String.eqb_eq in H1, H2. congruence. }
  split.
  { intros i p q [_ H1]%filter_In [_ H2]%filter_In.
    apply String.eqb_eq in H1, H2. congruence. }
  split; [|done].
  intros i. rewrite filter_In, String.eqb_eq. done.
Qed.

(** The failed validation of [{ name: '' }] in both controllers. *)
Lemma getErrors_finds_witness :
  UseForm.parseResult Demo.safeParse Demo.untyped = SafeParseError Demo.name_required /\
  UseFormComponent.parseResult Demo.resolved_invalid
  = Some (SafeParseError Demo.name_required) /\
  forall Number_toString,
    In (mkIssue "too_small" [SegStr "name"] "Name is required")
       (UseForm.getErrors Number_toString Demo.safeParse Demo.untyped [SegStr "name"]) /\
    In (mkIssue "too_small" [SegStr "name"] "Name is required")
       (UseFormComponent.getErrors Number_toString Demo.resolved_invalid [SegStr "name"]).
Proof.
  split; [reflexivity|]. split; [reflexivity|]. intros Number_toString.
  destruct (getErrors_finds_every_issue Number_toString Demo.safeParse Demo.untyped
              Demo.resolved_invalid Demo.name_required Demo.name_required
              eq_refl eq_refl)
    as (H1 & H2 & _).
  split; [exact (H1 _ (or_introl eq_refl))|exact (H2 _ (or_introl eq_refl))].
Defined.
